(** * A shallow embedding of the [log] package (logger.go)

    The package is a leveled logger: producers build entries and either
    process them on their own goroutine (sync mode) or hand them to one
    dispatcher goroutine through a buffered channel.  The embedding keeps
    the code's shape:

    - the [coreLogger] struct is a record, the channel it points to lives
      in a small heap of channels, and every call into a [Target] is an
      event appended to a trace;
    - every method is a program in a resumption monad [prog] whose atomic
      actions are the reads, writes and calls of the source, one per
      access ([l.goroutines++] is one action); a blocking channel
      operation is an action that is not enabled;
    - [step] is the small-step semantics used to interleave goroutines
      under a schedule, [exec] runs one goroutine on its own until it
      returns, parks or brings the process down, and [exec_steps] ties
      the two together. *)

From Stdlib Require Import ZArith List String Ascii Bool Lia Arith.
From Stdlib Require Import FunctionalExtensionality.
From Stdlib Require Import DecimalString.
Import ListNotations.
Local Open Scope string_scope.
Local Open Scope list_scope.
Local Open Scope Z_scope.

(** ** Levels and actions *)

Definition Level := Z.
Definition Action := Z.

Definition LevelFatal : Level := 0.
Definition LevelError : Level := 1.
Definition LevelWarn : Level := 2.
Definition LevelInfo : Level := 3.
Definition LevelDebug : Level := 4.

Definition ActionNothing : Action := 0.
Definition ActionPanic : Action := 1.
Definition ActionExit : Action := 2.

(** [LevelNames] and [Levels] are Go maps with five keys each; a lookup
    returns the value and the comma-ok flag as an [option]. *)
Definition LevelNames (l : Level) : option string :=
  if Z.eqb l LevelDebug then Some "Debug"
  else if Z.eqb l LevelInfo then Some "Info"
  else if Z.eqb l LevelWarn then Some "Warn"
  else if Z.eqb l LevelError then Some "Error"
  else if Z.eqb l LevelFatal then Some "Fatal"
  else None.

Definition Levels (name : string) : option Level :=
  if String.eqb name "Debug" then Some LevelDebug
  else if String.eqb name "Info" then Some LevelInfo
  else if String.eqb name "Warn" then Some LevelWarn
  else if String.eqb name "Error" then Some LevelError
  else if String.eqb name "Fatal" then Some LevelFatal
  else None.

(** *** [strings.Title] on ASCII text

    The standard library upper-cases the rune that follows a separator and
    copies every other rune.  Runes below 0x80 are separators unless they
    are letters, digits or the underscore.  Bytes from 0x80 on belong to
    multi-byte runes, whose treatment depends on the Unicode tables; the
    model copies them and counts them as letters. *)
Definition in_range (lo hi c : ascii) : bool :=
  (nat_of_ascii lo <=? nat_of_ascii c)%nat && (nat_of_ascii c <=? nat_of_ascii hi)%nat.

Definition isSeparator (r : ascii) : bool :=
  if (nat_of_ascii r <=? 127)%nat then
    negb (in_range "0"%char "9"%char r || in_range "a"%char "z"%char r
          || in_range "A"%char "Z"%char r || Ascii.eqb r "_"%char)
  else false.

Definition toTitle (r : ascii) : ascii :=
  if in_range "a"%char "z"%char r then ascii_of_nat (nat_of_ascii r - 32) else r.

Fixpoint title_from (prev : ascii) (s : string) : string :=
  match s with
  | EmptyString => EmptyString
  | String r rest =>
      String (if isSeparator prev then toTitle r else r) (title_from r rest)
  end.

Definition Title (s : string) : string := title_from " "%char s.

(** [GetLevel]: on a miss the map lookup yields the zero [Level] and
    [false]. *)
Definition GetLevel (level : string) : Level * bool :=
  let level := Title level in
  match Levels level with
  | Some l => (l, true)
  | None => (0, false)
  end.

Definition Level_String (l : Level) : string :=
  match LevelNames l with
  | Some name => name
  | None => "Unknown"
  end.

(** ** Entries, targets and the engine *)

Record Entry := mkEntry {
  ELevel : Level;
  ECategory : string;
  EMessage : string;
  ETime : Z;
  ECallStack : string;
  EFormattedMessage : string
}.

(** An [io.Writer] is only ever passed on and written to. *)
Inductive Writer := Stderr | FileWriter (fd : nat).

(** A [Target] is an interface value.  The model's targets record the
    calls made to them in the trace; [TOpenError] is what their [Open]
    returns. *)
Record Target := mkTarget {
  TName : string;
  TOpenError : option string
}.

(** A channel of [*Entry]: [None] is the nil entry.  [CTaken] counts the
    values received so far, so that the sender on an unbuffered channel
    can wait until its own value has been received. *)
Record chan := mkChan {
  CCap : Z;
  CBuf : list (option Entry);
  CTaken : nat
}.

Record coreLogger := mkCore {
  lock : bool;
  open : bool;
  entries : option nat;
  goroutines : Z;
  fatalAction : Action;
  ErrorWriter : option Writer;
  BufferSize : Z;
  CallStackDepth : Z;
  CallStackFilter : string;
  MaxLevel : Level;
  Targets : list Target;
  SyncMode : bool
}.

(** What [runtime.Caller] reports for one frame. *)
Record Frame := mkFrame { FFile : string; FLine : Z }.

Inductive event :=
| TargetOpen (t : Target) (w : option Writer)
| TargetProcess (t : Target) (e : option Entry)
| TargetClose (t : Target)
| ErrWrite (w : Writer) (text : string).

(** The world of one engine: the struct, the channels allocated so far,
    the wall clock, the frames [runtime.Caller i] answers with on the
    logging goroutine (index 0 is [GetCallStack] itself), and the calls
    made to the collaborators. *)
Record world := mkWorld {
  core : coreLogger;
  heap : list chan;
  wallclock : Z;
  callers : list Frame;
  trace : list event
}.

Definition set_core (f : coreLogger -> coreLogger) (w : world) : world :=
  mkWorld (f (core w)) (heap w) (wallclock w) (callers w) (trace w).
Definition set_heap (h : list chan) (w : world) : world :=
  mkWorld (core w) h (wallclock w) (callers w) (trace w).
Definition emit (evs : list event) (w : world) : world :=
  mkWorld (core w) (heap w) (wallclock w) (callers w) (trace w ++ evs).

Definition with_lock (b : bool) (c : coreLogger) : coreLogger :=
  mkCore b (open c) (entries c) (goroutines c) (fatalAction c) (ErrorWriter c)
    (BufferSize c) (CallStackDepth c) (CallStackFilter c) (MaxLevel c)
    (Targets c) (SyncMode c).
Definition with_open (b : bool) (c : coreLogger) : coreLogger :=
  mkCore (lock c) b (entries c) (goroutines c) (fatalAction c) (ErrorWriter c)
    (BufferSize c) (CallStackDepth c) (CallStackFilter c) (MaxLevel c)
    (Targets c) (SyncMode c).
Definition with_entries (e : option nat) (c : coreLogger) : coreLogger :=
  mkCore (lock c) (open c) e (goroutines c) (fatalAction c) (ErrorWriter c)
    (BufferSize c) (CallStackDepth c) (CallStackFilter c) (MaxLevel c)
    (Targets c) (SyncMode c).
Definition with_goroutines (g : Z) (c : coreLogger) : coreLogger :=
  mkCore (lock c) (open c) (entries c) g (fatalAction c) (ErrorWriter c)
    (BufferSize c) (CallStackDepth c) (CallStackFilter c) (MaxLevel c)
    (Targets c) (SyncMode c).
Definition with_fatalAction (a : Action) (c : coreLogger) : coreLogger :=
  mkCore (lock c) (open c) (entries c) (goroutines c) a (ErrorWriter c)
    (BufferSize c) (CallStackDepth c) (CallStackFilter c) (MaxLevel c)
    (Targets c) (SyncMode c).
Definition with_Targets (ts : list Target) (c : coreLogger) : coreLogger :=
  mkCore (lock c) (open c) (entries c) (goroutines c) (fatalAction c)
    (ErrorWriter c) (BufferSize c) (CallStackDepth c) (CallStackFilter c)
    (MaxLevel c) ts (SyncMode c).
Definition with_SyncMode (b : bool) (c : coreLogger) : coreLogger :=
  mkCore (lock c) (open c) (entries c) (goroutines c) (fatalAction c)
    (ErrorWriter c) (BufferSize c) (CallStackDepth c) (CallStackFilter c)
    (MaxLevel c) (Targets c) b.

(** ** Programs

    [Act f k] performs the atomic action [f] and continues with [k]; the
    action is not enabled where [f] answers [None].  [Loop body k] is a
    [for { ... }] whose body answers [true] to go round again and [false]
    to break.  [Go q k] is a [go] statement.  [Panic] and [Exit] bring the
    whole process down. *)
Inductive prog (A : Type) : Type :=
| Ret (a : A)
| Act {B : Type} (f : world -> option (B * world)) (k : B -> prog A)
| Loop (body : prog bool) (k : prog A)
| Go (q : prog unit) (k : prog A)
| Sleep (d : Z) (k : prog A)
| Panic (msg : string)
| Exit (code : Z).

Arguments Ret {A} a.
Arguments Act {A B} f k.
Arguments Loop {A} body k.
Arguments Go {A} q k.
Arguments Sleep {A} d k.
Arguments Panic {A} msg.
Arguments Exit {A} code.

Fixpoint bind {A B : Type} (p : prog A) (g : A -> prog B) : prog B :=
  match p with
  | Ret a => g a
  | Act f k => Act f (fun b => bind (k b) g)
  | Loop body k => Loop body (bind k g)
  | Go q k => Go q (bind k g)
  | Sleep d k => Sleep d (bind k g)
  | Panic msg => Panic msg
  | Exit code => Exit code
  end.

Declare Scope prog_scope.
Delimit Scope prog_scope with prog.
Notation "x <- p ;; q" := (bind p (fun x => q))
  (at level 61, p at next level, right associativity) : prog_scope.
Notation "p ;; q" := (bind p (fun _ => q))
  (at level 61, right associativity) : prog_scope.
Local Open Scope prog_scope.

(** *** Atomic actions *)

Definition load {A : Type} (f : coreLogger -> A) : prog A :=
  Act (fun w => Some (f (core w), w)) Ret.
Definition store (f : coreLogger -> coreLogger) : prog unit :=
  Act (fun w => Some (tt, set_core f w)) Ret.
Definition call (ev : event) : prog unit :=
  Act (fun w => Some (tt, emit [ev] w)) Ret.
Definition time_Now : prog Z :=
  Act (fun w => Some (wallclock w, w)) Ret.
Definition runtime_Callers : prog (list Frame) :=
  Act (fun w => Some (callers w, w)) Ret.

Definition mutex_Lock : prog unit :=
  Act (fun w => if lock (core w) then None
                else Some (tt, set_core (with_lock true) w)) Ret.
Definition mutex_Unlock : prog unit := store (with_lock false).

(** [make(chan *Entry, size)] *)
Definition make_chan (size : Z) : prog nat :=
  Act (fun w => Some (List.length (heap w),
                      set_heap (heap w ++ [mkChan size [] 0]) w)) Ret.

Fixpoint update {A : Type} (l : list A) (i : nat) (x : A) : list A :=
  match l, i with
  | [], _ => []
  | _ :: t, O => x :: t
  | h :: t, S j => h :: update t j x
  end.

(** A send first places the value: on a buffered channel while the buffer
    has room, on an unbuffered one while no other value is waiting.  On an
    unbuffered channel the sender then stays until its value has been
    received.  A send on the nil channel never proceeds. *)
Definition chan_room (ch : chan) : bool :=
  (Z.of_nat (List.length (CBuf ch)) <? Z.max (CCap ch) 1).

Definition chan_offer (c : option nat) (v : option Entry) : prog nat :=
  Act (fun w =>
         match c with
         | None => None
         | Some i =>
             match nth_error (heap w) i with
             | None => None
             | Some ch =>
                 if chan_room ch
                 then Some ((CTaken ch + List.length (CBuf ch))%nat,
                            set_heap (update (heap w) i
                               (mkChan (CCap ch) (CBuf ch ++ [v]) (CTaken ch))) w)
                 else None
             end
         end) Ret.

Definition chan_await (c : option nat) (ticket : nat) : prog unit :=
  Act (fun w =>
         match c with
         | None => None
         | Some i =>
             match nth_error (heap w) i with
             | None => None
             | Some ch =>
                 if (0 <? CCap ch) || (ticket <? CTaken ch)%nat
                 then Some (tt, w) else None
             end
         end) Ret.

Definition chan_send (c : option nat) (v : option Entry) : prog unit :=
  ticket <- chan_offer c v ;; chan_await c ticket.

Definition chan_recv (c : option nat) : prog (option Entry) :=
  Act (fun w =>
         match c with
         | None => None
         | Some i =>
             match nth_error (heap w) i with
             | None => None
             | Some ch =>
                 match CBuf ch with
                 | [] => None
                 | v :: rest =>
                     Some (v, set_heap (update (heap w) i
                                 (mkChan (CCap ch) rest (S (CTaken ch)))) w)
                 end
             end
         end) Ret.

(** [for _, x := range xs { body x }] *)
Fixpoint forEach {A : Type} (xs : list A) (body : A -> prog unit) : prog unit :=
  match xs with
  | [] => Ret tt
  | x :: rest => body x ;; forEach rest body
  end.

(** ** Semantics *)

Inductive crash := Panicked (msg : string) | Exited (code : Z).

(** One step of one goroutine. *)
Inductive step_result (A : Type) : Type :=
| Finished (a : A)
| Stepped (p : prog A) (w : world) (spawned : list (prog unit))
| Blocked
| Halted (c : crash).

Arguments Finished {A} a.
Arguments Stepped {A} p w spawned.
Arguments Blocked {A}.
Arguments Halted {A} c.

Definition step {A : Type} (p : prog A) (w : world) : step_result A :=
  match p with
  | Ret a => Finished a
  | Act f k =>
      match f w with
      | Some (b, w') => Stepped (k b) w' []
      | None => Blocked
      end
  | Loop body k =>
      Stepped (bind body (fun again => if again : bool then Loop body k else k)) w []
  | Go q k => Stepped k w [q]
  | Sleep _ k => Stepped k w []
  | Panic msg => Halted (Panicked msg)
  | Exit code => Halted (Exited code)
  end.

(** The process: the world, its goroutines (a finished one keeps its
    slot), and how it ended if it did. *)
Record config := mkConfig {
  cworld : world;
  cthreads : list (prog unit);
  cdown : option crash
}.

Definition sched_step (i : nat) (c : config) : option config :=
  match cdown c with
  | Some _ => None
  | None =>
      match nth_error (cthreads c) i with
      | None => None
      | Some p =>
          match step p (cworld c) with
          | Finished _ => None
          | Blocked => None
          | Stepped p' w' sp =>
              Some (mkConfig w' (update (cthreads c) i p' ++ sp) None)
          | Halted cr => Some (mkConfig (cworld c) (cthreads c) (Some cr))
          end
      end
  end.

(** A schedule names the goroutine that moves at each step; it is
    rejected as soon as it asks a goroutine to move that cannot. *)
Fixpoint run (sched : list nat) (c : config) : option config :=
  match sched with
  | [] => Some c
  | i :: rest =>
      match sched_step i c with
      | Some c' => run rest c'
      | None => None
      end
  end.

(** Running one goroutine on its own: it returns, or parks where it
    cannot go on without another goroutine (a channel or the mutex is
    not ready, or it goes to sleep), or brings the process down. *)
Inductive park := AtAction | AtSleep.

Inductive outcome (A : Type) : Type :=
| Done (a : A) (w : world) (spawned : list (prog unit))
| Parked (why : park) (w : world) (spawned : list (prog unit))
| Crashed (c : crash) (w : world) (spawned : list (prog unit))
| OutOfFuel.

Arguments Done {A} a w spawned.
Arguments Parked {A} why w spawned.
Arguments Crashed {A} c w spawned.
Arguments OutOfFuel {A}.

Definition also_spawned {A : Type} (qs : list (prog unit)) (o : outcome A) : outcome A :=
  match o with
  | Done a w sp => Done a w (qs ++ sp)
  | Parked y w sp => Parked y w (qs ++ sp)
  | Crashed c w sp => Crashed c w (qs ++ sp)
  | OutOfFuel => OutOfFuel
  end.

(** The rounds of a loop, given how its body and what follows it run;
    [n] bounds the number of rounds. *)
Fixpoint loop_rounds {A : Type} (run_body : world -> outcome bool)
    (run_rest : world -> outcome A) (n : nat) (w : world)
    (sp : list (prog unit)) : outcome A :=
  match n with
  | O => OutOfFuel
  | S n' =>
      match run_body w with
      | Done again w' sp' =>
          if again then loop_rounds run_body run_rest n' w' (sp ++ sp')
          else also_spawned (sp ++ sp') (run_rest w')
      | Parked y w' sp' => Parked y w' (sp ++ sp')
      | Crashed c w' sp' => Crashed c w' (sp ++ sp')
      | OutOfFuel => OutOfFuel
      end
  end.

(** [fuel] bounds the number of rounds of each loop. *)
Fixpoint exec (fuel : nat) {A : Type} (p : prog A) (w : world) {struct p} : outcome A :=
  match p with
  | Ret a => Done a w []
  | Act f k =>
      match f w with
      | Some (b, w') => exec fuel (k b) w'
      | None => Parked AtAction w []
      end
  | Loop body k => loop_rounds (exec fuel body) (exec fuel k) fuel w []
  | Go q k => also_spawned [q] (exec fuel k w)
  | Sleep _ _ => Parked AtSleep w []
  | Panic msg => Crashed (Panicked msg) w []
  | Exit code => Crashed (Exited code) w []
  end.

(** ** The call stack *)

Definition newline : string := String (ascii_of_nat 10) EmptyString.

(** [strings.Contains] *)
Fixpoint strings_Contains (s substr : string) : bool :=
  if String.prefix substr s then true
  else match s with
       | EmptyString => false
       | String _ rest => strings_Contains rest substr
       end.

Definition itoa (z : Z) : string := NilZero.string_of_int (Z.to_int z).

Definition accepted (filter : string) (f : Frame) : bool :=
  String.eqb filter "" || strings_Contains (FFile f) filter.

Definition render_frame (f : Frame) : string :=
  (newline ++ FFile f ++ ":" ++ itoa (FLine f))%string.

(** The loop of [GetCallStack]: [rest] holds the frames from index [i]
    on, so that [runtime.Caller i] fails exactly when [rest] is empty. *)
Fixpoint GetCallStack_loop (rest : list Frame) (count frames : Z)
    (filter : string) (buf : string) : string :=
  if count <? frames then
    match rest with
    | [] => buf
    | f :: rest' =>
        if accepted filter f
        then GetCallStack_loop rest' (count + 1) frames filter
               (buf ++ render_frame f)%string
        else GetCallStack_loop rest' count frames filter buf
    end
  else buf.

Definition GetCallStack (rt : list Frame) (skip frames : Z) (filter : string) : string :=
  GetCallStack_loop (skipn (Z.to_nat skip) rt) 0 frames filter "".

(** ** The logger *)

(** A formatter receives the logger (here: the engine and the category
    it logs under) and the entry. *)
Definition Formatter_t := coreLogger -> string -> Entry -> string.

Record Logger := mkLogger {
  Category : string;
  Formatter : Formatter_t
}.

Record LoggerWriter := mkLoggerWriter {
  WLevel : Level;
  WLogger : Logger
}.

Definition target_Open (t : Target) (w : option Writer) : prog (option string) :=
  call (TargetOpen t w) ;; Ret (TOpenError t).
Definition target_Process (t : Target) (e : option Entry) : prog unit :=
  call (TargetProcess t e).
Definition target_Close (t : Target) : prog unit :=
  call (TargetClose t).

(** [fmt.Fprintf] to a nil writer dereferences nil. *)
Definition fmt_Fprintf (w : option Writer) (text : string) : prog unit :=
  match w with
  | None => Panic "runtime error: invalid memory address or nil pointer dereference"
  | Some w => call (ErrWrite w text)
  end.

Definition go (q : prog unit) : prog unit := Go q (Ret tt).

(** [process] sends the messages to targets for processing. *)
Definition process : prog unit :=
  Loop (c <- load entries ;;
        entry <- chan_recv c ;;
        ts <- load Targets ;;
        forEach ts (fun target => target_Process target entry) ;;
        store (fun c => with_goroutines (goroutines c - 1) c) ;;
        match entry with
        | None => Ret false
        | Some _ => Ret true
        end)
       (Ret tt).

Definition syncProcess (entry : option Entry) : prog unit :=
  match entry with
  | None => Ret tt
  | Some _ =>
      ts <- load Targets ;;
      forEach ts (fun target => target_Process target entry)
  end.

(** The loop of [Open] over the configured targets; [targets] is the
    slice being appended to. *)
Fixpoint Open_targets (ts targets : list Target) : prog (list Target) :=
  match ts with
  | [] => Ret targets
  | target :: rest =>
      w <- load ErrorWriter ;;
      err <- target_Open target w ;;
      match err with
      | Some msg =>
          w <- load ErrorWriter ;;
          fmt_Fprintf w ("Failed to open target: " ++ msg ++ newline)%string ;;
          Open_targets rest targets
      | None => Open_targets rest (targets ++ [target])
      end
  end.

(** [Open]; the deferred [Unlock] runs before every return. *)
Definition Open : prog (option string) :=
  mutex_Lock ;;
  o <- load open ;;
  if o : bool then mutex_Unlock ;; Ret None
  else
    ew <- load ErrorWriter ;;
    match ew with
    | None => mutex_Unlock ;; Ret (Some "Logger.ErrorWriter must be set.")
    | Some _ =>
        bs <- load BufferSize ;;
        if bs <? 0
        then mutex_Unlock ;; Ret (Some "Logger.BufferSize must be no less than 0.")
        else
          d <- load CallStackDepth ;;
          if d <? 0
          then mutex_Unlock ;;
               Ret (Some "Logger.CallStackDepth must be no less than 0.")
          else
            bs <- load BufferSize ;;
            c <- make_chan bs ;;
            store (with_entries (Some c)) ;;
            ts <- load Targets ;;
            targets <- Open_targets ts [] ;;
            store (with_Targets targets) ;;
            go process ;;
            store (with_open true) ;;
            mutex_Unlock ;;
            Ret None
    end.

Definition Close : prog unit :=
  o <- load open ;;
  if negb o then Ret tt
  else
    store (with_open false) ;;
    c <- load entries ;;
    chan_send c None ;;
    ts <- load Targets ;;
    forEach ts target_Close.

(** The [for] loop that ends [newFatalEntry]. *)
Definition fatal_wait (l : Logger) : prog unit :=
  Loop (g <- load goroutines ;;
        if g <=? 0 then
          a <- load fatalAction ;;
          if a =? ActionPanic then Panic "Fatal error."
          else if a =? ActionExit then
            now <- time_Now ;;
            formatted <- load (fun c =>
              Formatter l c (Category l)
                (mkEntry LevelWarn (Category l) "Forced to exit." now "" "")) ;;
            syncProcess
              (Some (mkEntry LevelWarn (Category l) "Forced to exit." now ""
                       formatted)) ;;
            Exit (-1)
          else Ret false
        else
          g <- load goroutines ;;
          Sleep g (Ret true))
       (Ret tt).

Definition newFatalEntry (l : Logger) (level : Level) (message : string) : prog unit :=
  now <- time_Now ;;
  d <- load CallStackDepth ;;
  let stackDepth := if d =? 0 then 20 else d in
  filter <- load CallStackFilter ;;
  rt <- runtime_Callers ;;
  let stack := GetCallStack rt 3 stackDepth filter in
  formatted <- load (fun c =>
    Formatter l c (Category l) (mkEntry level (Category l) message now stack "")) ;;
  let entry := mkEntry level (Category l) message now stack formatted in
  syncProcess (Some entry) ;;
  sm <- load SyncMode ;;
  (if sm : bool then syncProcess (Some entry)
   else
     store (fun c => with_goroutines (goroutines c + 1) c) ;;
     c <- load entries ;;
     chan_send c (Some entry)) ;;
  fatal_wait l.

Definition newEntry (l : Logger) (level : Level) (message : string) : prog unit :=
  if level =? LevelFatal then newFatalEntry l level message
  else
    now <- time_Now ;;
    d <- load CallStackDepth ;;
    stack <- (if 0 <? d then
                d <- load CallStackDepth ;;
                filter <- load CallStackFilter ;;
                rt <- runtime_Callers ;;
                Ret (GetCallStack rt 3 d filter)
              else Ret "") ;;
    formatted <- load (fun c =>
      Formatter l c (Category l) (mkEntry level (Category l) message now stack "")) ;;
    let entry := mkEntry level (Category l) message now stack formatted in
    sm <- load SyncMode ;;
    if sm : bool then syncProcess (Some entry)
    else
      store (fun c => with_goroutines (goroutines c + 1) c) ;;
      c <- load entries ;;
      chan_send c (Some entry).

(** A byte slice is a list of bytes; [p[i]] panics out of range. *)
Definition index (p : list ascii) (i : Z) : option ascii :=
  if (i <? 0) || (Z.of_nat (List.length p) <=? i) then None
  else nth_error p (Z.to_nat i).

Definition Write (l : LoggerWriter) (p : list ascii) : prog (Z * option string) :=
  let n := Z.of_nat (List.length p) in
  match index p (n - 1) with
  | None => Panic "runtime error: index out of range"
  | Some last =>
      let s := if Ascii.eqb last (ascii_of_nat 10)
               then string_of_list_ascii (firstn (Z.to_nat (n - 1)) p)
               else string_of_list_ascii p in
      newEntry (WLogger l) (WLevel l) s ;;
      Ret (n, None)
  end.

Definition Writer_of (l : Logger) (level : Level) : LoggerWriter :=
  mkLoggerWriter level l.

Definition GetLogger (l : Logger) (category : string) (formatter : list Formatter_t) : Logger :=
  match formatter with
  | f :: _ => mkLogger category f
  | [] => mkLogger category (Formatter l)
  end.

Definition Sync (args : list bool) : prog unit :=
  match args with
  | [] => store (with_SyncMode true)
  | b :: _ => store (with_SyncMode b)
  end.

Definition SetTarget (targets : list Target) : prog unit :=
  Close ;;
  match targets with
  | _ :: _ => store (with_Targets targets) ;; _ <- Open ;; Ret tt
  | [] => store (with_Targets [])
  end.

Definition SetFatalAction (action : Action) : prog unit :=
  store (with_fatalAction action).

Definition AddTarget (targets : list Target) : prog unit :=
  Close ;;
  store (fun c => with_Targets (Targets c ++ targets) c) ;;
  _ <- Open ;; Ret tt.



(** The parts of the Go standard library and of the package that the
    source file only calls: [fmt.Sprint] and [fmt.Sprintf] over a type of
    values, [time.Time.Format], and the console target of the package. *)
Section Facade.

Variable value : Type.
Variable fmt_Sprint : list value -> string.
Variable fmt_Sprintf : string -> list value -> string.
Variable Time_Format : Z -> string -> string.
Variable NewConsoleTarget : Target.

Definition Logf (l : Logger) (level : Level) (format : string) (a : list value) : prog unit :=
  m <- load MaxLevel ;;
  if m <? level then Ret tt
  else
    o <- load open ;;
    if negb o then Ret tt
    else
      let message := match a with
                     | [] => format
                     | _ :: _ => fmt_Sprintf format a
                     end in
      newEntry l level message.

(** The message of a formatted call. *)
Definition message_f (format : string) (a : list value) : string :=
  match a with
  | [] => format
  | _ :: _ => fmt_Sprintf format a
  end.

Definition Log (l : Logger) (level : Level) (a : list value) : prog unit :=
  m <- load MaxLevel ;;
  if m <? level then Ret tt
  else
    o <- load open ;;
    if negb o then Ret tt
    else newEntry l level (fmt_Sprint a).

Definition Fatalf l format a := Logf l LevelFatal format a.
Definition Errorf l format a := Logf l LevelError format a.
Definition Warnf l format a := Logf l LevelWarn format a.
Definition Infof l format a := Logf l LevelInfo format a.
Definition Debugf l format a := Logf l LevelDebug format a.

Definition Fatal l a := Log l LevelFatal a.
Definition Error l a := Log l LevelError a.
Definition Warn l a := Log l LevelWarn a.
Definition Info l a := Log l LevelInfo a.
Definition Debug l a := Log l LevelDebug a.


Definition NormalFormatter : Formatter_t := fun _ _ e =>
  (Time_Format (ETime e) "2006-01-02 15:04:05" ++ "|"
   ++ Level_String (ELevel e) ++ "|" ++ ECategory e ++ "|"
   ++ EMessage e ++ ECallStack e)%string.

(** [NewLogger] allocates a fresh engine; the world holds one engine,
    which the constructor resets. *)
Definition NewLogger (args : list string) : prog Logger :=
  store (fun _ => mkCore false false None 0 0 (Some Stderr) 1024 0 ""
                    LevelDebug [] false) ;;
  let category := match args with
                  | [] => "app"
                  | a :: _ => a
                  end in
  store (fun c => with_Targets (Targets c ++ [NewConsoleTarget]) c) ;;
  _ <- Open ;;
  Ret (mkLogger category NormalFormatter).

Definition New (args : list string) : prog Logger := NewLogger args.

End Facade.

(** * Vocabulary of the statements *)

(** One pass of [Process] over the targets. *)
Definition round (ts : list Target) (e : option Entry) : list event :=
  map (fun t => TargetProcess t e) ts.

(** Continuing a run. *)
Definition and_then {A B : Type} (o : outcome A) (f : A -> world -> outcome B) : outcome B :=
  match o with
  | Done a w sp => also_spawned sp (f a w)
  | Parked y w sp => Parked y w sp
  | Crashed c w sp => Crashed c w sp
  | OutOfFuel => OutOfFuel
  end.


(** The bound on the number of frames: [CallStackDepth], except that a
    Fatal entry takes 20 where the depth is 0. *)
Definition stack_bound (level : Level) (depth : Z) : Z :=
  if level =? LevelFatal then (if depth =? 0 then 20 else depth) else depth.

Definition captured_frames (w : world) (level : Level) : list Frame :=
  firstn (Z.to_nat (stack_bound level (CallStackDepth (core w))))
    (filter (accepted (CallStackFilter (core w))) (skipn 3 (callers w))).

Definition render_frames (fs : list Frame) : string :=
  fold_left (fun buf f => (buf ++ render_frame f)%string) fs "".

(** The entry a call at [level] with [message] builds in [w]. *)
Definition built_entry (l : Logger) (level : Level) (message : string) (w : world) : Entry :=
  let stack := render_frames (captured_frames w level) in
  mkEntry level (Category l) message (wallclock w) stack
    (Formatter l (core w) (Category l)
       (mkEntry level (Category l) message (wallclock w) stack "")).

(** The final entry of the Exit action. *)
Definition exit_entry (l : Logger) (w : world) : Entry :=
  mkEntry LevelWarn (Category l) "Forced to exit." (wallclock w) ""
    (Formatter l (core w) (Category l)
       (mkEntry LevelWarn (Category l) "Forced to exit." (wallclock w) "" "")).

(** The world after the entry has been processed on the calling
    goroutine, and after it has been counted and placed in channel [c]. *)
Definition after_sync (e : Entry) (w : world) : world :=
  emit (round (Targets (core w)) (Some e)) w.

Definition counted (w : world) : world :=
  set_core (fun c => with_goroutines (goroutines c + 1) c) w.

Definition placed (c : nat) (ch : chan) (v : option Entry) (w : world) : world :=
  set_heap (update (heap w) c (mkChan (CCap ch) (CBuf ch ++ [v]) (CTaken ch))) w.

(** The channel the engine points to. *)
Definition current_chan (w : world) : option (nat * chan) :=
  match entries (core w) with
  | None => None
  | Some c => match nth_error (heap w) c with
              | None => None
              | Some ch => Some (c, ch)
              end
  end.

(** How the loop that ends a Fatal call goes on its own. *)
Definition fatal_action (l : Logger) (w : world) : outcome unit :=
  if goroutines (core w) <=? 0 then
    if fatalAction (core w) =? ActionPanic
    then Crashed (Panicked "Fatal error.") w []
    else if fatalAction (core w) =? ActionExit
         then Crashed (Exited (-1)) (after_sync (exit_entry l w) w) []
         else Done tt w []
  else Parked AtSleep w [].

(** Sending on the channel the engine points to. *)
Definition sent (v : option Entry) (w : world) : outcome unit :=
  match current_chan w with
  | Some (c, ch) =>
      if chan_room ch
      then if 0 <? CCap ch
           then Done tt (placed c ch v w) []
           else Parked AtAction (placed c ch v w) []
      else Parked AtAction w []
  | None => Parked AtAction w []
  end.

(** One round of the dispatcher's loop: the value it receives and the
    world it leaves, where the channel has a value for it. *)
Definition handled (w : world) : option (option Entry * world) :=
  match current_chan w with
  | Some (c, ch) =>
      match CBuf ch with
      | [] => None
      | v :: rest =>
          Some (v,
                set_core (fun k => with_goroutines (goroutines k - 1) k)
                  (emit (round (Targets (core w)) v)
                     (set_heap (update (heap w) c
                                  (mkChan (CCap ch) rest (S (CTaken ch)))) w)))
      end
  | None => None
  end.

(** The dispatcher on its own: it goes round until the channel is empty
    or it has handled the nil entry. *)
Fixpoint drain (n : nat) (w : world) : outcome unit :=
  match n with
  | O => OutOfFuel
  | S n' =>
      match handled w with
      | None => Parked AtAction w []
      | Some (Some _, w') => drain n' w'
      | Some (None, w') => Done tt w' []
      end
  end.

(** The calls the targets see for a run of entries, in order. *)
Definition rounds (ts : list Target) (es : list Entry) : list event :=
  flat_map (fun e => round ts (Some e)) es.

(** [Close] on its own. *)
Definition close_outcome (w : world) : outcome unit :=
  if open (core w)
  then and_then (sent None (set_core (with_open false) w))
         (fun _ w' => Done tt (emit (map TargetClose (Targets (core w'))) w') [])
  else Done tt w [].

(** [Open] on its own: the targets whose [Open] succeeds stay, the calls
    and the reports of failures are the events. *)
Definition opens_ok (t : Target) : bool :=
  match TOpenError t with
  | None => true
  | Some _ => false
  end.

Definition open_events (ew : Writer) (ts : list Target) : list event :=
  flat_map (fun t =>
              TargetOpen t (Some ew) ::
              match TOpenError t with
              | Some msg =>
                  [ErrWrite ew ("Failed to open target: " ++ msg ++ newline)%string]
              | None => []
              end) ts.

Definition opened (ew : Writer) (w : world) : world :=
  mkWorld
    (mkCore false true (Some (List.length (heap w))) (goroutines (core w))
       (fatalAction (core w)) (ErrorWriter (core w)) (BufferSize (core w))
       (CallStackDepth (core w)) (CallStackFilter (core w)) (MaxLevel (core w))
       (List.filter opens_ok (Targets (core w))) (SyncMode (core w)))
    (heap w ++ [mkChan (BufferSize (core w)) [] 0])
    (wallclock w) (callers w)
    (trace w ++ open_events ew (Targets (core w))).

Definition open_outcome (w : world) : outcome (option string) :=
  if lock (core w) then Parked AtAction w []
  else if open (core w) then Done None w []
  else match ErrorWriter (core w) with
       | None => Done (Some "Logger.ErrorWriter must be set.") w []
       | Some ew =>
           if BufferSize (core w) <? 0
           then Done (Some "Logger.BufferSize must be no less than 0.") w []
           else if CallStackDepth (core w) <? 0
                then Done (Some "Logger.CallStackDepth must be no less than 0.") w []
                else Done None (opened ew w) [process]
       end.

(** What [newEntry] does on its own, case by case: a Fatal entry is
    processed at once, then processed again (sync mode) or counted and
    sent, then the final loop runs; any other entry is processed (sync
    mode) or counted and sent. *)
Definition submit (l : Logger) (level : Level) (message : string) (w : world) : outcome unit :=
  let e := built_entry l level message w in
  if level =? LevelFatal then
    if SyncMode (core w)
    then fatal_action l (after_sync e (after_sync e w))
    else and_then (sent (Some e) (counted (after_sync e w)))
           (fun _ w' => fatal_action l w')
  else
    if SyncMode (core w)
    then Done tt (after_sync e w) []
    else sent (Some e) (counted w).

(** Lower case, and comparing names without regard to case. *)
Definition toLower (r : ascii) : ascii :=
  if in_range "A"%char "Z"%char r then ascii_of_nat (nat_of_ascii r + 32) else r.

Definition lower_first (s : string) : string :=
  match s with
  | EmptyString => EmptyString
  | String r rest => String (toLower r) rest
  end.

Fixpoint strings_ToLower (s : string) : string :=
  match s with
  | EmptyString => EmptyString
  | String r rest => String (toLower r) (strings_ToLower rest)
  end.

Definition EqualFold (s t : string) : bool :=
  String.eqb (strings_ToLower s) (strings_ToLower t).

Definition level_names : list string := ["Debug"; "Info"; "Warn"; "Error"; "Fatal"].

(** A name as [GetLevel] accepts it: as it is in [Levels], or with its
    first letter in lower case. *)
Definition spelled (s name : string) : bool :=
  String.eqb s name || String.eqb s (lower_first name).

Definition GetLevel_by_first_letter (s : string) : Level * bool :=
  match find (spelled s) level_names with
  | Some name =>
      match Levels name with
      | Some l => (l, true)
      | None => (0, false)
      end
  | None => (0, false)
  end.

(** The message [Write] logs for the bytes [p]. *)
Definition line_of (p : list ascii) : string :=
  if Ascii.eqb (last p " "%char) (ascii_of_nat 10)
  then string_of_list_ascii (removelast p)
  else string_of_list_ascii p.

(** Checking every atomic action of a run: [acts_ok P fuel p w] says
    that each action the goroutine performs when it runs [p] from [w] on
    its own takes a world [w1] to a world [w2] with [P w1 w2]. *)
Fixpoint loop_acts_ok (ok_body : world -> Prop) (run_body : world -> outcome bool)
    (ok_rest : world -> Prop) (n : nat) (w : world) : Prop :=
  match n with
  | O => True
  | S n' =>
      ok_body w /\
      match run_body w with
      | Done again w' _ =>
          if again then loop_acts_ok ok_body run_body ok_rest n' w' else ok_rest w'
      | _ => True
      end
  end.

Fixpoint acts_ok (P : world -> world -> Prop) (fuel : nat) {A : Type}
    (p : prog A) (w : world) {struct p} : Prop :=
  match p with
  | Ret _ => True
  | Act f k =>
      match f w with
      | Some (b, w') => P w w' /\ acts_ok P fuel (k b) w'
      | None => True
      end
  | Loop body k =>
      loop_acts_ok (acts_ok P fuel body) (exec fuel body) (acts_ok P fuel k) fuel w
  | Go _ k => acts_ok P fuel k w
  | Sleep _ _ => True
  | Panic _ => True
  | Exit _ => True
  end.

(** Every action of a program, wherever it is performed, relates the
    worlds before and after it by [R]. *)
Fixpoint frames (R : world -> world -> Prop) {A : Type} (p : prog A) : Prop :=
  match p with
  | Ret _ => True
  | Act f k =>
      (forall w b w', f w = Some (b, w') -> R w w') /\ (forall b, frames R (k b))
  | Loop body k => frames R body /\ frames R k
  | Go q k => frames R q /\ frames R k
  | Sleep _ k => frames R k
  | Panic _ => True
  | Exit _ => True
  end.

(** What the dispatcher leaves alone: the flag, the mutex, the
    configuration and the target list. *)
Definition same_engine (w w' : world) : Prop :=
  open (core w') = open (core w)
  /\ lock (core w') = lock (core w)
  /\ Targets (core w') = Targets (core w)
  /\ entries (core w') = entries (core w)
  /\ SyncMode (core w') = SyncMode (core w)
  /\ MaxLevel (core w') = MaxLevel (core w).

(** The target list changes only while the engine is closed. *)
Definition targets_fixed_while_open (w w' : world) : Prop :=
  Targets (core w') <> Targets (core w) -> open (core w) = false.

(** The configuration [Open] accepts. *)
Definition config_ok (w : world) : bool :=
  match ErrorWriter (core w) with
  | Some _ => true
  | None => false
  end && (0 <=? BufferSize (core w)) && (0 <=? CallStackDepth (core w)).

(** The engine before [NewLogger]: the zero value of the struct. *)
Definition world0 : world :=
  mkWorld (mkCore false false None 0 0 None 0 0 "" 0 [] false) [] 0 [] [].

(** Text of runes below 0x80, on which the model of [strings.Title] is
    exact. *)
Definition is_ascii (s : string) : bool :=
  forallb (fun r => (nat_of_ascii r <? 128)%nat) (list_ascii_of_string s).

(** A string without separators. *)
Definition letters (s : string) : bool :=
  forallb (fun x => negb (isSeparator x)) (list_ascii_of_string s).

(** The goroutine alone, step by step, and where it stands then: [exec]
    answers with the place the steps lead to. *)
Fixpoint solo (n : nat) {A : Type} (p : prog A) (w : world) (sp : list (prog unit))
    : prog A * world * list (prog unit) :=
  match n with
  | O => (p, w, sp)
  | S n' =>
      match step p w with
      | Stepped p' w' sp' => solo n' p' w' (sp ++ sp')
      | _ => (p, w, sp)
      end
  end.

Definition stands {A : Type} (o : outcome A) (p : prog A) (w : world)
    (sp : list (prog unit)) : Prop :=
  match o with
  | Done a w' sp' => p = Ret a /\ w = w' /\ sp = sp'
  | Parked AtAction w' sp' => step p w = Blocked /\ w = w' /\ sp = sp'
  | Parked AtSleep w' sp' => (exists d k, p = Sleep d k) /\ w = w' /\ sp = sp'
  | Crashed c w' sp' => step p w = Halted c /\ w = w' /\ sp = sp'
  | OutOfFuel => True
  end.

Definition reaches {A : Type} (o : outcome A) (p : prog A) (w : world)
    (sp : list (prog unit)) : Prop :=
  exists n, let '(p', w', sp') := solo n p w sp in stands o p' w' sp'.

(** *** The caller's final loop beside the dispatcher *)

(** The places of the dispatcher in its loop. *)
Inductive dispatcher_pc :=
| DLoop
| DEntries
| DRecv (c : option nat)
| DTargets (v : option Entry)
| DEach (v : option Entry) (rem : list Target)
| DEnd.

Definition dispatcher_again (again : bool) : prog unit :=
  if again then process else Ret tt.

Definition dispatcher_each (v : option Entry) (rem : list Target) : prog bool :=
  forEach rem (fun target => target_Process target v) ;;
  store (fun c => with_goroutines (goroutines c - 1) c) ;;
  match v with
  | None => Ret false
  | Some _ => Ret true
  end.

Definition dispatcher_at (pc : dispatcher_pc) : prog unit :=
  match pc with
  | DLoop => process
  | DEntries =>
      bind (c <- load entries ;; entry <- chan_recv c ;;
            ts <- load Targets ;; dispatcher_each entry ts) dispatcher_again
  | DRecv c =>
      bind (entry <- chan_recv c ;; ts <- load Targets ;; dispatcher_each entry ts)
        dispatcher_again
  | DTargets v => bind (ts <- load Targets ;; dispatcher_each v ts) dispatcher_again
  | DEach v rem => bind (dispatcher_each v rem) dispatcher_again
  | DEnd => Ret tt
  end.

(** The places of the caller in the loop that ends a Fatal call. *)
Inductive waiter_pc :=
| WLoop
| WCount
| WAgain
| WSleep (g : Z).

Definition waiter_again (l : Logger) (again : bool) : prog unit :=
  if again then fatal_wait l else Ret tt.

Definition fatal_act (l : Logger) : prog bool :=
  a <- load fatalAction ;;
  if a =? ActionPanic then Panic "Fatal error."
  else if a =? ActionExit then
    now <- time_Now ;;
    formatted <- load (fun c =>
      Formatter l c (Category l)
        (mkEntry LevelWarn (Category l) "Forced to exit." now "" "")) ;;
    syncProcess
      (Some (mkEntry LevelWarn (Category l) "Forced to exit." now "" formatted)) ;;
    Exit (-1)
  else Ret false.

Definition waiter_at (l : Logger) (pc : waiter_pc) : prog unit :=
  match pc with
  | WLoop => fatal_wait l
  | WCount =>
      bind (g <- load goroutines ;;
            if g <=? 0 then fatal_act l
            else g <- load goroutines ;; Sleep g (Ret true))
        (waiter_again l)
  | WAgain => bind (g <- load goroutines ;; Sleep g (Ret true)) (waiter_again l)
  | WSleep g => Sleep g (fatal_wait l)
  end.

(** The trace only grows. *)
Definition grows (w w' : world) : Prop := exists evs, trace w' = trace w ++ evs.

(** What the dispatcher holds and still owes the targets at a place, and
    the channel it is about to read. *)
Definition in_hand (pc : dispatcher_pc) : nat :=
  match pc with
  | DTargets _ => 1
  | DEach _ _ => 1
  | _ => 0
  end.

Definition owed (ts : list Target) (pc : dispatcher_pc) : list event :=
  match pc with
  | DTargets v => round ts v
  | DEach v rem => round rem v
  | _ => []
  end.

Definition reads_from (c : nat) (pc : dispatcher_pc) : Prop :=
  match pc with
  | DRecv c' => c' = Some c
  | _ => True
  end.

(** The invariant of the final loop of a Fatal call running beside the
    dispatcher: either everything owed and queued at the start ([goal])
    has been passed to the targets, or the caller is still in its loop
    and the count covers what is in the dispatcher's hand and in the
    queue. *)
Definition flushed (before goal : list event) (cfg : config) : Prop :=
  exists rest, trace (cworld cfg) = before ++ goal ++ rest.

Definition waiting (l : Logger) (ts : list Target) (c : nat)
    (before goal : list event) (cfg : config) : Prop :=
  exists wpc dpc ch q emitted,
    cdown cfg = None
    /\ cthreads cfg = [waiter_at l wpc; dispatcher_at dpc]
    /\ reads_from c dpc
    /\ entries (core (cworld cfg)) = Some c
    /\ nth_error (heap (cworld cfg)) c = Some ch
    /\ CBuf ch = map Some q
    /\ Targets (core (cworld cfg)) = ts
    /\ Z.of_nat (in_hand dpc + List.length q) <= goroutines (core (cworld cfg))
    /\ trace (cworld cfg) = before ++ emitted
    /\ emitted ++ owed ts dpc ++ rounds ts q = goal.

Definition flush_inv (l : Logger) (ts : list Target) (c : nat)
    (before goal : list event) (cfg : config) : Prop :=
  Forall (frames grows) (cthreads cfg)
  /\ (flushed before goal cfg \/ waiting l ts c before goal cfg).

(** *** Runs and what they leave *)





(** The engine [NewLogger] sets up before it calls [Open]. *)
Definition fresh_engine (console : Target) (w : world) : world :=
  mkWorld (mkCore false false None 0 0 (Some Stderr) 1024 0 "" LevelDebug [console] false)
    (heap w) (wallclock w) (callers w) (trace w).

(** *** Calls in a row *)

Section Callers.

Variable value : Type.
Variable fmt_Sprint : list value -> string.

(** A goroutine that makes the calls one after the other. *)
Definition log_each (l : Logger) (calls : list (Level * list value)) : prog unit :=
  forEach calls (fun c => Log value fmt_Sprint l (fst c) (snd c)).

(** The calls pass the gate and are not Fatal. *)
Definition passes (w : world) (c : Level * list value) : Prop :=
  0 < fst c <= MaxLevel (core w).

End Callers.

(** *** [Close] beside the dispatcher *)

(** The places of a goroutine in [Close], up to the send. *)
Inductive closer_pc :=
| CStart
| CStore
| CEntries
| COffer (c : option nat)
| CAwait (c : option nat) (ticket : nat)
| CDone.

Definition close_targets : prog unit :=
  ts <- load Targets ;; forEach ts target_Close.

Definition closer_at (pc : closer_pc) : prog unit :=
  match pc with
  | CStart => Close
  | CStore =>
      store (with_open false) ;; c <- load entries ;; chan_send c None ;; close_targets
  | CEntries => c <- load entries ;; chan_send c None ;; close_targets
  | COffer c => chan_send c None ;; close_targets
  | CAwait c ticket => chan_await c ticket ;; close_targets
  | CDone => Ret tt
  end.

Definition before_offer (c : nat) (pc : closer_pc) : Prop :=
  match pc with
  | COffer c' => c' = Some c
  | CAwait _ _ => False
  | _ => True
  end.

(** A run of calls to [Process]. *)
Definition is_process (ev : event) : bool :=
  match ev with
  | TargetProcess _ _ => true
  | _ => false
  end.

(** The invariant of [Close] running beside the dispatcher on an
    unbuffered channel: either everything owed and queued at the start
    ([goal]) has been passed to the targets, or the closing goroutine
    has not got past its send. *)
Definition closing (ts : list Target) (c : nat) (before goal : list event)
    (cfg : config) : Prop :=
  exists cpc dpc ch emitted,
    cdown cfg = None
    /\ cthreads cfg = [closer_at cpc; dispatcher_at dpc]
    /\ reads_from c dpc
    /\ entries (core (cworld cfg)) = Some c
    /\ nth_error (heap (cworld cfg)) c = Some ch
    /\ CCap ch = 0
    /\ Targets (core (cworld cfg)) = ts
    /\ trace (cworld cfg) = before ++ emitted
    /\ match cpc with
       | CAwait c' ticket =>
           c' = Some c /\ CBuf ch = [None] /\ ticket = CTaken ch
           /\ emitted ++ owed ts dpc = goal
       | _ =>
           before_offer c cpc
           /\ exists q, CBuf ch = map Some q
                        /\ emitted ++ owed ts dpc ++ rounds ts q = goal
       end.

Definition close_inv (ts : list Target) (c : nat) (before goal : list event)
    (cfg : config) : Prop :=
  Forall (frames grows) (cthreads cfg)
  /\ (flushed before goal cfg \/ closing ts c before goal cfg).

(** *** A logging call beside the dispatcher *)

(** The branch of [newEntry] that counts the entry and sends it. *)
Definition async_send (e : Entry) : prog unit :=
  store (fun c => with_goroutines (goroutines c + 1) c) ;;
  c <- load entries ;;
  chan_send c (Some e).

(** The places of the caller in that branch. *)
Inductive sender_pc :=
| SCount
| SEntries
| SOffer (c : option nat)
| SAwait (c : option nat) (ticket : nat)
| SDone.

Definition sender_at (e : Entry) (pc : sender_pc) : prog unit :=
  match pc with
  | SCount => async_send e
  | SEntries => c <- load entries ;; chan_send c (Some e)
  | SOffer c => chan_send c (Some e)
  | SAwait c ticket => chan_await c ticket
  | SDone => Ret tt
  end.

Definition sends_on (c : nat) (pc : sender_pc) : Prop :=
  match pc with
  | SOffer c' => c' = Some c
  | SAwait c' _ => c' = Some c
  | _ => True
  end.

(** What the caller has added to the queue at a place. *)
Definition handed (ts : list Target) (e : Entry) (pc : sender_pc) : list event :=
  match pc with
  | SAwait _ _ => round ts (Some e)
  | SDone => round ts (Some e)
  | _ => []
  end.

(** The count the caller has added before its entry is placed. *)
Definition pending (pc : sender_pc) : Z :=
  match pc with
  | SEntries => 1
  | SOffer _ => 1
  | _ => 0
  end.

(** The dispatcher serving channel [c]: what it has passed to the
    targets so far ([passed]), what it owes them and what is queued make
    up [goal], in this order; and the count is [slack] above the number
    of entries queued or in the dispatcher's hand. *)
Definition serving (ts : list Target) (c : nat) (passed goal : list event)
    (slack : Z) (w : world) (dpc : dispatcher_pc) : Prop :=
  exists ch q,
    reads_from c dpc
    /\ entries (core w) = Some c
    /\ nth_error (heap w) c = Some ch
    /\ CBuf ch = map Some q
    /\ Targets (core w) = ts
    /\ passed ++ owed ts dpc ++ rounds ts q = goal
    /\ goroutines (core w) = slack + Z.of_nat (in_hand dpc + List.length q).

(** The dispatcher and the send leave the settings, the clock and the
    call stack of the caller as they are. *)
Definition same_settings (w0 w : world) : Prop :=
  wallclock w = wallclock w0
  /\ callers w = callers w0
  /\ exists g, core w = with_goroutines g (core w0).

(** A goroutine that only reads, in worlds that satisfy [I], until its
    program satisfies [Q]. *)
Fixpoint reading (I : world -> Prop) (Q : prog unit -> Prop) (p : prog unit) : Prop :=
  Q p \/
  match p with
  | Act f k => forall w, I w -> exists b, f w = Some (b, w) /\ reading I Q (k b)
  | _ => False
  end.

(** The entries a call at [level] with [message] may build from [w0]
    while the dispatcher changes the count. *)
Definition builds (l : Logger) (level : Level) (message : string) (w0 : world)
    (e : Entry) : Prop :=
  exists g,
    e = built_entry l level message (set_core (with_goroutines g) w0).

Definition about_to_send (l : Logger) (level : Level) (message : string) (w0 : world)
    (p : prog unit) : Prop :=
  exists e, builds l level message w0 e /\ p = async_send e.

(** The invariant of an asynchronous call below Fatal beside the
    dispatcher. *)
Definition logging (l : Logger) (level : Level) (message : string) (w0 : world)
    (ts : list Target) (c : nat) (goal : list event) (slack : Z)
    (cfg : config) : Prop :=
  cdown cfg = None
  /\ same_settings w0 (cworld cfg)
  /\ exists p dpc passed,
       cthreads cfg = [p; dispatcher_at dpc]
       /\ trace (cworld cfg) = trace w0 ++ passed
       /\ (reading (same_settings w0) (about_to_send l level message w0) p
           /\ serving ts c passed goal slack (cworld cfg) dpc
           \/ exists e spc,
                builds l level message w0 e
                /\ p = sender_at e spc
                /\ sends_on c spc
                /\ serving ts c passed (goal ++ handed ts e spc)
                     (slack + pending spc) (cworld cfg) dpc).

(** *** A Fatal call beside the dispatcher *)



(** The places of the caller in [newFatalEntry] once the entry is
    built: the first pass, the send, the final loop. *)
Inductive fatal_pc :=
| FTargets
| FEach (rem : list Target)
| FSend (spc : sender_pc)
| FWait (wpc : waiter_pc).



(** What the caller has passed to the targets itself ([mine]) and what
    the dispatcher is to pass them, at a place. *)
Definition fatal_phase (ts : list Target) (c : nat) (goal : list event) (slack : Z)
    (e : Entry) (pc : fatal_pc) (mine passed : list event) (w : world)
    (dpc : dispatcher_pc) : Prop :=
  match pc with
  | FTargets => mine = [] /\ serving ts c passed goal slack w dpc
  | FEach rem =>
      mine ++ round rem (Some e) = round ts (Some e)
      /\ serving ts c passed goal slack w dpc
  | FSend spc =>
      spc <> SDone /\ sends_on c spc /\ mine = round ts (Some e)
      /\ serving ts c passed (goal ++ handed ts e spc) (slack + pending spc) w dpc
  | FWait _ =>
      mine = round ts (Some e)
      /\ serving ts c passed (goal ++ round ts (Some e)) slack w dpc
  end.




(** *** Dispatchers after a change of channel *)



(** *** Scenarios *)

(** Operands that are strings: [fmt.Sprint] concatenates them. *)
Definition demo_Sprint (a : list string) : string := String.concat "" a.
(** A clock reading printed as a number. *)
Definition demo_Time_Format (t : Z) (layout : string) : string := itoa t.

Definition console : Target := mkTarget "console" None.
Definition mem : Target := mkTarget "mem" None.

Definition demo_logger : Logger := mkLogger "app" (NormalFormatter demo_Time_Format).

Definition info_entry (message : string) : Entry :=
  mkEntry LevelInfo "app" message 0 "" ("0|Info|app|" ++ message)%string.
Definition fatal_entry (message : string) : Entry :=
  mkEntry LevelFatal "app" message 0 "" ("0|Fatal|app|" ++ message)%string.
Definition forced_entry : Entry :=
  mkEntry LevelWarn "app" "Forced to exit." 0 "" "0|Warn|app|Forced to exit.".

(** Two changes of target, two entries, then a Fatal entry with the Exit
    action. *)
Definition fatal_scenario : prog unit :=
  l <- NewLogger demo_Time_Format console [] ;;
  SetTarget [mem] ;;
  SetTarget [mem] ;;
  Info string demo_Sprint l ["a"] ;;
  Info string demo_Sprint l ["b"] ;;
  SetFatalAction ActionExit ;;
  Fatal string demo_Sprint l ["c"].

(** Goroutine 0 is the caller; goroutines 1, 2 and 3 are the dispatchers
    of the three [Open] calls.  Each dispatcher reaches its receive as
    soon as it is started and handles the nil entry of the [Close] that
    follows; the third handles the first queued entry and no more. *)
Definition fatal_schedule : list nat :=
  repeat 0%nat 17 (* NewLogger *)
  ++ repeat 1%nat 2 (* dispatcher 1 waits on channel 0 *)
  ++ repeat 0%nat 23 (* SetTarget: Close, Open *)
  ++ repeat 1%nat 4 (* dispatcher 1 handles nil, goroutines = -1 *)
  ++ repeat 2%nat 2 (* dispatcher 2 waits on channel 1 *)
  ++ repeat 0%nat 23 (* SetTarget: Close, Open *)
  ++ repeat 2%nat 4 (* dispatcher 2 handles nil, goroutines = -2 *)
  ++ repeat 3%nat 2 (* dispatcher 3 waits on channel 2 *)
  ++ repeat 0%nat 38 (* Info a, Info b, Fatal c up to the first sleep *)
  ++ repeat 3%nat 4 (* dispatcher 3 handles a, goroutines = 0 *)
  ++ repeat 0%nat 9 (* the caller wakes, sees 0, exits *).

(** An entry, then [Close], with the dispatcher scheduled afterwards. *)
Definition close_scenario : prog unit :=
  l <- NewLogger demo_Time_Format console [] ;;
  Info string demo_Sprint l ["a"] ;;
  Close.

Definition close_schedule : list nat :=
  repeat 0%nat 34 (* NewLogger, Info a, Close *)
  ++ repeat 1%nat 12 (* the dispatcher handles a and nil *).

(** What is reported of a process. *)
Definition report (c : option config) :
    option (option crash * list event * list (list (option Entry))) :=
  option_map (fun c => (cdown c, trace (cworld c), map CBuf (heap (cworld c)))) c.

(** An open engine in sync mode with one target, and one with a
    buffered channel. *)
Definition sync_world : world :=
  mkWorld (mkCore false true (Some 0%nat) 0 ActionNothing (Some Stderr) 1024 0 ""
             LevelDebug [mem] true)
    [mkChan 1024 [] 0] 0
    [mkFrame "log/logger.go" 475; mkFrame "log/logger.go" 349;
     mkFrame "log/logger.go" 317; mkFrame "log/logger.go" 311;
     mkFrame "log/logger.go" 276; mkFrame "app/main.go" 12] [].

Definition async_world : world :=
  mkWorld (mkCore false true (Some 0%nat) 1 ActionNothing (Some Stderr) 1024 0 ""
             LevelDebug [mem] false)
    [mkChan 1024 [Some (info_entry "a")] 0] 0 [] [].

(** The dispatcher handles the queued entry, then the caller's loop
    returns. *)
Definition flush_schedule : list nat := repeat 1%nat 6 ++ repeat 0%nat 3.

Definition flush_start : config :=
  mkConfig async_world [fatal_wait demo_logger; dispatcher_at DLoop] None.

Definition flush_final : config :=
  match run flush_schedule flush_start with
  | Some cfg => cfg
  | None => flush_start
  end.

Definition demo_stack : string :=
  (newline ++ "log/logger.go:311" ++ newline ++ "log/logger.go:276"
   ++ newline ++ "app/main.go:12")%string.

Definition stack_entry : Entry :=
  mkEntry LevelFatal "app" "x" 0 demo_stack ("0|Fatal|app|x" ++ demo_stack)%string.

(** An open engine whose buffer size has been set to -1. *)
Definition negative_buffer_world : world :=
  mkWorld (mkCore false true (Some 0%nat) 0 ActionNothing (Some Stderr) (-1) 0 ""
             LevelDebug [mem] true)
    [mkChan 1024 [] 0] 0 [] [].


(** An open engine whose channel is unbuffered, with one entry waiting
    to be received. *)
Definition unbuffered_world : world :=
  mkWorld (mkCore false true (Some 0%nat) 1 ActionNothing (Some Stderr) 0 0 ""
             LevelDebug [mem] false)
    [mkChan 0 [Some (info_entry "a")] 0] 0 [] [].

(** The dispatcher handles the entry, [Close] sends the nil entry, the
    dispatcher receives it, and [Close] closes the target. *)
Definition wait_schedule : list nat :=
  repeat 1%nat 6 ++ repeat 0%nat 4 ++ repeat 1%nat 3 ++ repeat 0%nat 3.

Definition wait_start : config :=
  mkConfig unbuffered_world [Close; dispatcher_at DLoop] None.

Definition wait_final : config :=
  match run wait_schedule wait_start with
  | Some cfg => cfg
  | None => wait_start
  end.



(** An Info call runs to its end, then the dispatcher handles the entry
    that was queued before it. *)
Definition order_schedule : list nat := repeat 0%nat 10 ++ repeat 1%nat 6.

Definition order_start : config :=
  mkConfig async_world
    [Log string demo_Sprint demo_logger LevelInfo ["b"]; dispatcher_at DLoop] None.

Definition order_final : config :=
  match run order_schedule order_start with
  | Some cfg => cfg
  | None => order_start
  end.

Definition two_calls : list (Level * list string) :=
  [(LevelInfo, ["b"]); (LevelWarn, ["c"])].







(** * Properties *)

(** ** Running programs *)

Lemma also_spawned_nil : forall A (o : outcome A), also_spawned [] o = o.
Proof. intros A o; destruct o; reflexivity. Qed.

Lemma also_spawned_app : forall A (o : outcome A) sp sp',
  also_spawned sp (also_spawned sp' o) = also_spawned (sp ++ sp') o.
Proof. intros A o sp sp'; destruct o; simpl; rewrite ?app_assoc; reflexivity. Qed.

Lemma and_then_spawned : forall A B (o : outcome A) (f : A -> world -> outcome B) sp,
  and_then (also_spawned sp o) f = also_spawned sp (and_then o f).
Proof.
  intros A B o f sp; destruct o; simpl; try reflexivity.
  now rewrite also_spawned_app.
Qed.

Lemma and_then_ext : forall A B (o : outcome A) (f g : A -> world -> outcome B),
  (forall a w, f a w = g a w) -> and_then o f = and_then o g.
Proof. intros A B o f g H; destruct o; simpl; now rewrite ?H. Qed.

Lemma loop_rounds_then : forall A B (rb : world -> outcome bool)
    (rk : world -> outcome A) (rk' : world -> outcome B) (f : A -> world -> outcome B),
  (forall w, rk' w = and_then (rk w) f) ->
  forall n w sp,
    loop_rounds rb rk' n w sp = and_then (loop_rounds rb rk n w sp) f.
Proof.
  intros A B rb rk rk' f Hk n; induction n as [|n IH]; intros w sp; simpl.
  - reflexivity.
  - destruct (rb w) as [again w' sp'| | |]; try reflexivity.
    destruct again.
    + apply IH.
    + now rewrite Hk, and_then_spawned.
Qed.

Lemma exec_bind : forall fuel A (p : prog A) B (g : A -> prog B) w,
  exec fuel (bind p g) w = and_then (exec fuel p w) (fun a w' => exec fuel (g a) w').
Proof.
  intros fuel A p; induction p as [A a|A X f k IH|A body _ k IH|A q _ k IH|A d k IH|A msg|A code];
    intros B g w; simpl.
  - now rewrite also_spawned_nil.
  - destruct (f w) as [[b w']|]; [apply IH | reflexivity].
  - apply loop_rounds_then. intros w'; apply IH.
  - now rewrite IH, and_then_spawned.
  - reflexivity.
  - reflexivity.
  - reflexivity.
Qed.

(** ** [exec] and the steps *)

Lemma bind_assoc : forall A (p : prog A) B C (f : A -> prog B) (g : B -> prog C),
  bind (bind p f) g = bind p (fun x => bind (f x) g).
Proof.
  intros A p; induction p as [A a|A X h k IH|A body _ k IH|A q _ k IH|A d k IH|A msg|A code];
    intros B C f g; cbn [bind]; try reflexivity.
  - f_equal. apply functional_extensionality. intros b. apply IH.
  - now rewrite IH.
  - now rewrite IH.
  - now rewrite IH.
Qed.

Lemma step_bind : forall A (p : prog A) B (g : A -> prog B) w,
  step (bind p g) w =
  match step p w with
  | Finished a => step (g a) w
  | Stepped p' w' sp => Stepped (bind p' g) w' sp
  | Blocked => Blocked
  | Halted c => Halted c
  end.
Proof.
  intros A p B g w. destruct p; cbn [bind step]; try reflexivity.
  - destruct (f w) as [[b w']|]; reflexivity.
  - rewrite bind_assoc. f_equal. f_equal.
    apply functional_extensionality. intros []; reflexivity.
Qed.

Lemma solo_app : forall n m A (p : prog A) w sp,
  solo (n + m) p w sp =
  let '(p', w', sp') := solo n p w sp in solo m p' w' sp'.
Proof.
  induction n as [|n IH]; intros m A p w sp; [reflexivity|].
  cbn [Nat.add solo]. destruct (step p w) as [a|p' w' sp'| |c] eqn:Hs.
  - destruct m; cbn [solo]; now rewrite ?Hs.
  - apply IH.
  - destruct m; cbn [solo]; now rewrite ?Hs.
  - destruct m; cbn [solo]; now rewrite ?Hs.
Qed.

Lemma solo_spawned : forall n A (p : prog A) w sp0 sp,
  solo n p w (sp0 ++ sp) =
  let '(p', w', sp') := solo n p w sp in (p', w', sp0 ++ sp').
Proof.
  induction n as [|n IH]; intros A p w sp0 sp; [reflexivity|].
  cbn [solo]. destruct (step p w) as [a|p' w' sp'| |c]; try reflexivity.
  rewrite <- app_assoc. apply IH.
Qed.

Lemma solo_bind : forall B n A (p : prog A) (g : A -> prog B) w sp,
  exists n', solo n' (bind p g) w sp =
             let '(p', w', sp') := solo n p w sp in (bind p' g, w', sp').
Proof.
  intros B n; induction n as [|n IH]; intros A p g w sp.
  - exists O. reflexivity.
  - cbn [solo]. destruct (step p w) as [a|p1 w1 sp1| |c] eqn:Hs;
      try (exists O; reflexivity).
    destruct (IH A p1 g w1 (sp ++ sp1)) as (n' & Hn').
    exists (S n'). cbn [solo]. rewrite step_bind, Hs. exact Hn'.
Qed.

Lemma stands_spawned : forall A (o : outcome A) p w sp sp0,
  stands o p w sp -> stands (also_spawned sp0 o) p w (sp0 ++ sp).
Proof.
  intros A o p w sp sp0. destruct o as [a w' sp'|[] w' sp'|c w' sp'|]; cbn;
    try (intros (H1 & H2 & H3); subst; auto); auto.
Qed.

Lemma reaches_from : forall A (o : outcome A) p w sp0,
  reaches o p w [] -> reaches (also_spawned sp0 o) p w sp0.
Proof.
  intros A o p w sp0 (n & H). exists n.
  pose proof (solo_spawned n A p w sp0 []) as Hs. rewrite app_nil_r in Hs.
  rewrite Hs. destruct (solo n p w []) as [[p' w'] sp'].
  now apply stands_spawned.
Qed.

Lemma reaches_step : forall A (o : outcome A) p w sp p1 w1 sp1,
  step p w = Stepped p1 w1 sp1 ->
  reaches o p1 w1 (sp ++ sp1) -> reaches o p w sp.
Proof.
  intros A o p w sp p1 w1 sp1 Hs (n & H). exists (S n). cbn [solo]. now rewrite Hs.
Qed.

Lemma reaches_bind : forall A B (o : outcome B) (p : prog A) (g : A -> prog B) w sp n,
  (let '(p', w', sp') := solo n p w sp in reaches o (bind p' g) w' sp') ->
  reaches o (bind p g) w sp.
Proof.
  intros A B o p g w sp n H.
  destruct (solo_bind B n A p g w sp) as (n' & Hn').
  destruct (solo n p w sp) as [[p' w'] sp'].
  destruct H as (m & Hm). exists (n' + m)%nat.
  rewrite solo_app, Hn'. exact Hm.
Qed.

Lemma loop_reaches : forall A fuel (body : prog bool) (k : prog A),
  (forall w, reaches (exec fuel body w) body w []) ->
  (forall w, reaches (exec fuel k w) k w []) ->
  forall n w sp,
    reaches (loop_rounds (exec fuel body) (exec fuel k) n w sp) (Loop body k) w sp.
Proof.
  intros A fuel body k Hb Hk n; induction n as [|n IH]; intros w sp.
  - exists O. exact I.
  - cbn [loop_rounds].
    eapply reaches_step; [reflexivity|]. rewrite app_nil_r.
    pose proof (reaches_from _ _ _ _ sp (Hb w)) as (m & Hm).
    apply (reaches_bind _ _ _ _ _ _ _ m).
    destruct (solo m body w sp) as [[pb wb] spb].
    destruct (exec fuel body w) as [again w1 sp1|[] w1 sp1|c w1 sp1|]; cbn in Hm.
    + destruct Hm as (-> & -> & ->). cbn [bind]. destruct again.
      * apply IH.
      * apply reaches_from. apply Hk.
    + destruct Hm as (Hs & -> & ->). exists O. cbn. rewrite step_bind, Hs. auto.
    + destruct Hm as ((d & k' & ->) & -> & ->). exists O. cbn. eauto.
    + destruct Hm as (Hs & -> & ->). exists O. cbn. rewrite step_bind, Hs. auto.
    + exists O. exact I.
Qed.

(** [exec] summarises the steps of the goroutine: whatever it answers is
    where the goroutine stands after some number of steps on its own. *)
Theorem exec_steps : forall fuel A (p : prog A) w,
  reaches (exec fuel p w) p w [].
Proof.
  intros fuel A p;
    induction p as [A a|A X f k IH|A body IHb k IH|A q _ k IH|A d k IH|A msg|A code];
    intros w; cbn [exec].
  - exists O. cbn. auto.
  - destruct (f w) as [[b w']|] eqn:Hf.
    + eapply reaches_step; [cbn [step]; rewrite Hf; reflexivity|]. apply IH.
    + exists O. cbn. rewrite Hf. auto.
  - apply loop_reaches; assumption.
  - eapply reaches_step; [reflexivity|]. apply (reaches_from _ _ _ _ [q] (IH w)).
  - exists O. cbn. eauto.
  - exists O. cbn. auto.
  - exists O. cbn. auto.
Qed.

(** ** Events *)

Lemma emit_emit : forall evs evs' w, emit evs' (emit evs w) = emit (evs ++ evs') w.
Proof. intros; unfold emit; simpl; now rewrite app_assoc. Qed.

Lemma emit_nil : forall w, emit [] w = w.
Proof. intros [c h t r tr]; unfold emit; simpl; now rewrite app_nil_r. Qed.

Lemma exec_forEach_call : forall fuel A (xs : list A) (ev : A -> event) w,
  exec fuel (forEach xs (fun x => call (ev x))) w = Done tt (emit (map ev xs) w) [].
Proof.
  intros fuel A xs ev; induction xs as [|x xs IH]; intros w; simpl.
  - now rewrite emit_nil.
  - rewrite IH. now rewrite emit_emit.
Qed.

Lemma exec_syncProcess : forall fuel e w,
  exec fuel (syncProcess (Some e)) w = Done tt (after_sync e w) [].
Proof.
  intros; unfold syncProcess, target_Process.
  simpl. apply (exec_forEach_call fuel Target (Targets (core w))
                  (fun t => TargetProcess t (Some e)) w).
Qed.

Lemma exec_fatal_wait : forall fuel l w,
  exec (S fuel) (fatal_wait l) w = fatal_action l w.
Proof.
  intros fuel l w; unfold fatal_wait, fatal_action. simpl.
  destruct (goroutines (core w) <=? 0); simpl; [|reflexivity].
  destruct (fatalAction (core w) =? ActionPanic); simpl; [reflexivity|].
  destruct (fatalAction (core w) =? ActionExit); simpl; [|reflexivity].
  rewrite exec_bind. unfold target_Process.
  rewrite exec_forEach_call. reflexivity.
Qed.

(** ** The call stack *)

Lemma GetCallStack_loop_frames : forall rest count frames filter buf,
  GetCallStack_loop rest count frames filter buf =
  fold_left (fun b f => (b ++ render_frame f)%string)
    (firstn (Z.to_nat (frames - count)) (List.filter (accepted filter) rest)) buf.
Proof.
  induction rest as [|f rest IH]; intros count frames filter buf; simpl.
  - rewrite firstn_nil. simpl. now destruct (count <? frames).
  - destruct (count <? frames) eqn:Hlt.
    + apply Z.ltb_lt in Hlt. destruct (accepted filter f).
      * rewrite IH.
        replace (Z.to_nat (frames - count)) with (S (Z.to_nat (frames - (count + 1)))) by lia.
        reflexivity.
      * apply IH.
    + apply Z.ltb_ge in Hlt.
      replace (Z.to_nat (frames - count)) with O by lia. reflexivity.
Qed.

Lemma GetCallStack_frames : forall rt skip frames filter,
  GetCallStack rt skip frames filter =
  render_frames (firstn (Z.to_nat frames)
                   (List.filter (accepted filter) (skipn (Z.to_nat skip) rt))).
Proof.
  intros; unfold GetCallStack, render_frames.
  rewrite GetCallStack_loop_frames. now rewrite Z.sub_0_r.
Qed.

(** ** Sending on the engine's channel *)

Lemma nth_error_update_same : forall A (l : list A) i x y,
  nth_error l i = Some y -> nth_error (update l i x) i = Some x.
Proof.
  induction l as [|h t IH]; intros [|i] x y H; simpl in *; try discriminate.
  - reflexivity.
  - eapply IH; eauto.
Qed.

Lemma exec_chan_send : forall fuel w c ch v,
  nth_error (heap w) c = Some ch ->
  exec fuel (chan_send (Some c) v) w =
  if chan_room ch
  then if 0 <? CCap ch
       then Done tt (placed c ch v w) []
       else Parked AtAction (placed c ch v w) []
  else Parked AtAction w [].
Proof.
  intros fuel w c ch v Hc. unfold chan_send, chan_offer, chan_await. simpl.
  rewrite Hc. destruct (chan_room ch); [|reflexivity]. simpl.
  rewrite (nth_error_update_same _ _ _ _ _ Hc). simpl.
  destruct (0 <? CCap ch); simpl; [reflexivity|].
  replace (CTaken ch + List.length (CBuf ch) <? CTaken ch)%nat with false.
  - reflexivity.
  - symmetry. apply Nat.ltb_ge. lia.
Qed.

Lemma exec_send_current : forall fuel v w,
  exec fuel (chan_send (entries (core w)) v) w = sent v w.
Proof.
  intros fuel v w. unfold sent, current_chan.
  destruct (entries (core w)) as [c|]; [|reflexivity].
  destruct (nth_error (heap w) c) as [ch|] eqn:Hc.
  - now apply exec_chan_send.
  - unfold chan_send, chan_offer. simpl. now rewrite Hc.
Qed.

Lemma exec_send_entries : forall fuel v w,
  exec fuel (c <- load entries ;; chan_send c v) w = sent v w.
Proof. intros fuel v w. apply (exec_send_current fuel v w). Qed.

(** ** What [newEntry] does on its own *)

Lemma built_stack_plain : forall w level,
  level <> LevelFatal ->
  (if 0 <? CallStackDepth (core w)
   then GetCallStack (callers w) 3 (CallStackDepth (core w)) (CallStackFilter (core w))
   else "") = render_frames (captured_frames w level).
Proof.
  intros w level Hl. unfold captured_frames, stack_bound.
  destruct (Z.eqb_spec level LevelFatal) as [E|_]; [contradiction|].
  destruct (0 <? CallStackDepth (core w)) eqn:Hd.
  - now rewrite GetCallStack_frames.
  - apply Z.ltb_ge in Hd.
    replace (Z.to_nat (CallStackDepth (core w))) with O by lia. reflexivity.
Qed.

Lemma built_stack_fatal : forall w,
  GetCallStack (callers w) 3
    (if CallStackDepth (core w) =? 0 then 20 else CallStackDepth (core w))
    (CallStackFilter (core w)) = render_frames (captured_frames w LevelFatal).
Proof. intros w. now rewrite GetCallStack_frames. Qed.

(** In sync mode the entry is processed before the call returns. *)
Lemma exec_newEntry_sync : forall fuel l level message w,
  level <> LevelFatal ->
  SyncMode (core w) = true ->
  exec fuel (newEntry l level message) w =
  Done tt (after_sync (built_entry l level message w) w) [].
Proof.
  intros fuel l level message w Hl Hs. unfold newEntry.
  destruct (Z.eqb_spec level LevelFatal) as [E|_]; [contradiction|].
  unfold built_entry. rewrite <- (built_stack_plain w level Hl).
  simpl. destruct (0 <? CallStackDepth (core w)); simpl; rewrite Hs;
    apply exec_syncProcess.
Qed.

(** Otherwise it is counted and sent: the call returns once the entry is
    in a buffered channel, and stays at the send where the channel is
    unbuffered, full or missing. *)
Lemma exec_newEntry_async : forall fuel l level message w,
  level <> LevelFatal ->
  SyncMode (core w) = false ->
  exec fuel (newEntry l level message) w =
  sent (Some (built_entry l level message w)) (counted w).
Proof.
  intros fuel l level message w Hl Hs. unfold newEntry.
  destruct (Z.eqb_spec level LevelFatal) as [E|_]; [contradiction|].
  unfold built_entry. rewrite <- (built_stack_plain w level Hl).
  rewrite <- (exec_send_entries fuel).
  simpl. destruct (0 <? CallStackDepth (core w)); simpl; rewrite Hs; reflexivity.
Qed.

(** ** What a Fatal entry does on its own *)

Lemma exec_newEntry_fatal_sync : forall fuel l message w,
  SyncMode (core w) = true ->
  let e := built_entry l LevelFatal message w in
  exec (S fuel) (newEntry l LevelFatal message) w =
  fatal_action l (after_sync e (after_sync e w)).
Proof.
  intros fuel l message w Hs e. subst e. unfold built_entry.
  rewrite <- (built_stack_fatal w).
  unfold newEntry. change (LevelFatal =? LevelFatal) with true.
  unfold newFatalEntry.
  cbn [exec bind load time_Now runtime_Callers].
  rewrite exec_bind, exec_syncProcess. cbn [and_then also_spawned app].
  rewrite also_spawned_nil.
  cbn [exec bind load]. cbn [after_sync emit core]. rewrite Hs.
  rewrite exec_bind, exec_syncProcess. cbn [and_then also_spawned app].
  rewrite also_spawned_nil. apply exec_fatal_wait.
Qed.

Lemma exec_newEntry_fatal_async : forall fuel l message w,
  SyncMode (core w) = false ->
  let e := built_entry l LevelFatal message w in
  exec (S fuel) (newEntry l LevelFatal message) w =
  and_then (sent (Some e) (counted (after_sync e w)))
    (fun _ w' => fatal_action l w').
Proof.
  intros fuel l message w Hs e. subst e. unfold built_entry.
  rewrite <- (built_stack_fatal w).
  unfold newEntry. change (LevelFatal =? LevelFatal) with true.
  unfold newFatalEntry.
  cbn [exec bind load time_Now runtime_Callers].
  rewrite exec_bind, exec_syncProcess. cbn [and_then also_spawned app].
  rewrite also_spawned_nil.
  cbn [exec bind load]. cbn [after_sync emit core]. rewrite Hs.
  rewrite exec_bind.
  rewrite <- (exec_send_entries (S fuel)).
  cbn [exec bind load store].
  apply and_then_ext. intros [] w'. apply exec_fatal_wait.
Qed.

(** ** The dispatcher *)

Lemma exec_process : forall fuel w, exec fuel process w = drain fuel w.
Proof.
  intros fuel w. unfold process. cbn [exec].
  assert (H : forall n w sp,
    loop_rounds
      (exec fuel
         (c <- load entries ;;
          entry <- chan_recv c ;;
          ts <- load Targets ;;
          forEach ts (fun target => target_Process target entry) ;;
          store (fun c => with_goroutines (goroutines c - 1) c) ;;
          match entry with
          | None => Ret false
          | Some _ => Ret true
          end))
      (exec fuel (Ret tt)) n w sp = also_spawned sp (drain n w)).
  { clear w. induction n as [|n IH]; intros w sp; [reflexivity|].
    cbn [loop_rounds drain].
    cbn [exec bind load chan_recv]. unfold handled, current_chan.
    destruct (entries (core w)) as [c|]; [|reflexivity].
    destruct (nth_error (heap w) c) as [ch|]; [|reflexivity].
    destruct (CBuf ch) as [|v rest]; [reflexivity|].
    cbn [exec bind load]. rewrite exec_bind. unfold target_Process.
    rewrite exec_forEach_call. cbn [and_then also_spawned app exec bind store].
    destruct v as [e|]; cbn [exec also_spawned app].
    - rewrite app_nil_r. apply IH.
    - now rewrite !app_nil_r. }
  rewrite H. apply also_spawned_nil.
Qed.

Lemma handled_next : forall w c ch v rest,
  current_chan w = Some (c, ch) ->
  CBuf ch = v :: rest ->
  exists w',
    handled w = Some (v, w')
    /\ current_chan w' = Some (c, mkChan (CCap ch) rest (S (CTaken ch)))
    /\ Targets (core w') = Targets (core w)
    /\ trace w' = trace w ++ round (Targets (core w)) v
    /\ goroutines (core w') = goroutines (core w) - 1.
Proof.
  intros w c ch v rest Hc Hb. unfold handled. rewrite Hc, Hb.
  eexists; split; [reflexivity|].
  unfold current_chan in *. simpl.
  destruct (entries (core w)) as [c'|]; [|discriminate].
  destruct (nth_error (heap w) c') as [ch'|] eqn:Hn; [|discriminate].
  injection Hc as -> ->.
  rewrite (nth_error_update_same _ _ _ _ _ Hn). auto.
Qed.

(** The dispatcher hands the queued entries to every target in the order
    of the queue and takes one off the count for each. *)
Lemma drain_entries : forall es n w c ch,
  current_chan w = Some (c, ch) ->
  CBuf ch = map Some es ->
  (List.length es < n)%nat ->
  exists w',
    drain n w = Parked AtAction w' []
    /\ trace w' = trace w ++ rounds (Targets (core w)) es
    /\ goroutines (core w') = goroutines (core w) - Z.of_nat (List.length es)
    /\ Targets (core w') = Targets (core w).
Proof.
  induction es as [|e es IH]; intros n w c ch Hc Hb Hn.
  - destruct n as [|n]; [simpl in Hn; lia|].
    exists w. simpl. unfold handled. rewrite Hc, Hb. simpl.
    rewrite app_nil_r, Z.sub_0_r. auto.
  - destruct n as [|n]; [simpl in Hn; lia|].
    destruct (handled_next w c ch (Some e) (map Some es) Hc Hb)
      as (w1 & Hh & Hc1 & Ht1 & Htr1 & Hg1).
    destruct (IH n w1 c _ Hc1 eq_refl) as (w' & Hd & Htr & Hg & Ht).
    { simpl in Hn. lia. }
    exists w'. cbn [drain]. rewrite Hh. split; [exact Hd|].
    rewrite Htr, Htr1, Hg, Hg1, Ht, Ht1. unfold rounds. simpl.
    rewrite <- app_assoc. repeat split; try reflexivity.
    lia.
Qed.

(** The nil entry ends the dispatcher: it is passed to every target like
    an entry, and one is taken off the count for it as well. *)
Lemma drain_sentinel : forall es n w c ch rest,
  current_chan w = Some (c, ch) ->
  CBuf ch = map Some es ++ None :: rest ->
  (List.length es < n)%nat ->
  exists w',
    drain n w = Done tt w' []
    /\ trace w' = trace w ++ rounds (Targets (core w)) es
                  ++ round (Targets (core w)) None
    /\ goroutines (core w') = goroutines (core w) - Z.of_nat (List.length es) - 1
    /\ Targets (core w') = Targets (core w).
Proof.
  induction es as [|e es IH]; intros n w c ch rest Hc Hb Hn.
  - destruct n as [|n]; [simpl in Hn; lia|].
    destruct (handled_next w c ch None rest Hc Hb)
      as (w1 & Hh & Hc1 & Ht1 & Htr1 & Hg1).
    exists w1. cbn [drain]. rewrite Hh. simpl. rewrite Z.sub_0_r. auto.
  - destruct n as [|n]; [simpl in Hn; lia|].
    destruct (handled_next w c ch (Some e) (map Some es ++ None :: rest) Hc Hb)
      as (w1 & Hh & Hc1 & Ht1 & Htr1 & Hg1).
    destruct (IH n w1 c _ rest Hc1 eq_refl) as (w' & Hd & Htr & Hg & Ht).
    { simpl in Hn. lia. }
    exists w'. cbn [drain]. rewrite Hh. split; [exact Hd|].
    rewrite Htr, Htr1, Hg, Hg1, Ht, Ht1. unfold rounds. simpl.
    rewrite <- !app_assoc. repeat split; try reflexivity.
    lia.
Qed.

(** Beside the claims: the dispatcher passes the queued entries to every
    target in the order of the queue and takes one off the count for
    each, then waits; on the nil entry it passes nil to every target,
    takes one more off the count and stops. *)
Theorem process_in_queue_order : forall (es : list Entry) fuel w c ch,
  current_chan w = Some (c, ch) ->
  (List.length es < fuel)%nat ->
  (CBuf ch = map Some es ->
   exists w',
     exec fuel process w = Parked AtAction w' []
     /\ trace w' = trace w ++ rounds (Targets (core w)) es
     /\ goroutines (core w') = goroutines (core w) - Z.of_nat (List.length es))
  /\ (forall rest, CBuf ch = map Some es ++ None :: rest ->
      exists w',
        exec fuel process w = Done tt w' []
        /\ trace w' = trace w ++ rounds (Targets (core w)) es
                      ++ round (Targets (core w)) None
        /\ goroutines (core w') =
           goroutines (core w) - Z.of_nat (List.length es) - 1).
Proof.
  intros es fuel w c ch Hc Hn. rewrite exec_process. split.
  - intros Hb. destruct (drain_entries es fuel w c ch Hc Hb Hn)
      as (w' & Hd & Ht & Hg & _). eauto.
  - intros rest Hb. destruct (drain_sentinel es fuel w c ch rest Hc Hb Hn)
      as (w' & Hd & Ht & Hg & _). eauto.
Qed.

(** ** What the dispatcher leaves alone *)

Lemma frames_bind : forall (R : world -> world -> Prop) A (p : prog A) B (g : A -> prog B),
  frames R p -> (forall a, frames R (g a)) -> frames R (bind p g).
Proof.
  intros R A p;
    induction p as [A a|A X f k IH|A body _ k IH|A q _ k IH|A d k IH|A msg|A code];
    intros B g Hp Hg; cbn [bind frames] in *; auto.
  - destruct Hp as [Hf Hk]. split; [exact Hf|]. intros b. now apply IH.
  - destruct Hp as [Hb Hk]. split; [exact Hb|]. now apply IH.
  - destruct Hp as [Hq Hk]. split; [exact Hq|]. now apply IH.
Qed.

Lemma frames_step : forall (R : world -> world -> Prop) A (p : prog A) w p' w' sp,
  (forall w, R w w) ->
  frames R p ->
  step p w = Stepped p' w' sp ->
  R w w' /\ frames R p' /\ Forall (frames R) sp.
Proof.
  intros R A p w p' w' sp Hrefl Hp Hs. destruct p; cbn [step frames] in *;
    try discriminate.
  - destruct Hp as [Hf Hk]. destruct (f w) as [[b w1]|] eqn:E; [|discriminate].
    injection Hs as <- <- <-. eauto.
  - destruct Hp as [Hb Hk]. injection Hs as <- <- <-.
    repeat split; auto. apply frames_bind; [exact Hb|].
    intros []; cbn; auto.
  - destruct Hp as [Hq Hk]. injection Hs as <- <- <-. auto.
  - injection Hs as <- <- <-. auto.
Qed.

Lemma frames_solo : forall (R : world -> world -> Prop) n A (p : prog A) w sp,
  (forall w, R w w) ->
  (forall w1 w2 w3, R w1 w2 -> R w2 w3 -> R w1 w3) ->
  frames R p ->
  let '(_, w', _) := solo n p w sp in R w w'.
Proof.
  intros R n; induction n as [|n IH]; intros A p w sp Hrefl Htrans Hp;
    cbn [solo]; [apply Hrefl|].
  destruct (step p w) as [a|p1 w1 sp1| |c] eqn:Hs; try apply Hrefl.
  destruct (frames_step R A p w p1 w1 sp1 Hrefl Hp Hs) as (H1 & Hp1 & _).
  specialize (IH A p1 w1 (sp ++ sp1) Hrefl Htrans Hp1).
  destruct (solo n p1 w1 (sp ++ sp1)) as [[p2 w2] sp2]. eauto.
Qed.

Lemma same_engine_refl : forall w, same_engine w w.
Proof. intros w; unfold same_engine; auto 10. Qed.

Lemma same_engine_trans : forall w1 w2 w3,
  same_engine w1 w2 -> same_engine w2 w3 -> same_engine w1 w3.
Proof.
  unfold same_engine. intros w1 w2 w3 H1 H2.
  destruct H1 as (a1 & b1 & c1 & d1 & e1 & f1).
  destruct H2 as (a2 & b2 & c2 & d2 & e2 & f2).
  repeat split; congruence.
Qed.

Lemma frames_forEach_call : forall (R : world -> world -> Prop) A (xs : list A)
    (ev : A -> event),
  (forall w e, R w (emit [e] w)) ->
  frames R (forEach xs (fun x => call (ev x))).
Proof.
  intros R A xs ev HR. induction xs as [|x xs IH]; cbn; auto.
  split; [|intros _; exact IH].
  intros w [] w' H. injection H as <-. apply HR.
Qed.

(** ** The places of the dispatcher and of the waiting caller *)

Lemma step_DLoop : forall w,
  step (dispatcher_at DLoop) w = Stepped (dispatcher_at DEntries) w [].
Proof. reflexivity. Qed.

Lemma step_DEntries : forall w,
  step (dispatcher_at DEntries) w =
  Stepped (dispatcher_at (DRecv (entries (core w)))) w [].
Proof. reflexivity. Qed.

Lemma step_DRecv : forall c w,
  step (dispatcher_at (DRecv (Some c))) w =
  match nth_error (heap w) c with
  | Some ch =>
      match CBuf ch with
      | [] => Blocked
      | v :: rest =>
          Stepped (dispatcher_at (DTargets v))
            (set_heap (update (heap w) c (mkChan (CCap ch) rest (S (CTaken ch)))) w) []
      end
  | None => Blocked
  end.
Proof.
  intros c w. cbn. destruct (nth_error (heap w) c) as [ch|]; [|reflexivity].
  destruct (CBuf ch); reflexivity.
Qed.

Lemma step_DTargets : forall v w,
  step (dispatcher_at (DTargets v)) w =
  Stepped (dispatcher_at (DEach v (Targets (core w)))) w [].
Proof. reflexivity. Qed.

Lemma step_DEach_cons : forall v t rem w,
  step (dispatcher_at (DEach v (t :: rem))) w =
  Stepped (dispatcher_at (DEach v rem)) (emit [TargetProcess t v] w) [].
Proof. reflexivity. Qed.

Lemma step_DEach_nil : forall v w,
  step (dispatcher_at (DEach v [])) w =
  Stepped (dispatcher_at (match v with
                          | Some _ => DLoop
                          | None => DEnd
                          end))
    (set_core (fun c => with_goroutines (goroutines c - 1) c) w) [].
Proof. intros [e|] w; reflexivity. Qed.

Lemma step_WLoop : forall l w,
  step (waiter_at l WLoop) w = Stepped (waiter_at l WCount) w [].
Proof. reflexivity. Qed.

Lemma step_WCount : forall l w,
  step (waiter_at l WCount) w =
  Stepped (if goroutines (core w) <=? 0
           then bind (fatal_act l) (waiter_again l)
           else waiter_at l WAgain) w [].
Proof. intros. cbn. destruct (goroutines (core w) <=? 0); reflexivity. Qed.

Lemma step_WAgain : forall l w,
  step (waiter_at l WAgain) w =
  Stepped (waiter_at l (WSleep (goroutines (core w)))) w [].
Proof. reflexivity. Qed.

Lemma step_WSleep : forall l g w,
  step (waiter_at l (WSleep g)) w = Stepped (waiter_at l WLoop) w [].
Proof. reflexivity. Qed.

Section Frames.

Variable R : world -> world -> Prop.
Hypothesis R_refl : forall w, R w w.
Hypothesis R_heap : forall w h, R w (set_heap h w).
Hypothesis R_emit : forall w e, R w (emit [e] w).
Hypothesis R_count : forall w,
  R w (set_core (fun c => with_goroutines (goroutines c - 1) c) w).

Lemma frames_load : forall A B (f : coreLogger -> A) (k : A -> prog B),
  (forall a, frames R (k a)) -> frames R (bind (load f) k).
Proof.
  intros A B f k Hk. cbn. split; [|exact Hk].
  intros w b w' H. injection H as <- <-. apply R_refl.
Qed.

Lemma frames_dispatcher_each : forall v rem, frames R (dispatcher_each v rem).
Proof.
  intros v rem. unfold dispatcher_each. apply frames_bind.
  - unfold target_Process. apply frames_forEach_call. exact R_emit.
  - intros _. cbn [frames bind store]. split.
    + intros w b w' H. inversion H. apply R_count.
    + intros _. destruct v; exact I.
Qed.

Lemma frames_after_recv : forall v,
  frames R (ts <- load Targets ;; dispatcher_each v ts).
Proof. intros v. apply frames_load. intros ts. apply frames_dispatcher_each. Qed.

Lemma frames_chan_recv : forall c,
  frames R (entry <- chan_recv c ;; ts <- load Targets ;; dispatcher_each entry ts).
Proof.
  intros c. unfold chan_recv. cbn [bind frames]. split.
  - intros w b w' H. destruct c as [c|]; [|discriminate].
    destruct (nth_error (heap w) c) as [ch|]; [|discriminate].
    destruct (CBuf ch); [discriminate|]. injection H as <- <-. apply R_heap.
  - intros v. apply (frames_after_recv v).
Qed.

Lemma frames_process : frames R process.
Proof.
  change (frames R (Loop (c <- load entries ;; entry <- chan_recv c ;;
                          ts <- load Targets ;; dispatcher_each entry ts) (Ret tt))).
  cbn [frames]. split; [|exact I].
  apply frames_load. intros c. apply frames_chan_recv.
Qed.

Lemma frames_dispatcher_at : forall pc, frames R (dispatcher_at pc).
Proof.
  assert (Hagain : forall b, frames R (dispatcher_again b)).
  { intros []; [apply frames_process|exact I]. }
  intros [| |c|v|v rem|]; cbn [dispatcher_at].
  - apply frames_process.
  - apply frames_bind; [|exact Hagain].
    apply frames_load. intros c. apply frames_chan_recv.
  - apply frames_bind; [|exact Hagain]. apply frames_chan_recv.
  - apply frames_bind; [|exact Hagain]. apply frames_after_recv.
  - apply frames_bind; [|exact Hagain]. apply frames_dispatcher_each.
  - exact I.
Qed.

Lemma frames_fatal_wait : forall l, frames R (fatal_wait l).
Proof.
  intros l.
  change (frames R (Loop (g <- load goroutines ;;
                          if g <=? 0 then fatal_act l
                          else g <- load goroutines ;; Sleep g (Ret true)) (Ret tt))).
  cbn [frames]. split; [|exact I].
  apply frames_load. intros g. destruct (g <=? 0).
  - unfold fatal_act. apply frames_load. intros a.
    destruct (a =? ActionPanic); [exact I|].
    destruct (a =? ActionExit); [|exact I].
    cbn [bind time_Now frames]. split.
    { intros w b w' H. injection H as <- <-. apply R_refl. }
    intros now. apply frames_load. intros formatted.
    apply frames_bind; [|intros; exact I].
    unfold syncProcess. apply frames_load. intros ts.
    unfold target_Process. apply frames_forEach_call. exact R_emit.
  - apply frames_load. intros g'. exact I.
Qed.

End Frames.

(** The dispatcher changes the count, the channel and the trace, and
    nothing else of the engine. *)
Lemma process_same_engine : frames same_engine process.
Proof.
  apply frames_process.
  - apply same_engine_refl.
  - intros w h. unfold same_engine; cbn; auto 10.
  - intros w e. unfold same_engine; cbn; auto 10.
  - intros w. unfold same_engine; cbn; auto 10.
Qed.

(** ** The final loop of a Fatal call drains *)

Lemma grows_refl : forall w, grows w w.
Proof. intros w. exists []. now rewrite app_nil_r. Qed.


Lemma Forall_update : forall A (P : A -> Prop) l i x,
  Forall P l -> P x -> Forall P (update l i x).
Proof.
  intros A P l; induction l as [|h t IH]; intros [|i] x Hl Hx; cbn; auto;
    inversion Hl; subst; constructor; auto.
Qed.

Lemma frames_sched_step : forall (R : world -> world -> Prop) i cfg cfg',
  (forall w, R w w) ->
  Forall (frames R) (cthreads cfg) ->
  sched_step i cfg = Some cfg' ->
  R (cworld cfg) (cworld cfg') /\ Forall (frames R) (cthreads cfg').
Proof.
  intros R i cfg cfg' Hrefl Hall Hs. unfold sched_step in Hs.
  destruct (cdown cfg); [discriminate|].
  destruct (nth_error (cthreads cfg) i) as [p|] eqn:Hn; [|discriminate].
  assert (Hp : frames R p).
  { apply nth_error_In in Hn. rewrite Forall_forall in Hall. now apply Hall. }
  destruct (step p (cworld cfg)) as [a|p' w' sp| |c] eqn:Hst; try discriminate.
  - injection Hs as <-. cbn.
    destruct (frames_step R unit p (cworld cfg) p' w' sp Hrefl Hp Hst) as (H1 & H2 & H3).
    split; [exact H1|]. apply Forall_app. split; [|exact H3].
    now apply Forall_update.
  - injection Hs as <-. cbn. auto.
Qed.

Lemma flush_inv_step : forall l ts c before goal i cfg cfg',
  flush_inv l ts c before goal cfg ->
  sched_step i cfg = Some cfg' ->
  flush_inv l ts c before goal cfg'.
Proof.
  intros l ts c before goal i cfg cfg' [Hall Hcase] Hs.
  destruct (frames_sched_step grows i cfg cfg' grows_refl Hall Hs) as [Hg Hall'].
  split; [exact Hall'|].
  destruct Hcase as [(rest & Ht)|Hw].
  { left. destruct Hg as (evs & He). exists (rest ++ evs).
    rewrite He, Ht, <- !app_assoc. reflexivity. }
  clear Hg Hall Hall'.
  destruct Hw as (wpc & dpc & ch & q & emitted & Hd & Hth & Hrf & Hen & Hch & Hq
                  & Hts & Hcnt & Htr & Hgoal).
  destruct cfg as [w threads down]. cbn [cdown cthreads cworld] in *.
  subst down threads. unfold sched_step in Hs. cbn [cdown cthreads cworld] in Hs.
  destruct i as [|[|i]]; cbn [nth_error] in Hs.
  - (* the caller moves *)
    destruct wpc.
    + rewrite step_WLoop in Hs. injection Hs as <-.
      right. exists WCount, dpc, ch, q, emitted. cbn. auto 20.
    + rewrite step_WCount in Hs. injection Hs as <-.
      destruct (Z.leb_spec (goroutines (core w)) 0) as [Hle|Hgt].
      * left. exists []. cbn [cworld]. rewrite Htr, app_nil_r. f_equal.
        rewrite <- Hgoal.
        assert (Hq0 : q = []) by (destruct q; [reflexivity|cbn in Hcnt; lia]).
        subst q. cbn [rounds flat_map]. rewrite app_nil_r.
        destruct dpc; cbn in Hcnt |- *; try now rewrite app_nil_r.
        all: lia.
      * right. exists WAgain, dpc, ch, q, emitted. cbn. auto 20.
    + rewrite step_WAgain in Hs. injection Hs as <-.
      right. exists (WSleep (goroutines (core w))), dpc, ch, q, emitted. cbn. auto 20.
    + rewrite step_WSleep in Hs. injection Hs as <-.
      right. exists WLoop, dpc, ch, q, emitted. cbn. auto 20.
  - (* the dispatcher moves *)
    destruct dpc as [| |c'|v|v rem|].
    + rewrite step_DLoop in Hs. injection Hs as <-.
      right. exists wpc, DEntries, ch, q, emitted. cbn. auto 20.
    + rewrite step_DEntries in Hs. injection Hs as <-.
      right. exists wpc, (DRecv (entries (core w))), ch, q, emitted. cbn. auto 20.
    + cbn in Hrf. subst c'. rewrite step_DRecv, Hch, Hq in Hs.
      destruct q as [|e q]; [discriminate|]. cbn [map] in Hs. injection Hs as <-.
      right. exists wpc, (DTargets (Some e)), (mkChan (CCap ch) (map Some q) (S (CTaken ch))),
               q, emitted.
      cbn [cdown cthreads cworld update app set_heap core heap trace].
      rewrite (nth_error_update_same _ _ _ _ _ Hch).
      cbn [CBuf in_hand owed]. repeat split; auto.
    + rewrite step_DTargets in Hs. injection Hs as <-.
      right. exists wpc, (DEach v (Targets (core w))), ch, q, emitted.
      cbn [cdown cthreads cworld update app in_hand owed]. rewrite Hts.
      repeat split; auto.
    + destruct rem as [|t rem].
      * rewrite step_DEach_nil in Hs. injection Hs as <-.
        right. exists wpc, (match v with Some _ => DLoop | None => DEnd end), ch, q, emitted.
        cbn [cdown cthreads cworld update app set_core core heap trace with_goroutines
             goroutines entries Targets].
        repeat split; auto.
        all: try (destruct v; exact I).
        all: try (cbn in Hcnt; destruct v; cbn; lia).
        all: try (rewrite <- Hgoal; destruct v; reflexivity).
      * rewrite step_DEach_cons in Hs. injection Hs as <-.
        right. exists wpc, (DEach v rem), ch, q, (emitted ++ [TargetProcess t v]).
        cbn [cdown cthreads cworld update app emit core heap trace in_hand owed].
        repeat split; auto.
        all: try (rewrite Htr; now rewrite app_assoc).
        all: try (rewrite <- Hgoal; cbn; now rewrite <- app_assoc).
    + discriminate.
  - destruct i; discriminate.
Qed.

Lemma flush_inv_run : forall l ts c before goal sched cfg cfg',
  flush_inv l ts c before goal cfg ->
  run sched cfg = Some cfg' ->
  flush_inv l ts c before goal cfg'.
Proof.
  intros l ts c before goal sched; induction sched as [|i sched IH];
    intros cfg cfg' Hinv Hrun; cbn [run] in Hrun.
  - injection Hrun as <-. exact Hinv.
  - destruct (sched_step i cfg) as [cfg1|] eqn:Hs; [|discriminate].
    eapply IH; [|exact Hrun]. eapply flush_inv_step; eauto.
Qed.



Lemma grows_heap : forall w h, grows w (set_heap h w).
Proof. intros w h. exists []. cbn. now rewrite app_nil_r. Qed.

Lemma grows_emit : forall w e, grows w (emit [e] w).
Proof. intros w e. exists [e]. reflexivity. Qed.

Lemma grows_count : forall w,
  grows w (set_core (fun c => with_goroutines (goroutines c - 1) c) w).
Proof. intros w. exists []. cbn. now rewrite app_nil_r. Qed.

(** Beside the claims: the final loop of a Fatal call does drain.  With
    the count at least the number of entries queued or in the
    dispatcher's hand, under every schedule of the caller's final loop
    and the dispatcher: once the process is down, or the loop has
    returned, the targets have been passed what the dispatcher still
    owed them and every queued entry, in order. *)
Theorem fatal_wait_flushes : forall l w c ch q dpc sched cfg,
  entries (core w) = Some c ->
  nth_error (heap w) c = Some ch ->
  CBuf ch = map Some q ->
  reads_from c dpc ->
  Z.of_nat (in_hand dpc + List.length q) <= goroutines (core w) ->
  run sched (mkConfig w [fatal_wait l; dispatcher_at dpc] None) = Some cfg ->
  cdown cfg <> None \/ nth_error (cthreads cfg) 0 = Some (Ret tt) ->
  exists rest,
    trace (cworld cfg) =
    trace w ++ owed (Targets (core w)) dpc ++ rounds (Targets (core w)) q ++ rest.
Proof.
  intros l w c ch q dpc sched cfg Hen Hch Hq Hrf Hcnt Hrun Hend.
  assert (Hinv : flush_inv l (Targets (core w)) c (trace w)
                   (owed (Targets (core w)) dpc ++ rounds (Targets (core w)) q)
                   (mkConfig w [fatal_wait l; dispatcher_at dpc] None)).
  { split.
    - constructor; [|constructor; [|constructor]].
      + apply frames_fatal_wait; auto using grows_refl, grows_emit.
      + apply frames_dispatcher_at;
          auto using grows_refl, grows_heap, grows_emit, grows_count.
    - right. exists WLoop, dpc, ch, q, []. cbn. rewrite app_nil_r. auto 20. }
  apply (flush_inv_run _ _ _ _ _ _ _ _ Hinv) in Hrun.
  destruct Hrun as [_ [(rest & Ht)|Hw]].
  - exists rest. rewrite Ht, <- app_assoc. reflexivity.
  - exfalso.
    destruct Hw as (wpc & dpc' & ch' & q' & emitted & Hd & Hth & _).
    destruct Hend as [Hdown|Hret]; [contradiction|].
    rewrite Hth in Hret. cbn in Hret. destruct wpc; discriminate.
Qed.

(** ** [Close] and [Open] *)

Lemma exec_Close : forall fuel w, exec fuel Close w = close_outcome w.
Proof.
  intros fuel w. unfold Close, close_outcome.
  cbn [exec bind load]. destruct (open (core w)); cbn [negb]; [|reflexivity].
  cbn [exec bind load store].
  change (exec fuel
            (chan_send (entries (core (set_core (with_open false) w))) None ;;
             ts <- load Targets ;; forEach ts target_Close)
            (set_core (with_open false) w)
          = and_then (sent None (set_core (with_open false) w))
              (fun _ w' => Done tt (emit (map TargetClose (Targets (core w'))) w') [])).
  rewrite exec_bind, exec_send_current. apply and_then_ext.
  intros _ w'. cbn [exec bind load]. unfold target_Close.
  apply exec_forEach_call.
Qed.

Lemma unlock_lock : forall w,
  lock (core w) = false ->
  set_core (with_lock false) (set_core (with_lock true) w) = w.
Proof.
  intros [[lk op en g fa ew bs d f m ts sm] h t r tr] H; simpl in H; subst.
  reflexivity.
Qed.

Lemma exec_Open_targets : forall fuel ew ts targets w,
  ErrorWriter (core w) = Some ew ->
  exec fuel (Open_targets ts targets) w =
  Done (targets ++ List.filter opens_ok ts) (emit (open_events ew ts) w) [].
Proof.
  intros fuel ew ts; induction ts as [|t ts IH]; intros targets w Hw.
  - simpl. now rewrite app_nil_r, emit_nil.
  - cbn [Open_targets exec bind load target_Open call]. rewrite Hw.
    unfold opens_ok at 1. cbn [open_events flat_map List.filter].
    destruct (TOpenError t) as [msg|].
    + cbn [exec bind load emit core]. rewrite Hw.
      cbn [fmt_Fprintf call bind exec].
      rewrite IH by exact Hw. rewrite !emit_emit. reflexivity.
    + rewrite IH by exact Hw. rewrite emit_emit, <- app_assoc. reflexivity.
Qed.

Lemma exec_Open : forall fuel w, exec fuel Open w = open_outcome w.
Proof.
  intros fuel w. unfold Open, open_outcome.
  cbn [exec bind mutex_Lock]. destruct (lock (core w)) eqn:Hl; [reflexivity|].
  cbn [exec bind load set_core core with_lock open].
  destruct (open (core w)) eqn:Ho.
  { cbn [exec bind mutex_Unlock store]. now rewrite unlock_lock. }
  cbn [exec bind load set_core core with_lock ErrorWriter].
  destruct (ErrorWriter (core w)) as [ew|] eqn:Hw.
  2:{ cbn [exec bind mutex_Unlock store]. now rewrite unlock_lock. }
  cbn [exec bind load set_core core with_lock BufferSize].
  destruct (BufferSize (core w) <? 0).
  { cbn [exec bind mutex_Unlock store]. now rewrite unlock_lock. }
  cbn [exec bind load set_core core with_lock CallStackDepth].
  destruct (CallStackDepth (core w) <? 0).
  { cbn [exec bind mutex_Unlock store]. now rewrite unlock_lock. }
  cbn [exec bind load make_chan store].
  rewrite exec_bind.
  rewrite (exec_Open_targets fuel ew) by (simpl; exact Hw).
  cbn [and_then also_spawned app exec bind store go mutex_Unlock].
  unfold opened. destruct w as [[lk op en g fa ew' bs d f m ts sm] h t r tr].
  simpl in *. reflexivity.
Qed.

Lemma exec_newEntry : forall fuel l level message w,
  exec (S fuel) (newEntry l level message) w = submit l level message w.
Proof.
  intros fuel l level message w. unfold submit.
  destruct (Z.eqb_spec level LevelFatal) as [->|Hl];
    destruct (SyncMode (core w)) eqn:Hs.
  - now apply exec_newEntry_fatal_sync.
  - now apply exec_newEntry_fatal_async.
  - now apply exec_newEntry_sync.
  - now apply exec_newEntry_async.
Qed.

(** ** Level names *)

Lemma toTitle_initial : forall r c,
  In c ["D"; "I"; "W"; "E"; "F"]%char ->
  Ascii.eqb (toTitle r) c = Ascii.eqb r c || Ascii.eqb r (toLower c).
Proof.
  intros r c Hc. simpl in Hc.
  destruct Hc as [<-|[<-|[<-|[<-|[<-|[]]]]]];
    destruct r as [[] [] [] [] [] [] [] []]; reflexivity.
Qed.

Lemma title_from_letters : forall rest s prev,
  isSeparator prev = false ->
  letters rest = true ->
  String.eqb (title_from prev s) rest = String.eqb s rest.
Proof.
  induction rest as [|y rest IH]; intros s prev Hp Hr; destruct s as [|x s];
    simpl; try reflexivity.
  rewrite Hp. unfold letters in Hr. simpl in Hr.
  apply andb_true_iff in Hr. destruct Hr as [Hy Hr].
  destruct (Ascii.eqb_spec x y) as [->|Hxy]; [|reflexivity].
  simpl. apply IH; [|exact Hr]. now apply negb_true_iff.
Qed.

Lemma Title_name : forall c rest s,
  In c ["D"; "I"; "W"; "E"; "F"]%char ->
  letters rest = true ->
  String.eqb (Title s) (String c rest) = spelled s (String c rest).
Proof.
  intros c rest s Hc Hr. unfold spelled, Title.
  destruct s as [|r s]; [reflexivity|].
  cbn [title_from lower_first String.eqb].
  change (isSeparator " "%char) with true. cbv iota.
  rewrite (toTitle_initial r c Hc).
  assert (Hsep : Ascii.eqb r c || Ascii.eqb r (toLower c) = true ->
                 isSeparator r = false).
  { intros H. apply orb_true_iff in H.
    simpl in Hc.
    destruct H as [H|H]; apply Ascii.eqb_eq in H; subst r;
      destruct Hc as [<-|[<-|[<-|[<-|[<-|[]]]]]]; reflexivity. }
  destruct (Ascii.eqb r c || Ascii.eqb r (toLower c)) eqn:Hm.
  - rewrite (title_from_letters rest s r (Hsep eq_refl) Hr).
    cbn [andb].
    destruct (Ascii.eqb r c), (Ascii.eqb r (toLower c)); try discriminate;
      cbn [andb orb]; now rewrite ?orb_diag, ?orb_false_r.
  - apply orb_false_iff in Hm. destruct Hm as [-> ->]. reflexivity.
Qed.

(** C9 (as amended).  On ASCII text [GetLevel] takes a level name as
    [Levels] spells it or with its first letter in lower case, and
    nothing else: ["debug"] and ["Debug"] both give the Debug level with
    [true]; every other string, other casings of a level name included,
    gives the zero level with [false]. *)
Theorem GetLevel_first_letter_only :
  (forall s, is_ascii s = true -> GetLevel s = GetLevel_by_first_letter s)
  /\ GetLevel "debug" = (LevelDebug, true)
  /\ GetLevel "Debug" = (LevelDebug, true).
Proof.
  split; [|split; reflexivity].
  intros s _. unfold GetLevel, GetLevel_by_first_letter, Levels, level_names.
  cbn [find].
  rewrite !Title_name by (simpl; auto 10).
  destruct (spelled s "Debug"); [reflexivity|].
  destruct (spelled s "Info"); [reflexivity|].
  destruct (spelled s "Warn"); [reflexivity|].
  destruct (spelled s "Error"); [reflexivity|].
  destruct (spelled s "Fatal"); reflexivity.
Qed.

(** C9 as stated fails: ["DEBUG"] is a casing of the level name
    ["Debug"], and [GetLevel] does not find it. *)
Lemma GetLevel_upper_case_not_found :
  EqualFold "DEBUG" "Debug" = true /\ GetLevel "DEBUG" = (LevelFatal, false).
Proof. split; reflexivity. Qed.

(** ** The writer *)

Lemma index_last : forall (p : list ascii) d,
  p <> [] -> index p (Z.of_nat (List.length p) - 1) = Some (last p d).
Proof.
  intros p d Hp. destruct (exists_last Hp) as (q & c & ->).
  unfold index. rewrite last_last, length_app. simpl.
  replace (Z.of_nat (List.length q + 1) - 1) with (Z.of_nat (List.length q)) by lia.
  destruct (Z.ltb_spec (Z.of_nat (List.length q)) 0) as [H|_]; [lia|].
  destruct (Z.leb_spec (Z.of_nat (List.length q + 1)) (Z.of_nat (List.length q)))
    as [H|_]; [lia|].
  simpl. rewrite Nat2Z.id, nth_error_app2 by lia.
  now rewrite Nat.sub_diag.
Qed.

Lemma firstn_removelast : forall (p : list ascii),
  p <> [] -> firstn (Z.to_nat (Z.of_nat (List.length p) - 1)) p = removelast p.
Proof.
  intros p Hp. destruct (exists_last Hp) as (q & c & ->).
  rewrite removelast_last, length_app. simpl.
  replace (Z.to_nat (Z.of_nat (List.length q + 1) - 1)) with (List.length q + 0)%nat by lia.
  rewrite firstn_app_2. simpl. apply app_nil_r.
Qed.

Lemma exec_Write : forall fuel (lw : LoggerWriter) (p : list ascii) (w : world),
  p <> [] ->
  exec fuel (Write lw p) w =
  and_then (exec fuel (newEntry (WLogger lw) (WLevel lw) (line_of p)) w)
    (fun _ w' => Done (Z.of_nat (List.length p), None) w' []).
Proof.
  intros fuel lw p w Hp.
  unfold Write, line_of. rewrite (index_last p " "%char Hp).
  rewrite (firstn_removelast p Hp).
  destruct (Ascii.eqb (last p " "%char) (ascii_of_nat 10)); apply exec_bind.
Qed.

(** C10.  On a non-empty slice the index [p[len(p)-1]] is in bounds and
    reads the last byte; [Write] passes the bytes, less one final newline
    if there is one, to [newEntry] at the writer's level, once, and what
    it returns when that call returns is [len(p)] and a nil error; where
    the entry is not Fatal and the engine is in sync mode the call
    returns with the entry processed.  On the empty slice the index is
    out of range and the call panics. *)
Theorem Write_nonempty : forall fuel (lw : LoggerWriter) (p : list ascii) (w : world),
  p <> [] ->
  index p (Z.of_nat (List.length p) - 1) = Some (last p " "%char)
  /\ exec (S fuel) (Write lw p) w =
     and_then (exec (S fuel) (newEntry (WLogger lw) (WLevel lw) (line_of p)) w)
       (fun _ w' => Done (Z.of_nat (List.length p), None) w' [])
  /\ (WLevel lw <> LevelFatal -> SyncMode (core w) = true ->
      exec (S fuel) (Write lw p) w =
      Done (Z.of_nat (List.length p), None)
        (after_sync (built_entry (WLogger lw) (WLevel lw) (line_of p) w) w) [])
  /\ exec (S fuel) (Write lw []) w =
     Crashed (Panicked "runtime error: index out of range") w [].
Proof.
  intros fuel lw p w Hp.
  split; [now apply index_last|]. split; [now apply exec_Write|]. split.
  - intros Hl Hs. rewrite exec_Write, exec_newEntry_sync by assumption.
    reflexivity.
  - reflexivity.
Qed.

(** Beside the claims: [Write] does not pass the gate of [Log].  Whether
    or not the engine is open, and whatever [MaxLevel] is, a write in
    sync mode below Fatal is processed by every target. *)
Theorem Write_skips_gate : forall fuel (lw : LoggerWriter) (p : list ascii) (w : world),
  p <> [] ->
  WLevel lw <> LevelFatal ->
  SyncMode (core w) = true ->
  exec fuel (Write lw p) w =
  Done (Z.of_nat (List.length p), None)
    (emit (round (Targets (core w))
             (Some (built_entry (WLogger lw) (WLevel lw) (line_of p) w))) w) [].
Proof.
  intros fuel lw p w Hp Hl Hs.
  rewrite exec_Write, exec_newEntry_sync by assumption. reflexivity.
Qed.

(** ** The leveled calls *)

Section FacadeFacts.

Variable value : Type.
Variable fmt_Sprint : list value -> string.
Variable fmt_Sprintf : string -> list value -> string.

Lemma exec_Log : forall fuel (l : Logger) (level : Level) (a : list value) (w : world),
  exec (S fuel) (Log value fmt_Sprint l level a) w =
  (if (level <=? MaxLevel (core w)) && open (core w)
   then submit l level (fmt_Sprint a) w
   else Done tt w []).
Proof.
  intros fuel l level a w.
  unfold Log. cbn [exec bind load]. rewrite Z.leb_antisym.
  destruct (MaxLevel (core w) <? level); cbn [negb andb]; [reflexivity|].
  cbn [exec bind load].
  destruct (open (core w)); cbn [negb]; [|reflexivity].
  apply exec_newEntry.
Qed.

Lemma exec_Logf : forall fuel (l : Logger) (level : Level) (format : string)
    (a : list value) (w : world),
  exec (S fuel) (Logf value fmt_Sprintf l level format a) w =
  (if (level <=? MaxLevel (core w)) && open (core w)
   then submit l level (message_f value fmt_Sprintf format a) w
   else Done tt w []).
Proof.
  intros fuel l level format a w.
  unfold Logf, message_f. cbn [exec bind load]. rewrite Z.leb_antisym.
  destruct (MaxLevel (core w) <? level); cbn [negb andb]; [reflexivity|].
  cbn [exec bind load].
  destruct (open (core w)); cbn [negb]; [|reflexivity].
  apply exec_newEntry.
Qed.



End FacadeFacts.


(** ** The life cycle *)


Lemma sent_not_crashed : forall v w c w' sp, sent v w <> Crashed c w' sp.
Proof.
  intros v w c w' sp. unfold sent.
  destruct (current_chan w) as [[i ch]|]; [|discriminate].
  destruct (chan_room ch); [|discriminate].
  destruct (0 <? CCap ch); discriminate.
Qed.

Lemma Close_done : forall fuel w w1 sp,
  exec fuel Close w = Done tt w1 sp ->
  open (core w1) = false
  /\ sp = []
  /\ Targets (core w1) = Targets (core w)
  /\ trace w1 = trace w ++ (if open (core w)
                            then map TargetClose (Targets (core w)) else [])
  /\ lock (core w1) = lock (core w)
  /\ config_ok w1 = config_ok w.
Proof.
  intros fuel w w1 sp. rewrite exec_Close. unfold close_outcome.
  destruct (open (core w)) eqn:Ho.
  - unfold sent. destruct (current_chan _) as [[c ch]|]; [|discriminate].
    destruct (chan_room ch); [|discriminate].
    destruct (0 <? CCap ch); [|discriminate].
    cbn [and_then also_spawned app]. intros H. injection H as <- <-.
    cbn. auto 10.
  - intros H. injection H as <- <-. rewrite app_nil_r. auto 10.
Qed.

(** C7.  Two calls of [Close] in a row do what one does: the second
    finds the engine closed and returns at once, also after any number
    of steps of the dispatcher in between, so every target is closed
    once, as often as it is listed, and neither call panics. *)
Theorem Close_twice : forall fuel (w : world),
  exec fuel (Close ;; Close) w = exec fuel Close w
  /\ (forall w1 sp, exec fuel Close w = Done tt w1 sp ->
        exec fuel Close w1 = Done tt w1 []
        /\ trace w1 = trace w ++ (if open (core w)
                                  then map TargetClose (Targets (core w))
                                  else [])
        /\ forall n, let '(_, w2, _) := solo n process w1 [] in
                     exec fuel Close w2 = Done tt w2 [])
  /\ (forall c w1 sp, exec fuel (Close ;; Close) w <> Crashed c w1 sp).
Proof.
  intros fuel w.
  assert (Hclosed : forall w1, open (core w1) = false ->
                               exec fuel Close w1 = Done tt w1 []).
  { intros w1 Ho. rewrite exec_Close. unfold close_outcome. now rewrite Ho. }
  assert (Hsame : exec fuel (Close ;; Close) w = exec fuel Close w).
  { rewrite exec_bind. destruct (exec fuel Close w) as [[] w1 sp| | |] eqn:H;
      try reflexivity.
    cbn [and_then]. apply Close_done in H. destruct H as (Ho & _).
    rewrite (Hclosed w1 Ho). cbn. now rewrite app_nil_r. }
  split; [exact Hsame|]. split.
  - intros w1 sp H. apply Close_done in H. destruct H as (Ho & _ & _ & Ht & _).
    split; [now apply Hclosed|]. split; [exact Ht|].
    intros n.
    pose proof (frames_solo same_engine n unit process w1 [] same_engine_refl
                  same_engine_trans process_same_engine) as Hf.
    destruct (solo n process w1 []) as [[p2 w2] sp2].
    destruct Hf as (Ho2 & _). apply Hclosed. congruence.
  - intros c w1 sp. rewrite Hsame, exec_Close. unfold close_outcome.
    destruct (open (core w)); [|discriminate].
    pose proof (sent_not_crashed None (set_core (with_open false) w)) as Hs.
    destruct (sent None (set_core (with_open false) w)); cbn; try discriminate.
    exfalso. eapply Hs. reflexivity.
Qed.

(** ** Checking the actions of a run *)

Lemma loop_acts_ok_then : forall A B (P : world -> world -> Prop) fuel
    (okb : world -> Prop) (rb : world -> outcome bool) (k : prog A)
    (g : A -> prog B),
  (forall w, acts_ok P fuel k w ->
             (forall a w' sp, exec fuel k w = Done a w' sp -> acts_ok P fuel (g a) w') ->
             acts_ok P fuel (bind k g) w) ->
  forall n w sp,
    loop_acts_ok okb rb (acts_ok P fuel k) n w ->
    (forall a w' sp', loop_rounds rb (exec fuel k) n w sp = Done a w' sp' ->
                      acts_ok P fuel (g a) w') ->
    loop_acts_ok okb rb (acts_ok P fuel (bind k g)) n w.
Proof.
  intros A B P fuel okb rb k g Hk n; induction n as [|n IH]; intros w sp Hok Hg.
  - exact I.
  - cbn [loop_acts_ok loop_rounds] in *. destruct Hok as [Hb Hok].
    split; [exact Hb|].
    destruct (rb w) as [again w1 sp1| | |]; try exact I.
    destruct again.
    + apply (IH w1 (sp ++ sp1) Hok Hg).
    + apply Hk; [exact Hok|]. intros a w' sp' He. rewrite He in Hg.
      eapply Hg. reflexivity.
Qed.

Lemma acts_ok_bind : forall (P : world -> world -> Prop) fuel A (p : prog A)
    B (g : A -> prog B) w,
  acts_ok P fuel p w ->
  (forall a w' sp, exec fuel p w = Done a w' sp -> acts_ok P fuel (g a) w') ->
  acts_ok P fuel (bind p g) w.
Proof.
  intros P fuel A p;
    induction p as [A a|A X f k IH|A body _ k IH|A q _ k IH|A d k IH|A msg|A code];
    intros B g w Hp Hg; cbn [bind acts_ok exec] in *.
  - eapply Hg. reflexivity.
  - destruct (f w) as [[b w']|]; [|exact I].
    destruct Hp as [HP Hk]. split; [exact HP|]. now apply IH.
  - eapply loop_acts_ok_then; eauto.
  - apply IH; [exact Hp|]. intros a w' sp He. rewrite He in Hg.
    eapply Hg. reflexivity.
  - exact I.
  - exact I.
  - exact I.
Qed.

Lemma acts_ok_forEach_call : forall (P : world -> world -> Prop) fuel A
    (xs : list A) (ev : A -> event) w,
  (forall w e, P w (emit [e] w)) ->
  acts_ok P fuel (forEach xs (fun x => call (ev x))) w.
Proof.
  intros P fuel A xs ev w HP. revert w.
  induction xs as [|x xs IH]; intros w; cbn; auto.
Qed.

Lemma targets_fixed_same : forall w w',
  Targets (core w') = Targets (core w) -> targets_fixed_while_open w w'.
Proof. intros w w' H Hne. contradiction. Qed.

Lemma targets_fixed_closed : forall w w',
  open (core w) = false -> targets_fixed_while_open w w'.
Proof. intros w w' H _. exact H. Qed.

Lemma chan_send_acts : forall fuel c v w,
  acts_ok targets_fixed_while_open fuel (chan_send c v) w.
Proof.
  intros fuel c v w. unfold chan_send, chan_offer, chan_await.
  cbn [bind acts_ok].
  destruct c as [c|]; [|exact I].
  destruct (nth_error (heap w) c) as [ch|]; [|exact I].
  destruct (chan_room ch); [|exact I].
  split; [now apply targets_fixed_same|].
  cbn [acts_ok].
  match goal with
  | |- context [match nth_error ?l ?i with _ => _ end] =>
      destruct (nth_error l i) as [ch'|]; [|exact I]
  end.
  match goal with
  | |- context [if ?b then _ else _] => destruct b; [|exact I]
  end.
  split; [now apply targets_fixed_same|exact I].
Qed.

Lemma Close_acts : forall fuel w, acts_ok targets_fixed_while_open fuel Close w.
Proof.
  intros fuel w. unfold Close. cbn [bind load acts_ok].
  split; [now apply targets_fixed_same|].
  destruct (open (core w)); cbn [negb]; [|exact I].
  cbn [bind store load acts_ok]. split; [now apply targets_fixed_same|].
  split; [now apply targets_fixed_same|].
  apply acts_ok_bind; [apply chan_send_acts|].
  intros _ w' sp _. cbn [bind load acts_ok].
  split; [now apply targets_fixed_same|].
  unfold target_Close. apply acts_ok_forEach_call.
  intros w'' e. now apply targets_fixed_same.
Qed.

Lemma Open_targets_acts : forall fuel ts targets w,
  acts_ok targets_fixed_while_open fuel (Open_targets ts targets) w.
Proof.
  intros fuel ts; induction ts as [|t ts IH]; intros targets w; [exact I|].
  cbn [Open_targets bind load target_Open call acts_ok].
  split; [now apply targets_fixed_same|].
  split; [now apply targets_fixed_same|].
  destruct (TOpenError t) as [msg|]; [|apply IH].
  cbn [bind load acts_ok]. split; [now apply targets_fixed_same|].
  cbn [emit core].
  destruct (ErrorWriter (core w)); cbn [fmt_Fprintf call bind acts_ok]; [|exact I].
  split; [now apply targets_fixed_same|]. apply IH.
Qed.

Lemma Open_acts : forall fuel w,
  open (core w) = false -> acts_ok targets_fixed_while_open fuel Open w.
Proof.
  intros fuel w Ho. unfold Open. cbn [bind mutex_Lock acts_ok].
  destruct (lock (core w)); [exact I|].
  split; [now apply targets_fixed_same|].
  cbn [bind load acts_ok set_core core with_lock open].
  split; [now apply targets_fixed_same|]. rewrite Ho.
  cbn [bind load acts_ok set_core core with_lock ErrorWriter].
  split; [now apply targets_fixed_same|].
  destruct (ErrorWriter (core w)) as [ew|] eqn:Hw.
  2:{ cbn. split; [now apply targets_fixed_same|exact I]. }
  cbn [bind load acts_ok set_core core with_lock BufferSize].
  split; [now apply targets_fixed_same|].
  destruct (BufferSize (core w) <? 0).
  { cbn. split; [now apply targets_fixed_same|exact I]. }
  cbn [bind load acts_ok set_core core with_lock CallStackDepth].
  split; [now apply targets_fixed_same|].
  destruct (CallStackDepth (core w) <? 0).
  { cbn. split; [now apply targets_fixed_same|exact I]. }
  cbn [bind load make_chan store acts_ok].
  split; [now apply targets_fixed_same|].
  split; [now apply targets_fixed_same|].
  split; [now apply targets_fixed_same|].
  split; [now apply targets_fixed_same|].
  apply acts_ok_bind; [apply Open_targets_acts|].
  intros targets w' sp He.
  rewrite (exec_Open_targets fuel ew) in He by (cbn; exact Hw).
  injection He as <- <- <-.
  cbn [bind store go mutex_Unlock acts_ok].
  split; [apply targets_fixed_closed; cbn; exact Ho|].
  split; [now apply targets_fixed_same|].
  split; [now apply targets_fixed_same|exact I].
Qed.

Lemma Open_done_open : forall fuel w r w' sp,
  open (core w) = false ->
  exec fuel Open w = Done r w' sp ->
  open (core w') = config_ok w.
Proof.
  intros fuel w r w' sp Ho. rewrite exec_Open. unfold open_outcome, config_ok.
  rewrite Ho. destruct (lock (core w)); [discriminate|].
  destruct (ErrorWriter (core w)) as [ew|].
  - rewrite !Z.leb_antisym.
    destruct (BufferSize (core w) <? 0).
    { intros H; injection H as <- <- <-. now rewrite Ho. }
    destruct (CallStackDepth (core w) <? 0); intros H; injection H as <- <- <-.
    + now rewrite Ho.
    + reflexivity.
  - intros H; injection H as <- <- <-. now rewrite Ho.
Qed.

Lemma Open_returns : forall fuel w,
  lock (core w) = false -> exists r w' sp, exec fuel Open w = Done r w' sp.
Proof.
  intros fuel w Hl. rewrite exec_Open. unfold open_outcome. rewrite Hl.
  destruct (open (core w)); [eauto|].
  destruct (ErrorWriter (core w)); [|eauto].
  destruct (BufferSize (core w) <? 0); [eauto|].
  destruct (CallStackDepth (core w) <? 0); eauto.
Qed.

Lemma Close_returns : forall fuel w,
  (open (core w) = true ->
   exists c ch, current_chan w = Some (c, ch) /\ chan_room ch = true /\ 0 < CCap ch) ->
  exists w1, exec fuel Close w = Done tt w1 [].
Proof.
  intros fuel w H. rewrite exec_Close. unfold close_outcome.
  destruct (open (core w)); [|eauto].
  destruct (H eq_refl) as (c & ch & Hc & Hr & Hcap).
  unfold sent.
  assert (Hc' : current_chan (set_core (with_open false) w) = Some (c, ch)) by exact Hc.
  rewrite Hc', Hr. apply Z.ltb_lt in Hcap. rewrite Hcap. cbn. eauto.
Qed.

(** C8 (as amended).  [SetTarget] and [AddTarget] first call [Close],
    then replace or extend the target list, and then call [Open], except
    that [SetTarget] without targets installs the empty list and stops
    there.  No action of either call changes the target list while
    [open] is set.  When the call returns the engine is open exactly if
    [Open] was called and accepted the configuration; and the call does
    return where the mutex is free and the sentinel fits in the
    channel. *)
Theorem SetTarget_AddTarget_reopen : forall fuel (ts : list Target) (w : world),
  exec fuel (SetTarget ts) w =
    and_then (exec fuel Close w)
      (fun _ w1 =>
         match ts with
         | [] => Done tt (set_core (with_Targets []) w1) []
         | _ :: _ =>
             and_then (exec fuel Open (set_core (with_Targets ts) w1))
               (fun _ w2 => Done tt w2 [])
         end)
  /\ exec fuel (AddTarget ts) w =
    and_then (exec fuel Close w)
      (fun _ w1 =>
         and_then
           (exec fuel Open (set_core (fun c => with_Targets (Targets c ++ ts) c) w1))
           (fun _ w2 => Done tt w2 []))
  /\ acts_ok targets_fixed_while_open fuel (SetTarget ts) w
  /\ acts_ok targets_fixed_while_open fuel (AddTarget ts) w
  /\ (forall w' sp, exec fuel (SetTarget ts) w = Done tt w' sp ->
        open (core w') = match ts with
                         | [] => false
                         | _ :: _ => config_ok w
                         end)
  /\ (forall w' sp, exec fuel (AddTarget ts) w = Done tt w' sp ->
        open (core w') = config_ok w)
  /\ (lock (core w) = false ->
      (open (core w) = true ->
       exists c ch, current_chan w = Some (c, ch) /\ chan_room ch = true
                    /\ 0 < CCap ch) ->
      (exists w' sp, exec fuel (SetTarget ts) w = Done tt w' sp)
      /\ (exists w' sp, exec fuel (AddTarget ts) w = Done tt w' sp)).
Proof.
  intros fuel ts w.
  assert (HS : exec fuel (SetTarget ts) w =
    and_then (exec fuel Close w)
      (fun _ w1 =>
         match ts with
         | [] => Done tt (set_core (with_Targets []) w1) []
         | _ :: _ =>
             and_then (exec fuel Open (set_core (with_Targets ts) w1))
               (fun _ w2 => Done tt w2 [])
         end)).
  { unfold SetTarget. rewrite exec_bind. apply and_then_ext. intros _ w1.
    destruct ts as [|t ts]; [reflexivity|].
    cbn [bind store exec]. apply exec_bind. }
  assert (HA : exec fuel (AddTarget ts) w =
    and_then (exec fuel Close w)
      (fun _ w1 =>
         and_then
           (exec fuel Open (set_core (fun c => with_Targets (Targets c ++ ts) c) w1))
           (fun _ w2 => Done tt w2 []))).
  { unfold AddTarget. rewrite exec_bind. apply and_then_ext. intros _ w1.
    cbn [bind store exec]. apply exec_bind. }
  split; [exact HS|]. split; [exact HA|]. split; [|split; [|split; [|split]]].
  - unfold SetTarget. apply acts_ok_bind; [apply Close_acts|].
    intros [] w1 sp Hc. apply Close_done in Hc. destruct Hc as (Ho & _).
    destruct ts as [|t ts].
    + cbn. split; [now apply targets_fixed_closed|exact I].
    + cbn [bind store acts_ok]. split; [now apply targets_fixed_closed|].
      apply acts_ok_bind; [apply Open_acts; exact Ho|].
      intros; exact I.
  - unfold AddTarget. apply acts_ok_bind; [apply Close_acts|].
    intros [] w1 sp Hc. apply Close_done in Hc. destruct Hc as (Ho & _).
    cbn [bind store acts_ok]. split; [now apply targets_fixed_closed|].
    apply acts_ok_bind; [apply Open_acts; exact Ho|].
    intros; exact I.
  - intros w' sp. rewrite HS.
    destruct (exec fuel Close w) as [[] w1 sp1| | |] eqn:Hc; try discriminate.
    apply Close_done in Hc. destruct Hc as (Ho & _ & _ & _ & _ & Hcfg).
    cbn [and_then]. destruct ts as [|t ts].
    + cbn. intros H; injection H as <- <-. exact Ho.
    + destruct (exec fuel Open _) as [r w2 sp2| | |] eqn:Hop; try discriminate.
      cbn. intros H; injection H as <- <-.
      apply Open_done_open in Hop; [|exact Ho]. now rewrite Hop, <- Hcfg.
  - intros w' sp. rewrite HA.
    destruct (exec fuel Close w) as [[] w1 sp1| | |] eqn:Hc; try discriminate.
    apply Close_done in Hc. destruct Hc as (Ho & _ & _ & _ & _ & Hcfg).
    cbn [and_then].
    destruct (exec fuel Open _) as [r w2 sp2| | |] eqn:Hop; try discriminate.
    cbn. intros H; injection H as <- <-.
    apply Open_done_open in Hop; [|exact Ho]. now rewrite Hop, <- Hcfg.
  - intros Hl Hroom.
    destruct (Close_returns fuel w Hroom) as (w1 & Hc).
    pose proof (Close_done fuel w w1 [] Hc) as (_ & _ & _ & _ & Hl1 & _).
    rewrite HS, HA, Hc. cbn [and_then]. split.
    + destruct ts as [|t ts]; [cbn; eauto|].
      destruct (Open_returns fuel (set_core (with_Targets (t :: ts)) w1))
        as (r & w2 & sp & Hop); [cbn; congruence|].
      rewrite Hop. cbn. eauto.
    + destruct (Open_returns fuel
                  (set_core (fun c => with_Targets (Targets c ++ ts) c) w1))
        as (r & w2 & sp & Hop); [cbn; congruence|].
      rewrite Hop. cbn. eauto.
Qed.

(** ** Scenarios *)

Lemma current_chan_placed : forall w c ch v,
  current_chan w = Some (c, ch) ->
  current_chan (placed c ch v w) =
  Some (c, mkChan (CCap ch) (CBuf ch ++ [v]) (CTaken ch)).
Proof.
  intros w c ch v Hc. unfold current_chan in *. cbn [placed set_heap core heap].
  destruct (entries (core w)) as [c'|]; [|discriminate].
  destruct (nth_error (heap w) c') as [ch'|] eqn:Hn; [|discriminate].
  injection Hc as -> ->. now rewrite (nth_error_update_same _ _ _ _ _ Hn).
Qed.

(** Where the count is negative, a Fatal call in async mode takes the
    fatal action without waiting at all: whatever was queued before it
    is still in the channel, followed by the Fatal entry. *)
Lemma Fatal_acts_at_once : forall fuel l message w c ch,
  SyncMode (core w) = false ->
  current_chan w = Some (c, ch) ->
  chan_room ch = true ->
  0 < CCap ch ->
  goroutines (core w) < 0 ->
  let e := built_entry l LevelFatal message w in
  let w1 := placed c ch (Some e) (counted (after_sync e w)) in
  exec (S fuel) (newEntry l LevelFatal message) w =
    (if fatalAction (core w) =? ActionPanic
     then Crashed (Panicked "Fatal error.") w1 []
     else if fatalAction (core w) =? ActionExit
          then Crashed (Exited (-1)) (after_sync (exit_entry l w1) w1) []
          else Done tt w1 [])
  /\ current_chan w1 =
     Some (c, mkChan (CCap ch) (CBuf ch ++ [Some e]) (CTaken ch)).
Proof.
  intros fuel l message w c ch Hs Hc Hr Hcap Hg e w1.
  assert (Hc1 : current_chan (counted (after_sync e w)) = Some (c, ch)) by exact Hc.
  split; [|now apply current_chan_placed].
  rewrite exec_newEntry_fatal_async by exact Hs. fold e.
  unfold sent. rewrite Hc1, Hr. apply Z.ltb_lt in Hcap. rewrite Hcap.
  cbn [and_then]. rewrite also_spawned_nil. fold w1.
  unfold fatal_action.
  replace (goroutines (core w1) <=? 0) with true; [reflexivity|].
  symmetry. apply Z.leb_le. subst w1. cbn. lia.
Qed.

(** With room in a buffered channel [Close] does not wait: it returns
    with every target closed and everything that was queued still in the
    channel, followed by the nil entry. *)
Lemma Close_returns_with_queue : forall fuel w c ch,
  open (core w) = true ->
  current_chan w = Some (c, ch) ->
  chan_room ch = true ->
  0 < CCap ch ->
  exists w1,
    exec fuel Close w = Done tt w1 []
    /\ trace w1 = trace w ++ map TargetClose (Targets (core w))
    /\ current_chan w1 =
       Some (c, mkChan (CCap ch) (CBuf ch ++ [None]) (CTaken ch)).
Proof.
  intros fuel w c ch Ho Hc Hr Hcap.
  assert (Hc' : current_chan (set_core (with_open false) w) = Some (c, ch)) by exact Hc.
  rewrite exec_Close. unfold close_outcome. rewrite Ho. unfold sent.
  rewrite Hc', Hr. apply Z.ltb_lt in Hcap. rewrite Hcap. cbn [and_then also_spawned app].
  eexists. split; [reflexivity|]. split; [reflexivity|].
  apply (current_chan_placed (set_core (with_open false) w) c ch None Hc').
Qed.

(** C1 fails on the code.  After two close-and-open cycles the count of
    pending entries stands at -2, since each dispatcher took one off for
    the nil entry of [Close].  With [a], [b] and the Fatal entry queued
    it stands at 1, and at 0 once [a] is handled: the caller leaves its
    loop, logs "Forced to exit." and exits, and [b] is still in the
    channel, never passed to the target. *)
Lemma Fatal_exits_before_flush :
  report (run fatal_schedule (mkConfig world0 [fatal_scenario] None)) =
  Some (Some (Exited (-1)),
        [TargetOpen console (Some Stderr);
         TargetClose console;
         TargetOpen mem (Some Stderr);
         TargetProcess mem None;
         TargetClose mem;
         TargetOpen mem (Some Stderr);
         TargetProcess mem None;
         TargetProcess mem (Some (fatal_entry "c"));
         TargetProcess mem (Some (info_entry "a"));
         TargetProcess mem (Some forced_entry)],
        [[]; []; [Some (info_entry "b"); Some (fatal_entry "c")]]).
Proof. vm_compute. reflexivity. Qed.

(** C2 fails on the code.  The channel has room for the nil entry, so
    [Close] does not wait for the dispatcher: it closes the console
    target while [a] is still queued, and the target is handed [a] (and
    the nil entry) after it has been closed. *)
Lemma Close_before_delivery :
  report (run (repeat 0%nat 34) (mkConfig world0 [close_scenario] None)) =
  Some (None,
        [TargetOpen console (Some Stderr); TargetClose console],
        [[Some (info_entry "a"); None]])
  /\ report (run close_schedule (mkConfig world0 [close_scenario] None)) =
  Some (None,
        [TargetOpen console (Some Stderr);
         TargetClose console;
         TargetProcess console (Some (info_entry "a"));
         TargetProcess console None],
        [[]]).
Proof. split; vm_compute; reflexivity. Qed.


(** C8 as stated fails: [SetTarget] without targets leaves the engine
    closed when it returns, and so does [AddTarget] where [Open] refuses
    the configuration. *)
Lemma SetTarget_empty_stays_closed :
  match exec 0 (l <- NewLogger demo_Time_Format console [] ;; SetTarget []) world0 with
  | Done _ w _ => Some (open (core w), Targets (core w), trace w)
  | _ => None
  end = Some (false, [], [TargetOpen console (Some Stderr); TargetClose console])
  /\ match exec 0 (AddTarget [console]) negative_buffer_world with
     | Done _ w _ => Some (open (core w), Targets (core w), trace w)
     | _ => None
     end = Some (false, [mem; console], [TargetClose mem]).
Proof. split; vm_compute; reflexivity. Qed.

(** ** Level names, both ways *)

Lemma Levels_names : forall name l,
  Levels name = Some l ->
  (name = "Debug" /\ l = LevelDebug) \/ (name = "Info" /\ l = LevelInfo)
  \/ (name = "Warn" /\ l = LevelWarn) \/ (name = "Error" /\ l = LevelError)
  \/ (name = "Fatal" /\ l = LevelFatal).
Proof.
  intros name l. unfold Levels.
  destruct (String.eqb_spec name "Debug") as [->|_]; [intros H; injection H as <-; auto|].
  destruct (String.eqb_spec name "Info") as [->|_]; [intros H; injection H as <-; auto|].
  destruct (String.eqb_spec name "Warn") as [->|_]; [intros H; injection H as <-; auto 6|].
  destruct (String.eqb_spec name "Error") as [->|_]; [intros H; injection H as <-; auto 6|].
  destruct (String.eqb_spec name "Fatal") as [->|_]; [intros H; injection H as <-; auto 6|].
  discriminate.
Qed.

Lemma LevelNames_levels : forall l name,
  LevelNames l = Some name ->
  (name = "Debug" /\ l = LevelDebug) \/ (name = "Info" /\ l = LevelInfo)
  \/ (name = "Warn" /\ l = LevelWarn) \/ (name = "Error" /\ l = LevelError)
  \/ (name = "Fatal" /\ l = LevelFatal).
Proof.
  intros l name. unfold LevelNames.
  destruct (Z.eqb_spec l LevelDebug) as [->|_]; [intros H; injection H as <-; auto|].
  destruct (Z.eqb_spec l LevelInfo) as [->|_]; [intros H; injection H as <-; auto|].
  destruct (Z.eqb_spec l LevelWarn) as [->|_]; [intros H; injection H as <-; auto 6|].
  destruct (Z.eqb_spec l LevelError) as [->|_]; [intros H; injection H as <-; auto 6|].
  destruct (Z.eqb_spec l LevelFatal) as [->|_]; [intros H; injection H as <-; auto 6|].
  discriminate.
Qed.

Lemma LevelNames_valid : forall l,
  LevelNames l = None <-> (l < 0 \/ 4 < l).
Proof.
  intros l. unfold LevelNames, LevelDebug, LevelInfo, LevelWarn, LevelError, LevelFatal.
  destruct (Z.eqb_spec l 4); [split; [discriminate|lia]|].
  destruct (Z.eqb_spec l 3); [split; [discriminate|lia]|].
  destruct (Z.eqb_spec l 2); [split; [discriminate|lia]|].
  destruct (Z.eqb_spec l 1); [split; [discriminate|lia]|].
  destruct (Z.eqb_spec l 0); [split; [discriminate|lia]|].
  split; [lia|reflexivity].
Qed.

(** Beside the claims (X4): the two tables of level names are inverse
    to each other.  The name [String] gives for one of the five levels
    is a name [GetLevel] reads back as that level; for every other level
    it is Unknown, which [GetLevel] does not take. *)
Theorem Level_names_inverse : forall (l : Level) (name : string),
  (Levels name = Some l <-> LevelNames l = Some name)
  /\ GetLevel (Level_String l) =
     (if (0 <=? l) && (l <=? 4) then (l, true) else (LevelFatal, false))
  /\ (Level_String l = "Unknown" <-> (l < 0 \/ 4 < l)).
Proof.
  intros l name. split; [|split].
  - split; intros H.
    + apply Levels_names in H.
      destruct H as [[-> ->]|[[-> ->]|[[-> ->]|[[-> ->]|[-> ->]]]]]; reflexivity.
    + apply LevelNames_levels in H.
      destruct H as [[-> ->]|[[-> ->]|[[-> ->]|[[-> ->]|[-> ->]]]]]; reflexivity.
  - unfold Level_String. destruct (LevelNames l) as [n|] eqn:Hn.
    + apply LevelNames_levels in Hn.
      destruct Hn as [[-> ->]|[[-> ->]|[[-> ->]|[[-> ->]|[-> ->]]]]]; reflexivity.
    + apply LevelNames_valid in Hn.
      replace ((0 <=? l) && (l <=? 4)) with false; [reflexivity|].
      symmetry. apply andb_false_iff. rewrite Z.leb_gt, Z.leb_gt. lia.
  - unfold Level_String. destruct (LevelNames l) as [n|] eqn:Hn.
    + pose proof Hn as Hv. apply LevelNames_levels in Hn.
      assert (Hin : ~ (l < 0 \/ 4 < l)).
      { intros Hout. apply LevelNames_valid in Hout. congruence. }
      split; [|tauto].
      destruct Hn as [[-> ->]|[[-> ->]|[[-> ->]|[[-> ->]|[-> ->]]]]]; discriminate.
    + apply LevelNames_valid in Hn. tauto.
Qed.



(** ** The frames [GetCallStack] keeps *)

Lemma prefix_append : forall p s,
  String.prefix p s = true <-> exists b, s = (p ++ b)%string.
Proof.
  induction p as [|x p IH]; intros s; simpl.
  - split; [intros _; exists s; reflexivity|intros _; destruct s; reflexivity].
  - destruct s as [|y s]; cbn [String.prefix].
    + split; [discriminate|intros (b & H); discriminate].
    + destruct (Ascii.ascii_dec x y) as [->|Hxy].
      * rewrite IH. split; intros (b & H); exists b; [now rewrite H|now injection H].
      * split; [discriminate|]. intros (b & H). injection H as -> _. contradiction.
Qed.

Lemma strings_Contains_substring : forall s sub,
  strings_Contains s sub = true <-> exists a b, s = (a ++ sub ++ b)%string.
Proof.
  induction s as [|x s IH]; intros sub; cbn [strings_Contains].
  - destruct (String.prefix sub "") eqn:Hp.
    + split; [intros _|reflexivity].
      apply prefix_append in Hp. destruct Hp as (b & Hb). exists "", b. exact Hb.
    + split; [discriminate|]. intros (a & b & H).
      destruct a; [|discriminate]. simpl in H.
      assert (Hp' : String.prefix sub "" = true) by (apply prefix_append; eauto).
      congruence.
  - destruct (String.prefix sub (String x s)) eqn:Hp.
    + split; [intros _|reflexivity].
      apply prefix_append in Hp. destruct Hp as (b & Hb). exists "", b. exact Hb.
    + rewrite IH. split.
      * intros (a & b & ->). exists (String x a), b. reflexivity.
      * intros (a & b & H). destruct a as [|y a].
        -- simpl in H.
           assert (Hp' : String.prefix sub (String x s) = true)
             by (apply prefix_append; eauto).
           congruence.
        -- injection H as _ ->. eauto.
Qed.

Lemma append_assoc : forall a b c : string, ((a ++ b) ++ c = a ++ b ++ c)%string.
Proof. induction a as [|x a IH]; intros b c; simpl; [reflexivity|now rewrite IH]. Qed.

Lemma append_nil_r : forall a : string, (a ++ "" = a)%string.
Proof. induction a as [|x a IH]; simpl; [reflexivity|now rewrite IH]. Qed.

Lemma render_from : forall fs a b,
  fold_left (fun buf f => (buf ++ render_frame f)%string) fs (a ++ b)%string =
  (a ++ fold_left (fun buf f => (buf ++ render_frame f)%string) fs b)%string.
Proof.
  induction fs as [|f fs IH]; intros a b; simpl; [reflexivity|].
  now rewrite append_assoc, IH.
Qed.

Lemma render_frames_app : forall fs gs,
  render_frames (fs ++ gs) = (render_frames fs ++ render_frames gs)%string.
Proof.
  intros fs gs. unfold render_frames. rewrite fold_left_app.
  rewrite <- render_from. now rewrite append_nil_r.
Qed.

Lemma In_firstn_list : forall A (n : nat) (l : list A) x, In x (firstn n l) -> In x l.
Proof.
  intros A n; induction n as [|n IH]; intros [|y l] x H; simpl in *; try contradiction.
  destruct H as [H|H]; [now left|right; now apply IH].
Qed.

(** Beside the claims (X5): [GetCallStack] renders, in the order of the
    stack, the first [frames] of the frames from index [skip] on whose
    file contains the filter, and of all of them where the filter is
    empty: never more than [frames] frames, and none where [frames] is
    not positive or the stack ends before [skip]. *)
Theorem GetCallStack_selects : forall (rt : list Frame) (skip frames : Z) (filter : string),
  0 <= skip ->
  let kept := firstn (Z.to_nat frames)
                (List.filter (accepted filter) (skipn (Z.to_nat skip) rt)) in
  GetCallStack rt skip frames filter = render_frames kept
  /\ Z.of_nat (List.length kept) <= Z.max frames 0
  /\ (forall f, In f kept ->
        In f (skipn (Z.to_nat skip) rt)
        /\ (filter = "" \/ exists a b, FFile f = (a ++ filter ++ b)%string))
  /\ (filter = "" -> kept = firstn (Z.to_nat frames) (skipn (Z.to_nat skip) rt))
  /\ (frames <= 0 \/ Z.of_nat (List.length rt) <= skip ->
      GetCallStack rt skip frames filter = "").
Proof.
  intros rt skip frames filter Hs kept.
  split; [apply GetCallStack_frames|]. split; [|split; [|split]].
  - subst kept. rewrite length_firstn. lia.
  - intros f Hf. subst kept. apply In_firstn_list in Hf. apply filter_In in Hf.
    destruct Hf as [Hin Hacc]. split; [exact Hin|].
    unfold accepted in Hacc. apply orb_true_iff in Hacc.
    destruct Hacc as [He|Hc].
    + left. now apply String.eqb_eq.
    + right. now apply strings_Contains_substring.
  - intros ->. subst kept. f_equal.
    apply forallb_filter_id. apply forallb_forall. intros; reflexivity.
  - intros H. rewrite GetCallStack_frames. destruct H as [H|H].
    + replace (Z.to_nat frames) with O by lia. reflexivity.
    + rewrite skipn_all2 by lia. simpl. now rewrite firstn_nil.
Qed.

(** Beside the claims (X6): asking [GetCallStack] for more frames only
    adds to the end of the text. *)
Theorem GetCallStack_extends : forall (rt : list Frame) (skip n m : Z) (filter : string),
  n <= m ->
  exists more,
    GetCallStack rt skip m filter = (GetCallStack rt skip n filter ++ more)%string.
Proof.
  intros rt skip n m filter Hnm. rewrite !GetCallStack_frames.
  set (fs := List.filter (accepted filter) (skipn (Z.to_nat skip) rt)).
  exists (render_frames (skipn (Z.to_nat n) (firstn (Z.to_nat m) fs))).
  rewrite <- render_frames_app. f_equal.
  rewrite <- (firstn_skipn (Z.to_nat n) (firstn (Z.to_nat m) fs)) at 1.
  f_equal. rewrite firstn_firstn. f_equal. lia.
Qed.

(** ** What a run leaves *)
















(** ** Opening and closing *)




Section LifeCycle.

Variable value : Type.
Variable fmt_Sprint : list value -> string.
Variable fmt_Sprintf : string -> list value -> string.
Variable Time_Format : Z -> string -> string.

Lemma exec_NewLogger : forall fuel (console : Target) (args : list string) (w : world),
  exec fuel (NewLogger Time_Format console args) w =
  Done (mkLogger (hd "app" args) (NormalFormatter Time_Format))
    (opened Stderr (fresh_engine console w)) [process].
Proof.
  intros fuel console args w. unfold NewLogger.
  cbn [exec bind store]. rewrite exec_bind, exec_Open.
  destruct args; reflexivity.
Qed.

(** Beside the claims (X7): [NewLogger] always returns, and with the
    engine open whatever it held before: buffer size 1024, level Debug,
    async mode, count 0, no call stack, a fresh empty channel, the
    dispatcher started, and the console target kept exactly if its
    [Open] succeeds.  The logger has the first argument as its category,
    app where there is none, and [NormalFormatter] as its formatter.
    [New] is the same call. *)
Theorem NewLogger_opens : forall fuel (console : Target) (args : list string) (w : world),
  exists w',
    exec fuel (NewLogger Time_Format console args) w =
      Done (mkLogger (hd "app" args) (NormalFormatter Time_Format)) w' [process]
    /\ exec fuel (New Time_Format console args) w =
       exec fuel (NewLogger Time_Format console args) w
    /\ open (core w') = true /\ lock (core w') = false
    /\ SyncMode (core w') = false /\ MaxLevel (core w') = LevelDebug
    /\ goroutines (core w') = 0 /\ fatalAction (core w') = ActionNothing
    /\ CallStackDepth (core w') = 0
    /\ current_chan w' = Some (List.length (heap w), mkChan 1024 [] 0)
    /\ Targets (core w') = (if opens_ok console then [console] else [])
    /\ trace w' = trace w ++ open_events Stderr [console].
Proof.
  intros fuel console args w. exists (opened Stderr (fresh_engine console w)).
  split; [apply exec_NewLogger|]. split; [reflexivity|].
  repeat split.
  unfold current_chan, opened, fresh_engine. cbn [core entries heap].
  rewrite nth_error_app2 by lia. now rewrite Nat.sub_diag.
Qed.

End LifeCycle.


Section Discard.

Variable value : Type.
Variable fmt_Sprint : list value -> string.
Variable fmt_Sprintf : string -> list value -> string.

(** Beside the claims (X9): once [Close] has returned, [Log] and [Logf]
    at any level return at once and leave the world as it was, also
    after any number of steps of the dispatcher. *)
Theorem Log_after_Close : forall fuel (l : Logger) (level : Level) (format : string)
    (a : list value) (w : world),
  exec (S fuel) (Close ;; Log value fmt_Sprint l level a) w = exec (S fuel) Close w
  /\ exec (S fuel) (Close ;; Logf value fmt_Sprintf l level format a) w =
     exec (S fuel) Close w
  /\ (forall w1 sp n, exec (S fuel) Close w = Done tt w1 sp ->
        let '(_, w2, _) := solo n process w1 [] in
        exec (S fuel) (Log value fmt_Sprint l level a) w2 = Done tt w2 []).
Proof.
  intros fuel l level format a w.
  assert (Hclosed : forall w1, open (core w1) = false ->
            exec (S fuel) (Log value fmt_Sprint l level a) w1 = Done tt w1 []
            /\ exec (S fuel) (Logf value fmt_Sprintf l level format a) w1 = Done tt w1 []).
  { intros w1 Ho. rewrite exec_Log, exec_Logf, Ho, andb_false_r. auto. }
  split; [|split].
  - rewrite exec_bind.
    destruct (exec (S fuel) Close w) as [[] w1 sp| | |] eqn:H; try reflexivity.
    cbn [and_then]. apply Close_done in H. destruct H as (Ho & _).
    rewrite (proj1 (Hclosed w1 Ho)). cbn. now rewrite app_nil_r.
  - rewrite exec_bind.
    destruct (exec (S fuel) Close w) as [[] w1 sp| | |] eqn:H; try reflexivity.
    cbn [and_then]. apply Close_done in H. destruct H as (Ho & _).
    rewrite (proj2 (Hclosed w1 Ho)). cbn. now rewrite app_nil_r.
  - intros w1 sp n H. apply Close_done in H. destruct H as (Ho & _).
    pose proof (frames_solo same_engine n unit process w1 [] same_engine_refl
                  same_engine_trans process_same_engine) as Hf.
    destruct (solo n process w1 []) as [[p2 w2] sp2].
    destruct Hf as (Ho2 & _). apply Hclosed. congruence.
Qed.

End Discard.

Section Cycle.

Variable value : Type.
Variable fmt_Sprint : list value -> string.


End Cycle.


(** ** Calls in a row *)

Section Order.

Variable value : Type.
Variable fmt_Sprint : list value -> string.

Lemma exec_Log_sync : forall fuel (l : Logger) (level : Level) (a : list value) (w : world),
  open (core w) = true ->
  SyncMode (core w) = true ->
  0 < level <= MaxLevel (core w) ->
  exec (S fuel) (Log value fmt_Sprint l level a) w =
  Done tt (after_sync (built_entry l level (fmt_Sprint a) w) w) [].
Proof.
  intros fuel l level a w Ho Hs Hl. rewrite exec_Log, Ho.
  replace (level <=? MaxLevel (core w)) with true by (symmetry; apply Z.leb_le; lia).
  cbn [andb]. unfold submit.
  destruct (Z.eqb_spec level LevelFatal) as [E|_]; [unfold LevelFatal in E; lia|].
  now rewrite Hs.
Qed.

Lemma exec_Log_async : forall fuel (l : Logger) (level : Level) (a : list value)
    (w : world) c ch,
  open (core w) = true ->
  SyncMode (core w) = false ->
  0 < level <= MaxLevel (core w) ->
  current_chan w = Some (c, ch) ->
  exec (S fuel) (Log value fmt_Sprint l level a) w =
  (if chan_room ch
   then if 0 <? CCap ch
        then Done tt (placed c ch (Some (built_entry l level (fmt_Sprint a) w)) (counted w)) []
        else Parked AtAction
               (placed c ch (Some (built_entry l level (fmt_Sprint a) w)) (counted w)) []
   else Parked AtAction (counted w) []).
Proof.
  intros fuel l level a w c ch Ho Hs Hl Hc. rewrite exec_Log, Ho.
  replace (level <=? MaxLevel (core w)) with true by (symmetry; apply Z.leb_le; lia).
  cbn [andb]. unfold submit.
  destruct (Z.eqb_spec level LevelFatal) as [E|_]; [unfold LevelFatal in E; lia|].
  rewrite Hs. unfold sent.
  assert (Hc' : current_chan (counted w) = Some (c, ch)) by exact Hc.
  now rewrite Hc'.
Qed.

(** Beside the claims (X12): in sync mode the targets see the calls of one
    goroutine in the order they are made, each entry passed to every
    target before the next call starts. *)
Theorem sync_calls_in_order : forall fuel (l : Logger)
    (calls : list (Level * list value)) (w : world),
  open (core w) = true ->
  SyncMode (core w) = true ->
  Forall (passes value w) calls ->
  exec (S fuel) (log_each value fmt_Sprint l calls) w =
  Done tt
    (emit (rounds (Targets (core w))
             (map (fun c => built_entry l (fst c) (fmt_Sprint (snd c)) w) calls)) w) [].
Proof.
  intros fuel l calls. induction calls as [|[level a] calls IH]; intros w Ho Hs Hall.
  - cbn. now rewrite emit_nil.
  - inversion Hall as [|x xs Hc Hrest]; subst.
    unfold log_each. cbn [forEach fst snd]. rewrite exec_bind.
    rewrite exec_Log_sync by assumption. cbn [and_then also_spawned app].
    fold (log_each value fmt_Sprint l calls).
    rewrite also_spawned_nil.
    rewrite IH; [|exact Ho|exact Hs|exact Hrest].
    unfold after_sync. rewrite emit_emit. reflexivity.
Qed.

Lemma enqueue_calls : forall fuel (l : Logger) (calls : list (Level * list value))
    (w : world) c ch,
  open (core w) = true ->
  SyncMode (core w) = false ->
  Forall (passes value w) calls ->
  current_chan w = Some (c, ch) ->
  Z.of_nat (List.length (CBuf ch) + List.length calls) <= CCap ch ->
  exists es w1,
    exec (S fuel) (log_each value fmt_Sprint l calls) w = Done tt w1 []
    /\ map ELevel es = map fst calls
    /\ map EMessage es = map (fun c => fmt_Sprint (snd c)) calls
    /\ current_chan w1 = Some (c, mkChan (CCap ch) (CBuf ch ++ map Some es) (CTaken ch))
    /\ goroutines (core w1) = goroutines (core w) + Z.of_nat (List.length calls)
    /\ Targets (core w1) = Targets (core w)
    /\ trace w1 = trace w.
Proof.
  intros fuel l calls. induction calls as [|[level a] calls IH];
    intros w c ch Ho Hs Hall Hc Hlen.
  - exists [], w. cbn. rewrite app_nil_r, Z.add_0_r.
    destruct ch; auto 10.
  - inversion Hall as [|x xs Hp Hrest]; subst.
    set (e := built_entry l level (fmt_Sprint a) w).
    set (w' := placed c ch (Some e) (counted w)).
    destruct (IH w' c (mkChan (CCap ch) (CBuf ch ++ [Some e]) (CTaken ch)))
      as (es & w1 & He & Hlv & Hmsg & Hc1 & Hg & Hts & Htr).
    + exact Ho.
    + exact Hs.
    + exact Hrest.
    + apply (current_chan_placed (counted w) c ch (Some e)). exact Hc.
    + cbn [CBuf CCap]. rewrite length_app. cbn [List.length] in *. lia.
    + exists (e :: es), w1.
      unfold log_each. cbn [forEach fst snd]. rewrite exec_bind.
      rewrite (exec_Log_async fuel l level a w c ch) by assumption.
      replace (chan_room ch) with true
        by (symmetry; unfold chan_room; apply Z.ltb_lt; cbn [List.length] in Hlen; lia).
      replace (0 <? CCap ch) with true
        by (symmetry; apply Z.ltb_lt; cbn [List.length] in Hlen; lia).
      cbn [and_then]. rewrite also_spawned_nil.
      fold e. fold w'. fold (log_each value fmt_Sprint l calls).
      split; [exact He|].
      cbn [map fst snd ELevel EMessage]. rewrite Hlv, Hmsg.
      split; [reflexivity|]. split; [reflexivity|].
      split; [rewrite Hc1; cbn [CCap CBuf CTaken]; now rewrite <- app_assoc|].
      split; [rewrite Hg; cbn [List.length]; cbn; lia|].
      split; [rewrite Hts; reflexivity|rewrite Htr; reflexivity].
Qed.

(** Beside the claims (X13): in async mode, with room in the channel,
    the calls of one goroutine return with their entries queued behind
    what was queued before, in the order of the calls, and counted; the
    dispatcher then passes the earlier entries and these to every
    target in that order, and the count is back where it was less the
    earlier entries. *)
Theorem async_calls_in_order : forall fuel (l : Logger)
    (calls : list (Level * list value)) (w : world) c ch (q : list Entry),
  open (core w) = true ->
  SyncMode (core w) = false ->
  Forall (passes value w) calls ->
  current_chan w = Some (c, ch) ->
  CBuf ch = map Some q ->
  Z.of_nat (List.length q + List.length calls) <= CCap ch ->
  exists es w1 w2,
    exec (S fuel) (log_each value fmt_Sprint l calls) w = Done tt w1 []
    /\ map ELevel es = map fst calls
    /\ map EMessage es = map (fun c => fmt_Sprint (snd c)) calls
    /\ current_chan w1 = Some (c, mkChan (CCap ch) (map Some (q ++ es)) (CTaken ch))
    /\ goroutines (core w1) = goroutines (core w) + Z.of_nat (List.length calls)
    /\ trace w1 = trace w
    /\ exec (S (List.length q + List.length calls)) process w1 = Parked AtAction w2 []
    /\ trace w2 = trace w ++ rounds (Targets (core w)) q ++ rounds (Targets (core w)) es
    /\ goroutines (core w2) = goroutines (core w) - Z.of_nat (List.length q).
Proof.
  intros fuel l calls w c ch q Ho Hs Hall Hc Hq Hlen.
  destruct (enqueue_calls fuel l calls w c ch Ho Hs Hall Hc)
    as (es & w1 & He & Hlv & Hmsg & Hc1 & Hg & Hts & Htr).
  { rewrite Hq, length_map. exact Hlen. }
  assert (Hes : List.length es = List.length calls).
  { rewrite <- (length_map ELevel es), Hlv. apply length_map. }
  rewrite Hq, <- map_app in Hc1.
  destruct (drain_entries (q ++ es) (S (List.length q + List.length calls)) w1 c _ Hc1 eq_refl)
    as (w2 & Hd & Htr2 & Hg2 & _).
  { rewrite length_app. lia. }
  exists es, w1, w2.
  repeat (split; [assumption|]).
  split; [now rewrite exec_process|].
  split.
  - rewrite Htr2, Htr, Hts. unfold rounds. now rewrite flat_map_app.
  - rewrite Hg2, Hg, length_app. lia.
Qed.

(** Beside the claims (X14): [Sync] without an argument, or with true,
    turns sync mode on, and leaves what is queued where it is: the entry
    of the next call reaches the targets before the entries that were
    queued before it. *)
Theorem Sync_overtakes_queue : forall fuel (l : Logger) (level : Level) (a : list value)
    (args : list bool) (w : world) c ch (q : list Entry),
  open (core w) = true ->
  0 < level <= MaxLevel (core w) ->
  current_chan w = Some (c, ch) ->
  CBuf ch = map Some q ->
  hd true args = true ->
  let ts := Targets (core w) in
  let e := built_entry l level (fmt_Sprint a) (set_core (with_SyncMode true) w) in
  exists w1 w2,
    exec (S fuel) (Sync args ;; Log value fmt_Sprint l level a) w = Done tt w1 []
    /\ SyncMode (core w1) = true
    /\ trace w1 = trace w ++ round ts (Some e)
    /\ current_chan w1 = Some (c, ch)
    /\ exec (S (List.length q)) process w1 = Parked AtAction w2 []
    /\ trace w2 = trace w ++ round ts (Some e) ++ rounds ts q.
Proof.
  intros fuel l level a args w c ch q Ho Hl Hc Hq Hargs ts e.
  set (w0 := set_core (with_SyncMode true) w).
  assert (HS : exec (S fuel) (Sync args) w = Done tt w0 []).
  { unfold Sync. destruct args as [|b args]; [reflexivity|].
    cbn in Hargs. subst b. reflexivity. }
  assert (Hc1 : current_chan (after_sync e w0) = Some (c, ch)) by exact Hc.
  destruct (drain_entries q (S (List.length q)) (after_sync e w0) c ch Hc1 Hq)
    as (w2 & Hd & Htr2 & _); [lia|].
  exists (after_sync e w0), w2.
  split.
  - rewrite exec_bind, HS. cbn [and_then]. rewrite also_spawned_nil.
    apply exec_Log_sync; [exact Ho|reflexivity|exact Hl].
  - split; [reflexivity|]. split; [reflexivity|]. split; [exact Hc1|].
    split; [now rewrite exec_process|].
    rewrite Htr2. cbn. now rewrite <- app_assoc.
Qed.

End Order.

Section Room.

Variable value : Type.
Variable fmt_Sprint : list value -> string.

(** Beside the claims (X15): in async mode a call below Fatal never drops
    its entry.  It first counts the entry; where the channel is full it
    stays at the send with nothing placed; on an unbuffered channel it
    places the entry and stays until the dispatcher has received it;
    where the buffer has room it returns with the entry placed. *)
Theorem Log_waits_for_room : forall fuel (l : Logger) (level : Level) (a : list value)
    (w : world) c ch,
  open (core w) = true ->
  SyncMode (core w) = false ->
  0 < level <= MaxLevel (core w) ->
  current_chan w = Some (c, ch) ->
  let e := built_entry l level (fmt_Sprint a) w in
  (Z.max (CCap ch) 1 <= Z.of_nat (List.length (CBuf ch)) ->
   exec (S fuel) (Log value fmt_Sprint l level a) w = Parked AtAction (counted w) [])
  /\ (CBuf ch = [] -> CCap ch <= 0 ->
      exec (S fuel) (Log value fmt_Sprint l level a) w =
      Parked AtAction (placed c ch (Some e) (counted w)) [])
  /\ (Z.of_nat (List.length (CBuf ch)) < CCap ch ->
      exec (S fuel) (Log value fmt_Sprint l level a) w =
      Done tt (placed c ch (Some e) (counted w)) [])
  /\ goroutines (core (counted w)) = goroutines (core w) + 1.
Proof.
  intros fuel l level a w c ch Ho Hs Hl Hc e.
  rewrite (exec_Log_async value fmt_Sprint fuel l level a w c ch Ho Hs Hl Hc).
  fold e. unfold chan_room. repeat split.
  - intros H. destruct (Z.ltb_spec (Z.of_nat (List.length (CBuf ch))) (Z.max (CCap ch) 1));
      [lia|reflexivity].
  - intros Hb Hcap. rewrite Hb. cbn [List.length].
    destruct (Z.ltb_spec (Z.of_nat 0) (Z.max (CCap ch) 1)); [|lia].
    destruct (Z.ltb_spec 0 (CCap ch)); [lia|reflexivity].
  - intros H.
    destruct (Z.ltb_spec (Z.of_nat (List.length (CBuf ch))) (Z.max (CCap ch) 1)); [|lia].
    destruct (Z.ltb_spec 0 (CCap ch)); [reflexivity|lia].
Qed.

End Room.

(** ** Settings *)

Section Settings.

Variable value : Type.
Variable fmt_Sprint : list value -> string.


(** Beside the claims (X17): the action set by [SetFatalAction] is the one
    a Fatal call takes.  In sync mode, after the two passes of the
    entry: while the count is positive the call sleeps; otherwise with
    [ActionPanic] it panics with the message Fatal error., with
    [ActionExit] it passes one more entry to every target, at level Warn
    with the message Forced to exit. and no call stack, and exits with
    code -1, and with any other action it returns. *)
Theorem Fatal_takes_action : forall fuel (l : Logger) (a : list value) (act : Action)
    (w : world),
  open (core w) = true ->
  0 <= MaxLevel (core w) ->
  SyncMode (core w) = true ->
  let w1 := set_core (with_fatalAction act) w in
  let ts := Targets (core w) in
  let e := built_entry l LevelFatal (fmt_Sprint a) w1 in
  let w2 := emit (round ts (Some e) ++ round ts (Some e)) w1 in
  let bye := mkEntry LevelWarn (Category l) "Forced to exit." (wallclock w) ""
               (Formatter l (core w1) (Category l)
                  (mkEntry LevelWarn (Category l) "Forced to exit." (wallclock w) "" "")) in
  exec (S fuel) (SetFatalAction act ;; Fatal value fmt_Sprint l a) w =
  (if 0 <? goroutines (core w) then Parked AtSleep w2 []
   else if act =? ActionPanic then Crashed (Panicked "Fatal error.") w2 []
   else if act =? ActionExit then Crashed (Exited (-1)) (emit (round ts (Some bye)) w2) []
   else Done tt w2 []).
Proof.
  intros fuel l a act w Ho Hm Hs w1 ts e w2 bye.
  unfold SetFatalAction. cbn [bind store exec]. fold w1.
  unfold Fatal. rewrite exec_Log.
  change (open (core w1)) with (open (core w)). rewrite Ho.
  change (MaxLevel (core w1)) with (MaxLevel (core w)).
  replace (LevelFatal <=? MaxLevel (core w)) with true
    by (symmetry; apply Z.leb_le; exact Hm).
  cbn [andb]. unfold submit. change (LevelFatal =? LevelFatal) with true. cbv iota.
  change (SyncMode (core w1)) with (SyncMode (core w)). rewrite Hs. fold e.
  unfold after_sync. cbn [emit core]. rewrite emit_emit.
  change (Targets (core w1)) with ts. fold w2.
  unfold fatal_action.
  change (goroutines (core w2)) with (goroutines (core w)).
  change (fatalAction (core w2)) with act.
  rewrite Z.ltb_antisym.
  destruct (goroutines (core w) <=? 0); cbn [negb]; [|reflexivity].
  destruct (act =? ActionPanic); [reflexivity|].
  destruct (act =? ActionExit); reflexivity.
Qed.

(** Beside the claims (X18): a logger made by [GetLogger] logs under its
    own category, with the formatter it was given or else the one of the
    logger it was made from, on the same engine; so does a [Writer] made
    from it.  Making one with the parent's category and no formatter
    gives the parent back. *)
Theorem GetLogger_inherits : forall fuel (l : Logger) (category : string)
    (formatter : list Formatter_t) (level : Level) (a : list value) (w : world),
  open (core w) = true ->
  SyncMode (core w) = true ->
  0 < level <= MaxLevel (core w) ->
  let f := hd (Formatter l) formatter in
  let stack := render_frames (captured_frames w level) in
  let entry := fun message =>
    mkEntry level category message (wallclock w) stack
      (f (core w) category (mkEntry level category message (wallclock w) stack "")) in
  exec (S fuel) (Log value fmt_Sprint (GetLogger l category formatter) level a) w =
    Done tt (emit (round (Targets (core w)) (Some (entry (fmt_Sprint a)))) w) []
  /\ (forall p : list ascii, p <> [] ->
      exec (S fuel) (Write (Writer_of (GetLogger l category formatter) level) p) w =
      Done (Z.of_nat (List.length p), None)
        (emit (round (Targets (core w)) (Some (entry (line_of p)))) w) [])
  /\ GetLogger (GetLogger l category formatter) (Category l) [] =
     mkLogger (Category l) f
  /\ GetLogger l (Category l) [] = l.
Proof.
  intros fuel l category formatter level a w Ho Hs Hl f stack entry.
  assert (Hf : level <> LevelFatal) by (unfold LevelFatal; lia).
  split; [|split; [|split]].
  - rewrite exec_Log, Ho.
    replace (level <=? MaxLevel (core w)) with true by (symmetry; apply Z.leb_le; lia).
    cbn [andb]. unfold submit.
    destruct (Z.eqb_spec level LevelFatal) as [E|_]; [contradiction|].
    rewrite Hs. destruct formatter; reflexivity.
  - intros p Hp. rewrite exec_Write by exact Hp.
    cbn [Writer_of WLogger WLevel]. rewrite exec_newEntry_sync by assumption.
    destruct formatter; reflexivity.
  - destruct formatter; reflexivity.
  - destruct l; reflexivity.
Qed.

End Settings.

Section Formatters.

Variable Time_Format : Z -> string -> string.


End Formatters.

Section Safe.

Variable value : Type.
Variable fmt_Sprint : list value -> string.
Variable fmt_Sprintf : string -> list value -> string.


End Safe.

(** ** [Close] beside the dispatcher *)

Lemma step_CStart : forall w,
  step (closer_at CStart) w =
  Stepped (closer_at (if open (core w) then CStore else CDone)) w [].
Proof. intros w. cbn. destruct (open (core w)); reflexivity. Qed.

Lemma step_CStore : forall w,
  step (closer_at CStore) w =
  Stepped (closer_at CEntries) (set_core (with_open false) w) [].
Proof. reflexivity. Qed.

Lemma step_CEntries : forall w,
  step (closer_at CEntries) w = Stepped (closer_at (COffer (entries (core w)))) w [].
Proof. reflexivity. Qed.

Lemma step_COffer : forall c w,
  step (closer_at (COffer (Some c))) w =
  match nth_error (heap w) c with
  | Some ch =>
      if chan_room ch
      then Stepped (closer_at (CAwait (Some c) (CTaken ch + List.length (CBuf ch))))
             (set_heap (update (heap w) c
                          (mkChan (CCap ch) (CBuf ch ++ [None]) (CTaken ch))) w) []
      else Blocked
  | None => Blocked
  end.
Proof.
  intros c w. cbn. destruct (nth_error (heap w) c) as [ch|]; [|reflexivity].
  destruct (chan_room ch); reflexivity.
Qed.

Lemma step_CAwait : forall c ticket w,
  step (closer_at (CAwait (Some c) ticket)) w =
  match nth_error (heap w) c with
  | Some ch =>
      if (0 <? CCap ch) || (ticket <? CTaken ch)%nat
      then Stepped close_targets w [] else Blocked
  | None => Blocked
  end.
Proof.
  intros c ticket w. cbn [closer_at chan_await bind step].
  destruct (nth_error (heap w) c) as [ch|]; [|reflexivity].
  destruct ((0 <? CCap ch) || (ticket <? CTaken ch)%nat); reflexivity.
Qed.

Lemma grows_core : forall f w, grows w (set_core f w).
Proof. intros f w. exists []. cbn. now rewrite app_nil_r. Qed.

Lemma frames_Close_grows : frames grows Close.
Proof.
  unfold Close. apply frames_load; [apply grows_refl|]. intros o.
  destruct (negb o); [exact I|].
  cbn [bind store frames]. split.
  { intros w b w' H. inversion H. apply grows_core. }
  intros _. apply frames_load; [apply grows_refl|]. intros c.
  apply frames_bind.
  - unfold chan_send, chan_offer, chan_await. cbn [bind frames]. split.
    + intros w b w' H. destruct c as [c|]; [|discriminate].
      destruct (nth_error (heap w) c) as [ch|]; [|discriminate].
      destruct (chan_room ch); [|discriminate]. injection H as <- <-. apply grows_heap.
    + intros ticket. split; [|intros; exact I].
      intros w b w' H. destruct c as [c|]; [|discriminate].
      destruct (nth_error (heap w) c) as [ch|]; [|discriminate].
      destruct ((0 <? CCap ch) || (ticket <? CTaken ch)%nat); [|discriminate].
      inversion H. apply grows_refl.
  - intros _. apply frames_load; [apply grows_refl|]. intros ts.
    unfold target_Close. apply frames_forEach_call. apply grows_emit.
Qed.

Lemma processes_round : forall ts v, forallb is_process (round ts v) = true.
Proof. intros ts v. induction ts; simpl; auto. Qed.

Lemma processes_rounds : forall ts q, forallb is_process (rounds ts q) = true.
Proof.
  intros ts q. induction q as [|e q IH]; [reflexivity|].
  unfold rounds in *. cbn [flat_map]. rewrite forallb_app, IH, processes_round.
  reflexivity.
Qed.

Lemma processes_owed : forall ts dpc, forallb is_process (owed ts dpc) = true.
Proof. intros ts [| |c|v|v rem|]; cbn [owed]; try reflexivity; apply processes_round. Qed.

Lemma close_after_processes : forall goal rest pre t post,
  forallb is_process goal = true ->
  goal ++ rest = pre ++ TargetClose t :: post ->
  exists more, pre = goal ++ more.
Proof.
  induction goal as [|g goal IH]; intros rest pre t post Hg H.
  - exists pre. reflexivity.
  - cbn in Hg. apply andb_true_iff in Hg. destruct Hg as [Hg Hgoal].
    destruct pre as [|p pre].
    + cbn in H. injection H as -> _. discriminate.
    + cbn in H. injection H as <- H.
      destruct (IH rest pre t post Hgoal H) as (more & ->). exists more. reflexivity.
Qed.

Ltac closing_facts :=
  do 8 (split; [first [assumption|reflexivity|exact I]|]).

Lemma close_inv_step : forall ts c before goal i cfg cfg',
  close_inv ts c before goal cfg ->
  sched_step i cfg = Some cfg' ->
  close_inv ts c before goal cfg'.
Proof.
  intros ts c before goal i cfg cfg' [Hall Hcase] Hs.
  destruct (frames_sched_step grows i cfg cfg' grows_refl Hall Hs) as [Hg Hall'].
  split; [exact Hall'|].
  destruct Hcase as [(rest & Ht)|Hw].
  { left. destruct Hg as (evs & He). exists (rest ++ evs).
    rewrite He, Ht, <- !app_assoc. reflexivity. }
  clear Hg Hall Hall'.
  destruct Hw as (cpc & dpc & ch & emitted & Hd & Hth & Hrf & Hen & Hch & Hcap
                  & Hts & Htr & Hph).
  destruct cfg as [w threads down]. cbn [cdown cthreads cworld] in *.
  subst down threads. unfold sched_step in Hs. cbn [cdown cthreads cworld] in Hs.
  destruct i as [|[|i]]; cbn [nth_error] in Hs.
  - (* the closing goroutine moves *)
    destruct cpc as [| | |c'|c' ticket|].
    + rewrite step_CStart in Hs. injection Hs as <-.
      right. exists (if open (core w) then CStore else CDone), dpc, ch, emitted.
      cbn [cdown cthreads cworld update app]. closing_facts.
      destruct (open (core w)); exact Hph.
    + rewrite step_CStore in Hs. injection Hs as <-.
      right. exists CEntries, dpc, ch, emitted.
      cbn [cdown cthreads cworld update app]. closing_facts.
      exact Hph.
    + rewrite step_CEntries in Hs. injection Hs as <-.
      right. exists (COffer (entries (core w))), dpc, ch, emitted.
      cbn [cdown cthreads cworld update app]. closing_facts.
      destruct Hph as (_ & Hq). split; [exact Hen|exact Hq].
    + destruct Hph as (Hc' & q & Hq & Hgoal). cbn in Hc'. subst c'.
      rewrite step_COffer, Hch in Hs.
      destruct (chan_room ch) eqn:Hroom; [|discriminate]. injection Hs as <-.
      assert (Hq0 : q = []).
      { unfold chan_room in Hroom. rewrite Hcap, Hq, length_map in Hroom.
        apply Z.ltb_lt in Hroom. destruct q; [reflexivity|cbn in Hroom; lia]. }
      subst q. cbn [map] in Hq.
      right. exists (CAwait (Some c) (CTaken ch + List.length (CBuf ch))), dpc,
               (mkChan (CCap ch) (CBuf ch ++ [None]) (CTaken ch)), emitted.
      cbn [cdown cthreads cworld update app set_heap core heap trace].
      rewrite (nth_error_update_same _ _ _ _ _ Hch).
      closing_facts.
      cbn [CBuf CTaken]. rewrite Hq. cbn [List.length app].
      split; [reflexivity|]. split; [reflexivity|]. split; [lia|].
      rewrite <- Hgoal. cbn. now rewrite app_nil_r.
    + destruct Hph as (-> & Hbuf & -> & Hgoal).
      rewrite step_CAwait, Hch, Hcap in Hs. rewrite Nat.ltb_irrefl in Hs.
      discriminate.
    + discriminate.
  - (* the dispatcher moves *)
    destruct dpc as [| |c'|v|v rem|].
    + rewrite step_DLoop in Hs. injection Hs as <-.
      right. exists cpc, DEntries, ch, emitted.
      cbn [cdown cthreads cworld update app]. closing_facts.
      destruct cpc; exact Hph.
    + rewrite step_DEntries in Hs. injection Hs as <-.
      right. exists cpc, (DRecv (entries (core w))), ch, emitted.
      cbn [cdown cthreads cworld update app]. closing_facts.
      destruct cpc; exact Hph.
    + cbn in Hrf. subst c'. rewrite step_DRecv, Hch in Hs.
      destruct (CBuf ch) as [|v rest] eqn:Hbuf; [discriminate|]. injection Hs as <-.
      destruct cpc as [| | |c'|c' ticket|].
      5:{ (* the nil entry of the closing goroutine is received *)
          destruct Hph as (_ & Hb & _ & Hgoal). left. exists [].
          cbn [cworld set_heap trace]. rewrite Htr, app_nil_r. f_equal.
          rewrite <- Hgoal. cbn. now rewrite app_nil_r. }
      all: destruct Hph as (Hbo & q & Hq & Hgoal);
        destruct q as [|e q]; [discriminate|]; cbn [map] in Hq;
        injection Hq as -> ->;
        right;
        match goal with
        | |- closing _ _ _ _ (mkConfig _ [closer_at ?pc; _] _) =>
            exists pc, (DTargets (Some e)),
              (mkChan (CCap ch) (map Some q) (S (CTaken ch))), emitted
        end;
        cbn [cdown cthreads cworld update app set_heap core heap trace];
        rewrite (nth_error_update_same _ _ _ _ _ Hch);
        closing_facts;
        (split; [exact Hbo|]); exists q; split; [reflexivity|exact Hgoal].
    + rewrite step_DTargets in Hs. injection Hs as <-.
      right. exists cpc, (DEach v (Targets (core w))), ch, emitted.
      cbn [cdown cthreads cworld update app]. rewrite Hts.
      closing_facts.
      destruct cpc; exact Hph.
    + destruct rem as [|t rem].
      * rewrite step_DEach_nil in Hs. injection Hs as <-.
        right. exists cpc, (match v with Some _ => DLoop | None => DEnd end), ch, emitted.
        cbn [cdown cthreads cworld update app set_core core heap trace with_goroutines
             goroutines entries Targets].
        split; [reflexivity|]. split; [reflexivity|].
        split; [destruct v; exact I|].
        do 5 (split; [assumption|]).
        cbn [owed] in Hph. cbn [round map] in Hph.
        destruct cpc; destruct v; exact Hph.
      * rewrite step_DEach_cons in Hs. injection Hs as <-.
        right. exists cpc, (DEach v rem), ch, (emitted ++ [TargetProcess t v]).
        cbn [cdown cthreads cworld update app emit core heap trace].
        do 7 (split; [first [assumption|reflexivity|exact I]|]).
        split; [rewrite Htr; now rewrite app_assoc|].
        cbn [owed round map] in Hph |- *.
        destruct cpc;
          try (destruct Hph as (Hbo & q & Hq & Hgoal); split; [exact Hbo|];
               exists q; split; [exact Hq|];
               rewrite <- Hgoal, <- app_assoc; reflexivity).
        destruct Hph as (Hc' & Hbuf & Htk & Hgoal).
        do 3 (split; [assumption|]).
        rewrite <- Hgoal, <- app_assoc. reflexivity.
    + discriminate.
  - destruct i; discriminate.
Qed.

Lemma close_inv_run : forall ts c before goal sched cfg cfg',
  close_inv ts c before goal cfg ->
  run sched cfg = Some cfg' ->
  close_inv ts c before goal cfg'.
Proof.
  intros ts c before goal sched; induction sched as [|i sched IH];
    intros cfg cfg' Hinv Hrun; cbn [run] in Hrun.
  - injection Hrun as <-. exact Hinv.
  - destruct (sched_step i cfg) as [cfg1|] eqn:Hs; [|discriminate].
    eapply IH; [|exact Hrun]. eapply close_inv_step; eauto.
Qed.

(** Beside the claims (X21): on an unbuffered channel [Close] does wait.
    Under every schedule of a goroutine in [Close] and the dispatcher,
    whenever a target has been closed, the targets had been passed
    before that everything the dispatcher owed them and everything
    queued when [Close] was called. *)
Theorem Close_unbuffered_waits : forall (w : world) c ch (q : list Entry) dpc sched cfg
    pre t post,
  entries (core w) = Some c ->
  nth_error (heap w) c = Some ch ->
  CCap ch = 0 ->
  CBuf ch = map Some q ->
  reads_from c dpc ->
  run sched (mkConfig w [Close; dispatcher_at dpc] None) = Some cfg ->
  trace (cworld cfg) = trace w ++ pre ++ TargetClose t :: post ->
  exists more,
    pre = owed (Targets (core w)) dpc ++ rounds (Targets (core w)) q ++ more.
Proof.
  intros w c ch q dpc sched cfg pre t post Hen Hch Hcap Hq Hrf Hrun Htr.
  set (ts := Targets (core w)).
  assert (Hgoal : forallb is_process (owed ts dpc ++ rounds ts q) = true).
  { now rewrite forallb_app, processes_owed, processes_rounds. }
  assert (Hinv : close_inv ts c (trace w) (owed ts dpc ++ rounds ts q)
                   (mkConfig w [Close; dispatcher_at dpc] None)).
  { split.
    - constructor; [|constructor; [|constructor]].
      + apply frames_Close_grows.
      + apply frames_dispatcher_at;
          auto using grows_refl, grows_heap, grows_emit, grows_count.
    - right. exists CStart, dpc, ch, []. cbn [cdown cthreads cworld closer_at].
      do 7 (split; [first [assumption|reflexivity]|]).
      split; [now rewrite app_nil_r|]. split; [exact I|].
      exists q. split; [exact Hq|reflexivity]. }
  apply (close_inv_run _ _ _ _ _ _ _ Hinv) in Hrun.
  destruct Hrun as [_ [(rest & Ht)|Hw]].
  - rewrite Ht in Htr. apply app_inv_head in Htr.
    destruct (close_after_processes _ _ _ _ _ Hgoal Htr) as (more & ->).
    exists more. now rewrite <- app_assoc.
  - exfalso.
    destruct Hw as (cpc & dpc' & ch' & emitted & _ & _ & _ & _ & _ & _ & _ & Htr' & Hph).
    rewrite Htr' in Htr. apply app_inv_head in Htr.
    assert (He : exists tail, forallb is_process (emitted ++ tail) = true).
    { destruct cpc; destruct Hph as (? & ? & ? & Hg'); rewrite <- Hg' in Hgoal;
        eexists; exact Hgoal. }
    destruct He as (tail & He). rewrite Htr, forallb_app in He.
    apply andb_true_iff in He. destruct He as [He _].
    rewrite forallb_app in He. apply andb_true_iff in He. destruct He as [_ He].
    cbn in He. discriminate.
Qed.

(** ** A logging call beside the dispatcher *)

Lemma step_SCount : forall e w,
  step (sender_at e SCount) w =
  Stepped (sender_at e SEntries)
    (set_core (fun c => with_goroutines (goroutines c + 1) c) w) [].
Proof. reflexivity. Qed.

Lemma step_SEntries : forall e w,
  step (sender_at e SEntries) w = Stepped (sender_at e (SOffer (entries (core w)))) w [].
Proof. reflexivity. Qed.

Lemma step_SOffer : forall e c w,
  step (sender_at e (SOffer (Some c))) w =
  match nth_error (heap w) c with
  | Some ch =>
      if chan_room ch
      then Stepped (sender_at e (SAwait (Some c) (CTaken ch + List.length (CBuf ch))))
             (set_heap (update (heap w) c
                          (mkChan (CCap ch) (CBuf ch ++ [Some e]) (CTaken ch))) w) []
      else Blocked
  | None => Blocked
  end.
Proof.
  intros e c w. cbn. destruct (nth_error (heap w) c) as [ch|]; [|reflexivity].
  destruct (chan_room ch); reflexivity.
Qed.

Lemma step_SAwait : forall e c ticket w,
  step (sender_at e (SAwait (Some c) ticket)) w =
  match nth_error (heap w) c with
  | Some ch =>
      if (0 <? CCap ch) || (ticket <? CTaken ch)%nat
      then Stepped (sender_at e SDone) w [] else Blocked
  | None => Blocked
  end.
Proof.
  intros e c ticket w. cbn [sender_at chan_await bind step].
  destruct (nth_error (heap w) c) as [ch|]; [|reflexivity].
  destruct ((0 <? CCap ch) || (ticket <? CTaken ch)%nat); reflexivity.
Qed.

Lemma rounds_snoc : forall ts q e,
  rounds ts (q ++ [e]) = rounds ts q ++ round ts (Some e).
Proof.
  intros ts q e. unfold rounds. rewrite flat_map_app. cbn. now rewrite app_nil_r.
Qed.

Lemma same_settings_refl : forall w, same_settings w w.
Proof.
  intros w. split; [reflexivity|]. split; [reflexivity|].
  exists (goroutines (core w)). now destruct (core w).
Qed.

Lemma same_settings_heap : forall w0 w h,
  same_settings w0 w -> same_settings w0 (set_heap h w).
Proof. intros w0 w h H. exact H. Qed.

Lemma same_settings_emit : forall w0 w evs,
  same_settings w0 w -> same_settings w0 (emit evs w).
Proof. intros w0 w evs H. exact H. Qed.

Lemma same_settings_count : forall w0 w f,
  same_settings w0 w ->
  same_settings w0 (set_core (fun c => with_goroutines (f c) c) w).
Proof.
  intros w0 w f (Hc & Hr & g & Hg). split; [exact Hc|]. split; [exact Hr|].
  exists (f (core w)). cbn. rewrite Hg. reflexivity.
Qed.

(** One step of the dispatcher. *)
Lemma serving_step : forall ts c passed goal slack w0 w dpc p' w' sp,
  serving ts c passed goal slack w dpc ->
  same_settings w0 w ->
  step (dispatcher_at dpc) w = Stepped p' w' sp ->
  sp = []
  /\ same_settings w0 w'
  /\ exists dpc' new,
       p' = dispatcher_at dpc'
       /\ trace w' = trace w ++ new
       /\ serving ts c (passed ++ new) goal slack w' dpc'.
Proof.
  intros ts c passed goal slack w0 w dpc p' w' sp
    (ch & q & Hrf & Hen & Hch & Hq & Hts & Hgoal & Hcnt) Hsame Hs.
  destruct dpc as [| |c'|v|v rem|].
  - rewrite step_DLoop in Hs. injection Hs as <- <- <-.
    split; [reflexivity|]. split; [exact Hsame|]. exists DEntries, [].
    rewrite !app_nil_r. split; [reflexivity|]. split; [reflexivity|].
    exists ch, q. auto 10.
  - rewrite step_DEntries in Hs. injection Hs as <- <- <-.
    split; [reflexivity|]. split; [exact Hsame|].
    exists (DRecv (entries (core w))), [].
    rewrite !app_nil_r. split; [reflexivity|]. split; [reflexivity|].
    exists ch, q. cbn [reads_from]. auto 10.
  - cbn in Hrf. subst c'. rewrite step_DRecv, Hch, Hq in Hs.
    destruct q as [|e q]; [discriminate|]. cbn [map] in Hs. injection Hs as <- <- <-.
    split; [reflexivity|]. split; [exact Hsame|]. exists (DTargets (Some e)), [].
    rewrite !app_nil_r. split; [reflexivity|]. split; [reflexivity|].
    exists (mkChan (CCap ch) (map Some q) (S (CTaken ch))), q.
    cbn [set_heap core heap trace]. rewrite (nth_error_update_same _ _ _ _ _ Hch).
    cbn [reads_from CBuf]. do 6 (split; [first [assumption|reflexivity|exact I]|]).
    rewrite Hcnt. cbn [in_hand List.length]. lia.
  - rewrite step_DTargets in Hs. injection Hs as <- <- <-.
    split; [reflexivity|]. split; [exact Hsame|].
    exists (DEach v (Targets (core w))), [].
    rewrite !app_nil_r. split; [reflexivity|]. split; [reflexivity|].
    exists ch, q. rewrite Hts. cbn [reads_from]. auto 10.
  - destruct rem as [|t rem].
    + rewrite step_DEach_nil in Hs. injection Hs as <- <- <-.
      split; [reflexivity|].
      split; [apply (same_settings_count w0 w (fun c => goroutines c - 1) Hsame)|].
      exists (match v with Some _ => DLoop | None => DEnd end), [].
      rewrite !app_nil_r. split; [reflexivity|]. split; [reflexivity|].
      exists ch, q.
      cbn [set_core core heap trace with_goroutines entries Targets goroutines].
      split; [destruct v; exact I|]. do 4 (split; [assumption|]).
      split; [rewrite <- Hgoal; destruct v; reflexivity|].
      rewrite Hcnt. cbn [in_hand]. destruct v; cbn [in_hand]; lia.
    + rewrite step_DEach_cons in Hs. injection Hs as <- <- <-.
      split; [reflexivity|]. split; [exact Hsame|].
      exists (DEach v rem), [TargetProcess t v].
      split; [reflexivity|]. split; [reflexivity|].
      exists ch, q. cbn [emit core heap trace reads_from].
      do 5 (split; [first [assumption|exact I]|]).
      split; [|exact Hcnt].
      rewrite <- Hgoal. cbn [owed round map]. now rewrite <- app_assoc.
  - discriminate.
Qed.

(** The dispatcher on its own neither finishes with an error nor brings
    the process down. *)
Lemma dispatcher_not_halted : forall dpc w cr,
  step (dispatcher_at dpc) w = Halted cr -> False.
Proof.
  intros [| |c'|v|v rem|] w cr Hst; try discriminate.
  - cbn in Hst. destruct c' as [c'|]; [|discriminate].
    destruct (nth_error (heap w) c') as [ch|]; [|discriminate].
    destruct (CBuf ch); discriminate.
  - destruct rem; [destruct v|]; discriminate.
Qed.

Lemma serving_counted : forall ts c passed goal slack w dpc,
  serving ts c passed goal slack w dpc ->
  serving ts c passed goal (slack + 1)
    (set_core (fun k => with_goroutines (goroutines k + 1) k) w) dpc.
Proof.
  intros ts c passed goal slack w dpc (ch & q & H). exists ch, q.
  cbn [set_core core heap trace with_goroutines entries Targets goroutines].
  destruct H as (H1 & H2 & H3 & H4 & H5 & H6 & H7).
  do 6 (split; [assumption|]). lia.
Qed.

Lemma serving_placed : forall ts c passed goal slack w dpc ch e,
  serving ts c passed goal (slack + 1) w dpc ->
  nth_error (heap w) c = Some ch ->
  serving ts c passed (goal ++ round ts (Some e)) slack
    (set_heap (update (heap w) c (mkChan (CCap ch) (CBuf ch ++ [Some e]) (CTaken ch))) w)
    dpc.
Proof.
  intros ts c passed goal slack w dpc ch e
    (ch' & q & Hrf & Hen & Hch & Hq & Hts & Hgoal & Hcnt) Hc.
  rewrite Hch in Hc. injection Hc as <-.
  exists (mkChan (CCap ch') (CBuf ch' ++ [Some e]) (CTaken ch')), (q ++ [e]).
  cbn [set_heap core heap trace]. rewrite (nth_error_update_same _ _ _ _ _ Hch).
  do 3 (split; [first [assumption|reflexivity]|]).
  split; [cbn [CBuf]; rewrite Hq, map_app; reflexivity|].
  split; [assumption|].
  split; [rewrite rounds_snoc, <- Hgoal, <- !app_assoc; reflexivity|].
  rewrite Hcnt, length_app. cbn [List.length]. lia.
Qed.

(** One step of the caller in its send. *)
Lemma sender_step : forall ts c passed goal slack w0 w dpc e spc p' w' sp,
  sends_on c spc ->
  serving ts c passed (goal ++ handed ts e spc) (slack + pending spc) w dpc ->
  same_settings w0 w ->
  step (sender_at e spc) w = Stepped p' w' sp ->
  sp = []
  /\ same_settings w0 w'
  /\ trace w' = trace w
  /\ exists spc',
       p' = sender_at e spc'
       /\ sends_on c spc'
       /\ serving ts c passed (goal ++ handed ts e spc') (slack + pending spc') w' dpc.
Proof.
  intros ts c passed goal slack w0 w dpc e spc p' w' sp Hso Hserv Hsame Hs.
  destruct spc as [| |c'|c' ticket|].
  - rewrite step_SCount in Hs. injection Hs as <- <- <-.
    split; [reflexivity|].
    split; [apply (same_settings_count w0 w (fun c => goroutines c + 1) Hsame)|].
    split; [reflexivity|].
    exists SEntries. do 2 (split; [first [reflexivity|exact I]|]).
    cbn [handed pending] in Hserv |- *. rewrite Z.add_0_r in Hserv.
    now apply serving_counted.
  - rewrite step_SEntries in Hs. injection Hs as <- <- <-.
    split; [reflexivity|]. split; [exact Hsame|]. split; [reflexivity|].
    exists (SOffer (entries (core w))). split; [reflexivity|].
    split; [|exact Hserv].
    destruct Hserv as (ch & q & _ & Hen & _). exact Hen.
  - cbn in Hso. subst c'. rewrite step_SOffer in Hs.
    destruct (nth_error (heap w) c) as [ch|] eqn:Hch; [|discriminate].
    destruct (chan_room ch); [|discriminate]. injection Hs as <- <- <-.
    split; [reflexivity|]. split; [exact Hsame|]. split; [reflexivity|].
    exists (SAwait (Some c) (CTaken ch + List.length (CBuf ch))).
    do 2 (split; [reflexivity|]).
    cbn [handed pending] in Hserv |- *. rewrite app_nil_r in Hserv.
    rewrite Z.add_0_r. now apply serving_placed.
  - cbn in Hso. subst c'. rewrite step_SAwait in Hs.
    destruct (nth_error (heap w) c) as [ch|] eqn:Hch; [|discriminate].
    destruct ((0 <? CCap ch) || (ticket <? CTaken ch)%nat); [|discriminate].
    injection Hs as <- <- <-.
    split; [reflexivity|]. split; [exact Hsame|]. split; [reflexivity|].
    exists SDone. do 2 (split; [first [reflexivity|exact I]|]). exact Hserv.
  - discriminate.
Qed.

Lemma sender_not_halted : forall e spc w cr,
  step (sender_at e spc) w = Halted cr -> False.
Proof.
  intros e [| |c'|c' ticket|] w cr Hst; try discriminate.
  - cbn in Hst. destruct c' as [c'|]; [|discriminate].
    destruct (nth_error (heap w) c') as [ch|]; [|discriminate].
    destruct (chan_room ch); discriminate.
  - cbn [sender_at chan_await step] in Hst. destruct c' as [c'|]; [|discriminate].
    destruct (nth_error (heap w) c') as [ch|]; [|discriminate].
    destruct ((0 <? CCap ch) || (ticket <? CTaken ch)%nat); discriminate.
Qed.

(** One step of a goroutine that is reading. *)
Lemma reading_step : forall (I : world -> Prop) (Q : prog unit -> Prop) p w,
  reading I Q p ->
  I w ->
  Q p \/ exists p', step p w = Stepped p' w [] /\ reading I Q p'.
Proof.
  intros I Q p w Hread Hw. destruct p; cbn [reading] in Hread;
    destruct Hread as [HQ|Hact]; auto; try contradiction.
  right. destruct (Hact w Hw) as (b & Hf & Hk).
  exists (k b). cbn [step]. rewrite Hf. auto.
Qed.

Lemma logging_step : forall l level message w0 ts c goal slack i cfg cfg',
  logging l level message w0 ts c goal slack cfg ->
  sched_step i cfg = Some cfg' ->
  logging l level message w0 ts c goal slack cfg'.
Proof.
  intros l level message w0 ts c goal slack i cfg cfg'
    (Hd & Hsame & p & dpc & passed & Hth & Htr & Hcase) Hs.
  destruct cfg as [w threads down]. cbn [cdown cthreads cworld] in *.
  subst down threads. unfold sched_step in Hs. cbn [cdown cthreads cworld] in Hs.
  destruct i as [|[|i]]; cbn [nth_error] in Hs.
  - (* the caller moves *)
    destruct Hcase as [[Hread Hserv]|(e & spc & He & -> & Hso & Hserv)].
    + destruct (reading_step _ _ p w Hread Hsame) as [(e & He & ->)|(p' & Hst & Hread')].
      * change (async_send e) with (sender_at e SCount) in Hs.
        assert (Hserv0 : serving ts c passed (goal ++ handed ts e SCount)
                           (slack + pending SCount) w dpc).
        { cbn [handed pending]. now rewrite app_nil_r, Z.add_0_r. }
        destruct (step (sender_at e SCount) w) as [x|p' w' sp| |cr] eqn:Hst;
          try discriminate.
        injection Hs as <-.
        destruct (sender_step ts c passed goal slack w0 w dpc e SCount p' w' sp I Hserv0
                    Hsame Hst)
          as (-> & Hsame' & Htr' & spc' & -> & Hso' & Hserv').
        split; [reflexivity|]. split; [exact Hsame'|].
        exists (sender_at e spc'), dpc, passed. split; [reflexivity|].
        split; [cbn [cworld]; congruence|]. right. exists e, spc'. auto.
      * rewrite Hst in Hs. injection Hs as <-.
        split; [reflexivity|]. split; [exact Hsame|].
        exists p', dpc, passed. split; [reflexivity|]. split; [exact Htr|].
        left. split; assumption.
    + destruct (step (sender_at e spc) w) as [x|p' w' sp| |cr] eqn:Hst;
        try discriminate.
      * injection Hs as <-.
        destruct (sender_step _ _ _ _ _ w0 _ _ _ _ _ _ _ Hso Hserv Hsame Hst)
          as (-> & Hsame' & Htr' & spc' & -> & Hso' & Hserv').
        split; [reflexivity|]. split; [exact Hsame'|].
        exists (sender_at e spc'), dpc, passed. split; [reflexivity|].
        split; [cbn [cworld]; congruence|]. right. exists e, spc'. auto.
      * exfalso. eapply sender_not_halted. exact Hst.
  - (* the dispatcher moves *)
    destruct (step (dispatcher_at dpc) w) as [x|p' w' sp| |cr] eqn:Hst; try discriminate.
    + injection Hs as <-.
      destruct Hcase as [[Hread Hserv]|(e & spc & He & -> & Hso & Hserv)].
      * destruct (serving_step _ _ _ _ _ w0 _ _ _ _ _ Hserv Hsame Hst)
          as (-> & Hsame' & dpc' & new & -> & Htr' & Hserv').
        split; [reflexivity|]. split; [exact Hsame'|].
        exists p, dpc', (passed ++ new). split; [reflexivity|].
        split; [cbn [cworld]; rewrite Htr', Htr; now rewrite app_assoc|].
        left. split; assumption.
      * destruct (serving_step _ _ _ _ _ w0 _ _ _ _ _ Hserv Hsame Hst)
          as (-> & Hsame' & dpc' & new & -> & Htr' & Hserv').
        split; [reflexivity|]. split; [exact Hsame'|].
        exists (sender_at e spc), dpc', (passed ++ new). split; [reflexivity|].
        split; [cbn [cworld]; rewrite Htr', Htr; now rewrite app_assoc|].
        right. exists e, spc. auto.
    + exfalso. eapply dispatcher_not_halted. exact Hst.
  - destruct i; discriminate.
Qed.

Lemma logging_run : forall l level message w0 ts c goal slack sched cfg cfg',
  logging l level message w0 ts c goal slack cfg ->
  run sched cfg = Some cfg' ->
  logging l level message w0 ts c goal slack cfg'.
Proof.
  intros l level message w0 ts c goal slack sched;
    induction sched as [|i sched IH];
    intros cfg cfg' Hinv Hrun; cbn [run] in Hrun.
  - injection Hrun as <-. exact Hinv.
  - destruct (sched_step i cfg) as [cfg1|] eqn:Hs; [|discriminate].
    eapply IH; [|exact Hrun]. eapply logging_step; eauto.
Qed.

Ltac a_read :=
  right;
  let w := fresh "w" in let Hc := fresh "Hc" in let Hr := fresh "Hr" in
  let g := fresh "g" in let Hg := fresh "Hg" in
  intros w (Hc & Hr & g & Hg);
  eexists; split; [reflexivity|];
  rewrite ?Hc, ?Hr, ?Hg;
  cbn [core MaxLevel open CallStackDepth CallStackFilter SyncMode with_goroutines].

Section LogBeside.

Variable value : Type.
Variable fmt_Sprint : list value -> string.

Lemma newEntry_reading : forall (l : Logger) (level : Level) (message : string) (w0 : world),
  SyncMode (core w0) = false ->
  level <> LevelFatal ->
  reading (same_settings w0) (about_to_send l level message w0)
    (newEntry l level message).
Proof.
  intros l level message w0 Hs Hl. unfold newEntry.
  destruct (Z.eqb_spec level LevelFatal) as [E|_]; [contradiction|].
  cbn [bind time_Now load reading]. a_read.
  cbn [bind load reading]. a_read.
  pose proof (built_stack_plain (set_core (with_goroutines 0) w0) level Hl) as Hstack.
  cbn [set_core core CallStackDepth CallStackFilter with_goroutines callers] in Hstack.
  destruct (0 <? CallStackDepth (core w0)).
  - cbn [bind load runtime_Callers reading]. a_read.
    cbn [bind load runtime_Callers reading]. a_read.
    cbn [bind load runtime_Callers reading]. a_read.
    cbn [bind load reading]. a_read.
    cbn [bind load reading]. a_read. rewrite Hs.
    left. eexists. split; [|reflexivity].
    match goal with
    | |- context [Formatter l (with_goroutines ?g' _)] =>
        exists g'; unfold built_entry;
        change (captured_frames (set_core (with_goroutines g') w0) level)
          with (captured_frames (set_core (with_goroutines 0) w0) level)
    end.
    rewrite <- Hstack. reflexivity.
  - cbn [bind load reading]. a_read.
    cbn [bind load reading]. a_read. rewrite Hs.
    left. eexists. split; [|reflexivity].
    match goal with
    | |- context [Formatter l (with_goroutines ?g' _)] =>
        exists g'; unfold built_entry;
        change (captured_frames (set_core (with_goroutines g') w0) level)
          with (captured_frames (set_core (with_goroutines 0) w0) level)
    end.
    rewrite <- Hstack. reflexivity.
Qed.

Lemma Log_reading : forall (l : Logger) (level : Level) (a : list value) (w0 : world),
  open (core w0) = true ->
  SyncMode (core w0) = false ->
  0 < level <= MaxLevel (core w0) ->
  reading (same_settings w0) (about_to_send l level (fmt_Sprint a) w0)
    (Log value fmt_Sprint l level a).
Proof.
  intros l level a w0 Ho Hs Hl. unfold Log.
  cbn [bind load reading]. a_read.
  replace (MaxLevel (core w0) <? level) with false by (symmetry; apply Z.ltb_ge; lia).
  cbn [bind load reading]. a_read. rewrite Ho. cbn [negb].
  apply newEntry_reading; [exact Hs|]. unfold LevelFatal. lia.
Qed.

(** Beside the claims (X22): nothing is lost and nothing overtakes.
    Under every schedule of a call of [Log] below Fatal in async mode
    and the dispatcher, once the call has returned: what the targets have
    been passed, then what the dispatcher owes them, then what is
    queued, is what was owed and queued at the start followed by the
    entry of the call. *)
Theorem Log_keeps_order : forall (l : Logger) (level : Level) (a : list value)
    (w : world) c ch (q : list Entry) dpc sched cfg,
  open (core w) = true ->
  SyncMode (core w) = false ->
  0 < level <= MaxLevel (core w) ->
  entries (core w) = Some c ->
  nth_error (heap w) c = Some ch ->
  CBuf ch = map Some q ->
  reads_from c dpc ->
  run sched (mkConfig w [Log value fmt_Sprint l level a; dispatcher_at dpc] None)
    = Some cfg ->
  nth_error (cthreads cfg) 0 = Some (Ret tt) ->
  let ts := Targets (core w) in
  exists e dpc' ch' q' passed,
    ELevel e = level /\ EMessage e = fmt_Sprint a /\ ECategory e = Category l
    /\ ECallStack e = render_frames (captured_frames w level)
    /\ cthreads cfg = [Ret tt; dispatcher_at dpc']
    /\ nth_error (heap (cworld cfg)) c = Some ch'
    /\ CBuf ch' = map Some q'
    /\ trace (cworld cfg) = trace w ++ passed
    /\ passed ++ owed ts dpc' ++ rounds ts q' =
       owed ts dpc ++ rounds ts q ++ round ts (Some e).
Proof.
  intros l level a w c ch q dpc sched cfg Ho Hs Hl Hen Hch Hq Hrf Hrun Hret ts.
  set (slack := goroutines (core w) - Z.of_nat (in_hand dpc + List.length q)).
  assert (Hinv : logging l level (fmt_Sprint a) w ts c
                   (owed ts dpc ++ rounds ts q) slack
                   (mkConfig w [Log value fmt_Sprint l level a; dispatcher_at dpc] None)).
  { split; [reflexivity|]. split; [apply same_settings_refl|].
    exists (Log value fmt_Sprint l level a), dpc, [].
    split; [reflexivity|]. split; [cbn [cworld]; now rewrite app_nil_r|]. left.
    split; [now apply Log_reading|].
    exists ch, q. cbn [cworld app].
    do 6 (split; [first [assumption|reflexivity]|]). unfold slack. lia. }
  apply (logging_run _ _ _ _ _ _ _ _ _ _ _ Hinv) in Hrun.
  destruct Hrun as (_ & _ & p & dpc' & passed & Hth & Htr & Hcase).
  rewrite Hth in Hret. cbn in Hret. injection Hret as ->.
  destruct Hcase as [[Hread _]|(e & spc & (g & He) & Hp & _ & Hserv)].
  - exfalso. cbn in Hread. destruct Hread as [(e & _ & Hp)|[]]. discriminate.
  - destruct spc; try discriminate.
    destruct Hserv as (ch' & q' & _ & _ & Hch' & Hq' & _ & Hgoal & _).
    exists e, dpc', ch', q', passed. subst e. cbn [handed] in Hgoal.
    rewrite <- app_assoc in Hgoal.
    do 8 (split; [assumption || reflexivity|]). exact Hgoal.
Qed.

End LogBeside.

(** ** A Fatal call beside the dispatcher *)









Section FatalBeside.

Variable value : Type.
Variable fmt_Sprint : list value -> string.


End FatalBeside.







Section FatalInv.

Variable value : Type.
Variable fmt_Sprint : list value -> string.


End FatalInv.


Lemma fatal_phase_emit : forall ts c goal slack e pc mine passed w dpc evs,
  fatal_phase ts c goal slack e pc mine passed w dpc ->
  fatal_phase ts c goal slack e pc mine passed (emit evs w) dpc.
Proof. intros ts c goal slack e pc mine passed w dpc evs H. exact H. Qed.




Section FatalDrains.

Variable value : Type.
Variable fmt_Sprint : list value -> string.


End FatalDrains.

(** ** Dispatchers after a change of channel *)






(** ** Instances *)




(** C7 at work. *)
Lemma Close_twice_sync_world :
  exec 0 (Close ;; Close) sync_world = exec 0 Close sync_world.
Proof. exact (proj1 (Close_twice 0 sync_world)). Defined.

(** C8 at work: both calls return on an open engine whose channel has
    room. *)
Lemma SetTarget_AddTarget_return :
  (exists w' sp, exec 0 (SetTarget [console]) sync_world = Done tt w' sp)
  /\ (exists w' sp, exec 0 (AddTarget [console]) sync_world = Done tt w' sp).
Proof.
  apply (SetTarget_AddTarget_reopen 0 [console] sync_world).
  - reflexivity.
  - intros _. exists 0%nat, (mkChan 1024 [] 0).
    repeat split; reflexivity.
Defined.

(** C9 at work. *)
Lemma GetLevel_first_letter_info :
  GetLevel "info" = GetLevel_by_first_letter "info".
Proof. apply (proj1 GetLevel_first_letter_only "info"). reflexivity. Defined.

(** C10 at work: a line with its newline. *)
Lemma Write_nonempty_line :
  exec 1 (Write (mkLoggerWriter LevelInfo demo_logger) ["h"; "i"; ascii_of_nat 10]%char)
    sync_world =
  Done (3, None)
    (after_sync (built_entry demo_logger LevelInfo "hi" sync_world) sync_world) [].
Proof.
  apply (Write_nonempty 0 (mkLoggerWriter LevelInfo demo_logger)
           ["h"; "i"; ascii_of_nat 10]%char sync_world).
  - discriminate.
  - vm_compute. discriminate.
  - reflexivity.
Defined.

(** The dispatcher at work on a queue of one entry. *)
Lemma process_in_queue_order_one :
  exists w',
    exec 2 process async_world = Parked AtAction w' []
    /\ trace w' = trace async_world ++ rounds [mem] [info_entry "a"]
    /\ goroutines (core w') = goroutines (core async_world) - 1.
Proof.
  apply (process_in_queue_order [info_entry "a"] 2 async_world 0
           (mkChan 1024 [Some (info_entry "a")] 0)).
  - reflexivity.
  - simpl. lia.
  - reflexivity.
Defined.

(** A write at Debug level on an engine that is not open. *)
Lemma Write_skips_gate_closed :
  exec 0 (Write (mkLoggerWriter LevelDebug demo_logger) ["x"]%char)
    (set_core (with_open false) sync_world) =
  Done (1, None)
    (emit (round [mem]
             (Some (built_entry demo_logger LevelDebug "x"
                      (set_core (with_open false) sync_world))))
       (set_core (with_open false) sync_world)) [].
Proof.
  apply (Write_skips_gate 0 (mkLoggerWriter LevelDebug demo_logger) ["x"]%char
           (set_core (with_open false) sync_world)).
  - discriminate.
  - vm_compute. discriminate.
  - reflexivity.
Defined.

(** The final loop beside the dispatcher, on a queue of one entry. *)
Lemma fatal_wait_flushes_one :
  exists rest,
    trace (cworld flush_final) =
    trace async_world ++ owed [mem] DLoop ++ rounds [mem] [info_entry "a"] ++ rest.
Proof.
  apply (fatal_wait_flushes demo_logger async_world 0
           (mkChan 1024 [Some (info_entry "a")] 0) [info_entry "a"] DLoop
           flush_schedule flush_final).
  - reflexivity.
  - reflexivity.
  - reflexivity.
  - exact I.
  - vm_compute. discriminate.
  - vm_compute. reflexivity.
  - right. vm_compute. reflexivity.
Defined.

(** Two frames of the logger's own file, from the fourth frame on. *)
Lemma GetCallStack_selects_two :
  GetCallStack (callers sync_world) 3 2 "logger" =
  render_frames
    (firstn 2 (List.filter (accepted "logger") (skipn 3 (callers sync_world)))).
Proof.
  apply (GetCallStack_selects (callers sync_world) 3 2 "logger"). lia.
Defined.

(** One frame, then two. *)
Lemma GetCallStack_extends_one :
  exists more,
    GetCallStack (callers sync_world) 3 2 "" =
    (GetCallStack (callers sync_world) 3 1 "" ++ more)%string.
Proof. apply (GetCallStack_extends (callers sync_world) 3 1 2 ""). lia. Defined.

(** Two calls in sync mode. *)
Lemma sync_calls_in_order_two :
  exec 1 (log_each string demo_Sprint demo_logger two_calls) sync_world =
  Done tt
    (emit (rounds [mem]
             (map (fun c => built_entry demo_logger (fst c) (demo_Sprint (snd c)) sync_world)
                two_calls)) sync_world) [].
Proof.
  apply (sync_calls_in_order string demo_Sprint 0 demo_logger two_calls sync_world).
  - reflexivity.
  - reflexivity.
  - repeat constructor; vm_compute; discriminate.
Defined.

(** Two calls in async mode behind a queued entry. *)
Lemma async_calls_in_order_two :
  exists es w1 w2,
    exec 1 (log_each string demo_Sprint demo_logger two_calls) async_world = Done tt w1 []
    /\ map ELevel es = map fst two_calls
    /\ map EMessage es = map (fun c => demo_Sprint (snd c)) two_calls
    /\ current_chan w1 =
       Some (0%nat, mkChan 1024 (map Some ([info_entry "a"] ++ es)) 0)
    /\ goroutines (core w1) = goroutines (core async_world) + 2
    /\ trace w1 = trace async_world
    /\ exec 4 process w1 = Parked AtAction w2 []
    /\ trace w2 = trace async_world ++ rounds [mem] [info_entry "a"] ++ rounds [mem] es
    /\ goroutines (core w2) = goroutines (core async_world) - 1.
Proof.
  apply (async_calls_in_order string demo_Sprint 0 demo_logger two_calls async_world
           0%nat (mkChan 1024 [Some (info_entry "a")] 0) [info_entry "a"]).
  - reflexivity.
  - reflexivity.
  - repeat constructor; vm_compute; discriminate.
  - reflexivity.
  - reflexivity.
  - vm_compute. discriminate.
Defined.

(** A call on an unbuffered channel that holds a value: it stays at the
    send. *)
Lemma Log_waits_for_room_unbuffered :
  exec 1 (Log string demo_Sprint demo_logger LevelInfo ["b"]) unbuffered_world =
  Parked AtAction (counted unbuffered_world) [].
Proof.
  apply (Log_waits_for_room string demo_Sprint 0 demo_logger LevelInfo ["b"]
           unbuffered_world 0%nat (mkChan 0 [Some (info_entry "a")] 0)).
  - reflexivity.
  - reflexivity.
  - vm_compute. split; [reflexivity|discriminate].
  - reflexivity.
  - vm_compute. discriminate.
Defined.

(** A Fatal call in sync mode with the Exit action. *)
Lemma Fatal_takes_action_exit :
  exec 1 (SetFatalAction ActionExit ;; Fatal string demo_Sprint demo_logger ["x"])
    sync_world =
  Crashed (Exited (-1))
    (emit [TargetProcess mem (Some stack_entry); TargetProcess mem (Some stack_entry);
           TargetProcess mem (Some forced_entry)]
       (set_core (with_fatalAction ActionExit) sync_world)) [].
Proof.
  apply (Fatal_takes_action string demo_Sprint 0 demo_logger ["x"] ActionExit sync_world).
  - reflexivity.
  - vm_compute. discriminate.
  - reflexivity.
Defined.

(** [Sync] and a call, with an entry still queued. *)
Lemma Sync_overtakes_queue_one :
  exists w1 w2,
    exec 1 (Sync [] ;; Log string demo_Sprint demo_logger LevelInfo ["b"]) async_world =
      Done tt w1 []
    /\ SyncMode (core w1) = true
    /\ trace w1 = trace async_world ++ round [mem] (Some (info_entry "b"))
    /\ current_chan w1 = Some (0%nat, mkChan 1024 [Some (info_entry "a")] 0)
    /\ exec 2 process w1 = Parked AtAction w2 []
    /\ trace w2 = trace async_world ++ round [mem] (Some (info_entry "b"))
                  ++ rounds [mem] [info_entry "a"].
Proof.
  apply (Sync_overtakes_queue string demo_Sprint 0 demo_logger LevelInfo ["b"] []
           async_world 0%nat (mkChan 1024 [Some (info_entry "a")] 0) [info_entry "a"]).
  - reflexivity.
  - vm_compute. split; [reflexivity|discriminate].
  - reflexivity.
  - reflexivity.
  - reflexivity.
Defined.

(** A logger for the category db made from the demo logger. *)
Lemma GetLogger_inherits_sync :
  exec 1 (Log string demo_Sprint (GetLogger demo_logger "db" []) LevelInfo ["a"])
    sync_world =
  Done tt
    (emit (round [mem]
             (Some (mkEntry LevelInfo "db" "a" 0 "" "0|Info|db|a"))) sync_world) [].
Proof.
  apply (GetLogger_inherits string demo_Sprint 0 demo_logger "db" [] LevelInfo ["a"]
           sync_world).
  - reflexivity.
  - reflexivity.
  - vm_compute. split; [reflexivity|discriminate].
Defined.

(** [Close] beside the dispatcher on an unbuffered channel with one
    entry waiting. *)
Lemma Close_unbuffered_waits_one :
  exists more,
    [TargetProcess mem (Some (info_entry "a"))] =
    owed [mem] DLoop ++ rounds [mem] [info_entry "a"] ++ more.
Proof.
  apply (Close_unbuffered_waits unbuffered_world 0%nat
           (mkChan 0 [Some (info_entry "a")] 0) [info_entry "a"] DLoop
           wait_schedule wait_final
           [TargetProcess mem (Some (info_entry "a"))] mem []).
  - reflexivity.
  - reflexivity.
  - reflexivity.
  - reflexivity.
  - exact I.
  - vm_compute. reflexivity.
  - vm_compute. reflexivity.
Defined.



(** An Info call beside the dispatcher, with one entry queued before. *)
Lemma Log_keeps_order_one :
  exists e dpc' ch' q' emitted,
    ELevel e = LevelInfo /\ EMessage e = demo_Sprint ["b"]
    /\ ECategory e = Category demo_logger
    /\ ECallStack e = render_frames (captured_frames async_world LevelInfo)
    /\ cthreads order_final = [Ret tt; dispatcher_at dpc']
    /\ nth_error (heap (cworld order_final)) 0 = Some ch'
    /\ CBuf ch' = map Some q'
    /\ trace (cworld order_final) = trace async_world ++ emitted
    /\ emitted ++ owed [mem] dpc' ++ rounds [mem] q' =
       owed [mem] DLoop ++ rounds [mem] [info_entry "a"] ++ round [mem] (Some e).
Proof.
  apply (Log_keeps_order string demo_Sprint demo_logger LevelInfo ["b"] async_world
           0%nat (mkChan 1024 [Some (info_entry "a")] 0) [info_entry "a"] DLoop
           order_schedule order_final).
  - reflexivity.
  - reflexivity.
  - vm_compute. split; [reflexivity|discriminate].
  - reflexivity.
  - reflexivity.
  - reflexivity.
  - exact I.
  - vm_compute. reflexivity.
  - vm_compute. reflexivity.
Defined.



